(** * subtitle-translator-ai: codec, batcher, retry executor, provider
      selection and merge loop, embedded from the TypeScript sources.

    Layout: the first part of the file holds the embedding (JavaScript
    string primitives, then one block of definitions per source file); the
    second part holds the predicates and sample data the statements use; the
    third part holds the lemmas and the theorems.

    Conventions of the embedding.
    - A JavaScript string is the list of its UTF-16 code units ([list N]);
      [s.length] is the length of that list.
    - A JavaScript number that the code only uses as an integer is a [Z];
      this is exact below 2^53, which covers every counter, length and
      delay of the program.
    - [undefined] read from an array out of range is [None].
    - A thrown exception is the [Err] branch of [Result]. *)

From Stdlib Require Import ZArith NArith Lia Bool Ascii String DecimalPos.
From stdpp Require Import base list gmap.

(** ** JavaScript strings *)

Abbreviation jsstring := (list N).

Definition str (s : string) : jsstring :=
  map N_of_ascii (list_ascii_of_string s).

Definition NL : N := 10.        (* \n *)
Definition CR : N := 13.        (* \r *)

Definition jslength (s : jsstring) : Z := Z.of_nat (length s).

(** [\d] *)
Definition isDigit (c : N) : bool := ((48 <=? c) && (c <=? 57))%N.

(** ECMAScript LineTerminator: LF, CR, LS, PS.  The regex atom [.] matches
    every code unit but these. *)
Definition isLineTerminator (c : N) : bool :=
  ((c =? 10) || (c =? 13) || (c =? 8232) || (c =? 8233))%N.

(** ECMAScript WhiteSpace and LineTerminator: what [\s] matches and what
    [trim] strips. *)
Definition isSpace (c : N) : bool :=
  ((c =? 9) || (c =? 10) || (c =? 11) || (c =? 12) || (c =? 13) || (c =? 32)
   || (c =? 160) || (c =? 5760) || ((8192 <=? c) && (c <=? 8202))
   || (c =? 8232) || (c =? 8233) || (c =? 8239) || (c =? 8287)
   || (c =? 12288) || (c =? 65279))%N.

Fixpoint dropWhile (p : N -> bool) (s : jsstring) : jsstring :=
  match s with
  | [] => []
  | c :: s' => if p c then dropWhile p s' else s
  end.

Fixpoint takeWhile (p : N -> bool) (s : jsstring) : jsstring :=
  match s with
  | [] => []
  | c :: s' => if p c then c :: takeWhile p s' else []
  end.

Definition trimStart (s : jsstring) : jsstring := dropWhile isSpace s.
Definition trimEnd (s : jsstring) : jsstring := rev (dropWhile isSpace (rev s)).
Definition trim (s : jsstring) : jsstring := trimEnd (trimStart s).

(** Truthiness of a string: non-empty. *)
Definition truthy (s : jsstring) : bool :=
  match s with [] => false | _ => true end.

Definition jsstring_eqb (a b : jsstring) : bool := bool_decide (a = b).

(** [s.split(c)] for a one-character separator. *)
Fixpoint split_char (sep : N) (s : jsstring) : list jsstring :=
  match s with
  | [] => [[]]
  | c :: s' =>
      if (c =? sep)%N then [] :: split_char sep s'
      else match split_char sep s' with
           | [] => [[c]]
           | p :: ps => (c :: p) :: ps
           end
  end.

(** [pieces.join(sep)] *)
Fixpoint join (sep : jsstring) (pieces : list jsstring) : jsstring :=
  match pieces with
  | [] => []
  | [p] => p
  | p :: ps => p ++ sep ++ join sep ps
  end.

(** [s.replace(a, b)] with one-character strings: the first occurrence only. *)
Fixpoint replace_first (a b : N) (s : jsstring) : jsstring :=
  match s with
  | [] => []
  | c :: s' => if (c =? a)%N then b :: s' else c :: replace_first a b s'
  end.

Fixpoint startsWith (s prefix : jsstring) : bool :=
  match prefix, s with
  | [], _ => true
  | p :: prefix', c :: s' => (c =? p)%N && startsWith s' prefix'
  | _ :: _, [] => false
  end.

Definition endsWith (s suffix : jsstring) : bool :=
  startsWith (rev s) (rev suffix).

Fixpoint includes (s sub : jsstring) : bool :=
  startsWith s sub ||
  match s with
  | [] => false
  | _ :: s' => includes s' sub
  end.

(** [s.substring(n)] *)
Definition substring_from (n : nat) (s : jsstring) : jsstring := drop n s.

(** [s.padStart(n, c)] with a one-character pad. *)
Definition padStart (n : nat) (c : N) (s : jsstring) : jsstring :=
  replicate (n - length s) c ++ s.

(** [s.toLowerCase()].  The code only compares lowered strings against the
    ASCII words [english], [en], [start], [end] and [text]; no code unit
    outside A-Z lowers to a letter of these words, so the ASCII mapping
    decides every such comparison as JavaScript does. *)
Definition lowerChar (c : N) : N :=
  if ((65 <=? c) && (c <=? 90))%N then (c + 32)%N else c.
Definition toLowerCase (s : jsstring) : jsstring := map lowerChar s.

(** [arr.indexOf(x)] on an array of strings; [-1] when absent. *)
Fixpoint indexOf_from (i : Z) (arr : list jsstring) (x : jsstring) : Z :=
  match arr with
  | [] => (-1)%Z
  | y :: arr' => if jsstring_eqb y x then i else indexOf_from (i + 1)%Z arr' x
  end.
Definition indexOf_str (arr : list jsstring) (x : jsstring) : Z :=
  indexOf_from 0%Z arr x.

(** Array read at a JavaScript number: [undefined] out of range. *)
Definition at_index {A} (l : list A) (i : Z) : option A :=
  if (i <? 0)%Z then None else l !! Z.to_nat i.

(** *** Numbers and strings *)

Definition digitVal (c : N) : Z := Z.of_N (c - 48).

(** Value of a digit string, most significant digit first. *)
Definition digitsVal (ds : jsstring) : Z :=
  fold_left (fun acc c => (acc * 10 + digitVal c)%Z) ds 0%Z.

(** [parseInt(s, 10)]: leading white space is skipped, an optional sign is
    read, then the longest digit prefix; [None] is NaN. *)
Definition parseInt (s : jsstring) : option Z :=
  let s1 := trimStart s in
  let '(neg, s2) :=
    match s1 with
    | c :: r => if (c =? 45)%N then (true, r)
                else if (c =? 43)%N then (false, r) else (false, s1)
    | [] => (false, s1)
    end in
  match takeWhile isDigit s2 with
  | [] => None
  | ds => Some (if neg then (- digitsVal ds)%Z else digitsVal ds)
  end.

Fixpoint uint_chars (u : Decimal.uint) : jsstring :=
  match u with
  | Decimal.Nil => []
  | Decimal.D0 u => 48%N :: uint_chars u
  | Decimal.D1 u => 49%N :: uint_chars u
  | Decimal.D2 u => 50%N :: uint_chars u
  | Decimal.D3 u => 51%N :: uint_chars u
  | Decimal.D4 u => 52%N :: uint_chars u
  | Decimal.D5 u => 53%N :: uint_chars u
  | Decimal.D6 u => 54%N :: uint_chars u
  | Decimal.D7 u => 55%N :: uint_chars u
  | Decimal.D8 u => 56%N :: uint_chars u
  | Decimal.D9 u => 57%N :: uint_chars u
  end.

(** [String(n)] / template interpolation of an integer. *)
Definition numToString (n : Z) : jsstring :=
  match Z.to_int n with
  | Decimal.Pos u => uint_chars u
  | Decimal.Neg u => 45%N :: uint_chars u
  end.

(** *** Regular expressions

    Each regular expression of the sources is written with the combinators
    below.  A matcher consumes a prefix of its input and returns the matched
    text and the rest.  The combinators do not backtrack; in every pattern
    they are used for, a greedy quantifier ([\d+], [\s*], [[^>]+]) is
    followed by a character its class excludes, so giving characters back
    can never turn a failure into a success, and the two alternatives of the
    WebVTT timestamp cannot both match at one position (the sixth character
    is [:] for one and [.] for the other).  The one pattern where
    backtracking matters, [\s*(.+)$], is written out with its backtracking
    loop ([ws_then_rest]). *)

Definition matcher := jsstring -> option (jsstring * jsstring).

(** [\d{n}] *)
Definition m_digits (n : nat) : matcher := fun s =>
  let d := take n s in
  if (length d =? n) && forallb isDigit d then Some (d, drop n s) else None.

(** [\d+] *)
Definition m_digits1 : matcher := fun s =>
  match takeWhile isDigit s with
  | [] => None
  | d => Some (d, dropWhile isDigit s)
  end.

(** a literal *)
Definition m_lit (l : jsstring) : matcher := fun s =>
  if startsWith s l then Some (l, drop (length l) s) else None.

(** one character of a class *)
Definition m_class (p : N -> bool) : matcher := fun s =>
  match s with
  | c :: r => if p c then Some ([c], r) else None
  | [] => None
  end.

(** [\s*] *)
Definition m_ws : matcher := fun s =>
  Some (takeWhile isSpace s, dropWhile isSpace s).

Definition m_seq (a b : matcher) : matcher := fun s =>
  match a s with
  | Some (x, r) =>
      match b r with
      | Some (y, r') => Some (x ++ y, r')
      | None => None
      end
  | None => None
  end.

Definition m_alt (a b : matcher) : matcher := fun s =>
  match a s with
  | Some x => Some x
  | None => b s
  end.

Infix ">>" := m_seq (at level 61, left associativity).

(** [s.match(re)] for a pattern without [^]: the leftmost position where
    the pattern matches. *)
Fixpoint search {A} (m : jsstring -> option A) (s : jsstring) : option A :=
  match m s with
  | Some x => Some x
  | None =>
      match s with
      | [] => None
      | _ :: s' => search m s'
      end
  end.

(** [(ts)\s*-->\s*(ts)] at the head of [s]: the two captured groups. *)
Definition arrow_at (ts : matcher) (s : jsstring) : option (jsstring * jsstring) :=
  match ts s with
  | Some (g1, r1) =>
      match (m_ws >> m_lit (str "-->") >> m_ws) r1 with
      | Some (_, r2) =>
          match ts r2 with
          | Some (g2, _) => Some (g1, g2)
          | None => None
          end
      | None => None
      end
  | None => None
  end.

(** Global replacement of [open [^close]+ close] by the empty string, for
    the two tag patterns [/<[^>]+>/g] and [/\{[^}]+\}/g].  [tag_closes]
    decides whether a tag opened just before [s] is closed: at least one
    character other than [close], then [close]. *)
Definition tag_closes (close : N) (s : jsstring) : bool :=
  match s with
  | [] => false
  | c :: _ => negb (c =? close)%N && existsb (fun d => (d =? close)%N) s
  end.

Fixpoint strip_tags (opn close : N) (inTag : bool) (s : jsstring) : jsstring :=
  match s with
  | [] => []
  | c :: s' =>
      if inTag then
        if (c =? close)%N then strip_tags opn close false s'
        else strip_tags opn close true s'
      else if (c =? opn)%N && tag_closes close s' then strip_tags opn close true s'
      else c :: strip_tags opn close false s'
  end.

(** [s.replace(/\r\n/g, '\n')] *)
Fixpoint replace_crlf (s : jsstring) : jsstring :=
  match s with
  | [] => []
  | c :: s' =>
      match s' with
      | d :: s'' =>
          if (c =? CR)%N && (d =? NL)%N then NL :: replace_crlf s''
          else c :: replace_crlf s'
      | [] => [c]
      end
  end.

(** [s.replace(/\r/g, '\n')] *)
Definition replace_cr (s : jsstring) : jsstring :=
  map (fun c => if (c =? CR)%N then NL else c) s.

(** [s.replace(/\\N/g, '\n')]: backslash (92) followed by [N] (78). *)
Fixpoint replace_slashN (s : jsstring) : jsstring :=
  match s with
  | [] => []
  | c :: s' =>
      match s' with
      | d :: s'' =>
          if (c =? 92)%N && (d =? 78)%N then NL :: replace_slashN s''
          else c :: replace_slashN s'
      | [] => [c]
      end
  end.

(** [s.replace(/\n/g, '\\N')] *)
Definition replace_nl_slashN (s : jsstring) : jsstring :=
  flat_map (fun c => if (c =? NL)%N then [92%N; 78%N] else [c]) s.

Definition cons_head (c : N) (ps : list jsstring) : list jsstring :=
  match ps with
  | [] => [[c]]
  | p :: ps' => (c :: p) :: ps'
  end.

(** [s.split(/\n\n+/)]: a separator is a maximal run of two or more line
    feeds.  [skipping] holds while the scan is inside such a run. *)
Fixpoint split_blank (skipping : bool) (s : jsstring) : list jsstring :=
  match s with
  | [] => [[]]
  | c :: s' =>
      if skipping && (c =? NL)%N then split_blank true s'
      else
        match s' with
        | d :: s'' =>
            if (c =? NL)%N && (d =? NL)%N then [] :: split_blank true s''
            else cons_head c (split_blank false s')
        | [] => [[c]]
        end
  end.

(** ** subtitles.ts (src/unnamed/part_003) *)

Record Subtitle := mkSubtitle {
  index : Z;
  startTime : jsstring;
  endTime : jsstring;
  text : jsstring;
}.

Inductive SubtitleFormat := srt | vtt | ass.

Definition normalizeLineEndings (content : jsstring) : jsstring :=
  replace_cr (replace_crlf content).

(** [normalized.split(/\n\n+/).filter(block => block.trim())] *)
Definition blocks_of (content : jsstring) : list jsstring :=
  List.filter (fun block => truthy (trim block))
              (split_blank false (normalizeLineEndings content)).

(** [block.split('\n').filter(line => line.trim())] *)
Definition lines_of (block : jsstring) : list jsstring :=
  List.filter (fun line => truthy (trim line)) (split_char NL block).

Definition isCommaOrDot (c : N) : bool := ((c =? 44) || (c =? 46))%N.

(** [\d{2}:\d{2}:\d{2}[,\.]\d{3}] *)
Definition srt_ts : matcher :=
  m_digits 2 >> m_lit (str ":") >> m_digits 2 >> m_lit (str ":") >> m_digits 2
  >> m_class isCommaOrDot >> m_digits 3.

(** One iteration of the loop of [parseSRT]; [continue] returns the
    accumulator unchanged. *)
Definition parseSRT_block (subtitles : list Subtitle) (block : jsstring)
  : list Subtitle :=
  let lines := lines_of block in
  if (length lines <? 3) then subtitles else
  match lines with
  | l0 :: l1 :: rest =>
      match parseInt l0 with
      | None => subtitles
      | Some idx =>
          match search (arrow_at srt_ts) l1 with
          | None => subtitles
          | Some (g1, g2) =>
              subtitles ++
              [ {| index := idx;
                   startTime := replace_first 46 44 g1;
                   endTime := replace_first 46 44 g2;
                   text := join [NL] rest |} ]
          end
      end
  | _ => subtitles
  end.

Definition parseSRT (content : jsstring) : list Subtitle :=
  fold_left parseSRT_block (blocks_of content) [].

(** [\d{2}:\d{2}:\d{2}\.\d{3}|\d{2}:\d{2}\.\d{3}] *)
Definition vtt_ts : matcher :=
  m_alt (m_digits 2 >> m_lit (str ":") >> m_digits 2 >> m_lit (str ":")
         >> m_digits 2 >> m_lit (str ".") >> m_digits 3)
        (m_digits 2 >> m_lit (str ":") >> m_digits 2 >> m_lit (str ".")
         >> m_digits 3).

(** [if (t.split(':').length === 2) t = '00:' + t] *)
Definition vtt_add_hours (t : jsstring) : jsstring :=
  if (length (split_char 58 t) =? 2) then str "00:" ++ t else t.

(** One iteration of the loop of [parseVTT] on the pair (index, subtitles). *)
Definition parseVTT_block (st : Z * list Subtitle) (block : jsstring)
  : Z * list Subtitle :=
  let '(idx, subtitles) := st in
  if jsstring_eqb (trim block) (str "WEBVTT") || startsWith block (str "NOTE")
  then st else
  let lines := lines_of block in
  if (length lines <? 2) then st else
  match lines with
  | l0 :: _ =>
      let timeLineIdx := if negb (includes l0 (str "-->")) then 1 else 0 in
      match lines !! timeLineIdx with
      | None => st
      | Some timeLine =>
          match search (arrow_at vtt_ts) timeLine with
          | None => st
          | Some (g1, g2) =>
              let idx' := (idx + 1)%Z in
              (idx',
               subtitles ++
               [ {| index := idx';
                    startTime := replace_first 46 44 (vtt_add_hours g1);
                    endTime := replace_first 46 44 (vtt_add_hours g2);
                    text := strip_tags 60 62 false
                              (join [NL] (drop (timeLineIdx + 1) lines)) |} ])
          end
      end
  | [] => st
  end.

Definition parseVTT (content : jsstring) : list Subtitle :=
  snd (fold_left parseVTT_block (blocks_of content) (0%Z, [])).

(** State of the loop of [parseASS]. *)
Record AssState := mkAssState {
  inEvents : bool;
  formatFields : list jsstring;
  assIndex : Z;
  assSubtitles : list Subtitle;
}.

(** [(\d+):(\d{2}):(\d{2})\.(\d{2})] at the head of [t]: groups h, m, s, cs. *)
Definition ass_time_at (t : jsstring)
  : option (jsstring * jsstring * jsstring * jsstring) :=
  match m_digits1 t with
  | Some (h, r1) =>
      match (m_lit (str ":") >> m_digits 2) r1 with
      | Some (cm, r2) =>
          match (m_lit (str ":") >> m_digits 2) r2 with
          | Some (cs, r3) =>
              match (m_lit (str ".") >> m_digits 2) r3 with
              | Some (dcs, _) => Some (h, drop 1 cm, drop 1 cs, drop 1 dcs)
              | None => None
              end
          | None => None
          end
      | None => None
      end
  | None => None
  end.

(** The closure [formatTime] of [parseASS]. *)
Definition parseASS_formatTime (t : jsstring) : jsstring :=
  match search ass_time_at t with
  | None => str "00:00:00,000"
  | Some (h, m, s, cs) =>
      padStart 2 48 h ++ str ":" ++ m ++ str ":" ++ s ++ str "," ++ cs ++ str "0"
  end.

(** One iteration of the loop of [parseASS]. *)
Definition parseASS_line (st : AssState) (line : jsstring) : AssState :=
  if jsstring_eqb (trim line) (str "[Events]") then
    mkAssState true (formatFields st) (assIndex st) (assSubtitles st)
  else if startsWith line (str "[") && endsWith line (str "]") then
    mkAssState false (formatFields st) (assIndex st) (assSubtitles st)
  else if negb (inEvents st) then st
  else if startsWith line (str "Format:") then
    mkAssState (inEvents st)
      (map (fun f => toLowerCase (trim f)) (split_char 44 (substring_from 7 line)))
      (assIndex st) (assSubtitles st)
  else if startsWith line (str "Dialogue:") then
    let values := split_char 44 (substring_from 9 line) in
    let startIdx := indexOf_str (formatFields st) (str "start") in
    let endIdx := indexOf_str (formatFields st) (str "end") in
    let textIdx := indexOf_str (formatFields st) (str "text") in
    if (startIdx =? -1)%Z || (endIdx =? -1)%Z || (textIdx =? -1)%Z then st else
    let startT := trim <$> at_index values startIdx in
    let endT := trim <$> at_index values endIdx in
    let txt :=
      strip_tags 123 125 false
        (replace_slashN (trim (join [44%N] (drop (Z.to_nat textIdx) values)))) in
    match startT, endT with
    | Some (c1 :: s1), Some (c2 :: s2) =>
        let idx' := (assIndex st + 1)%Z in
        mkAssState (inEvents st) (formatFields st) idx'
          (assSubtitles st ++
           [ {| index := idx';
                startTime := parseASS_formatTime (c1 :: s1);
                endTime := parseASS_formatTime (c2 :: s2);
                text := txt |} ])
    | _, _ => st
    end
  else st.

Definition parseASS (content : jsstring) : list Subtitle :=
  assSubtitles
    (fold_left parseASS_line (split_char NL (normalizeLineEndings content))
               (mkAssState false [] 0%Z [])).

Definition parse (content : jsstring) (format : SubtitleFormat) : list Subtitle :=
  match format with
  | vtt => parseVTT content
  | ass => parseASS content
  | srt => parseSRT content
  end.

(** [`${i + 1}\n${start} --> ${end}\n${text}`] *)
Definition cue (i : nat) (start end_ txt : jsstring) : jsstring :=
  numToString (Z.of_nat i + 1) ++ [NL] ++ start ++ str " --> " ++ end_ ++ [NL] ++ txt.

Definition toSRT (subtitles : list Subtitle) : jsstring :=
  join [NL; NL]
    (imap (fun i sub => cue i (startTime sub) (endTime sub) (text sub)) subtitles)
  ++ [NL].

Definition toVTT (subtitles : list Subtitle) : jsstring :=
  let header := str "WEBVTT" ++ [NL; NL] in
  let body :=
    join [NL; NL]
      (imap (fun i sub =>
               let start := replace_first 44 46 (startTime sub) in
               let end_ := replace_first 44 46 (endTime sub) in
               cue i start end_ (text sub)) subtitles) in
  header ++ body ++ [NL].

(** The lines of the header template of [toASS]. *)
Definition ass_header_lines : list jsstring :=
  [ str "[Script Info]";
    str "Title: Translated Subtitles";
    str "ScriptType: v4.00+";
    str "Collisions: Normal";
    str "PlayDepth: 0";
    [];
    str "[V4+ Styles]";
    str "Format: Name, Fontname, Fontsize, PrimaryColour, SecondaryColour, OutlineColour, BackColour, Bold, Italic, Underline, StrikeOut, ScaleX, ScaleY, Spacing, Angle, BorderStyle, Outline, Shadow, Alignment, MarginL, MarginR, MarginV, Encoding";
    str "Style: Default,Arial,20,&H00FFFFFF,&H000000FF,&H00000000,&H00000000,0,0,0,0,100,100,0,0,1,2,2,2,10,10,10,1";
    [];
    str "[Events]";
    str "Format: Layer, Start, End, Style, Name, MarginL, MarginR, MarginV, Effect, Text" ].

(** The header template: every line ends with a line feed. *)
Definition ass_header : jsstring :=
  flat_map (fun l => l ++ [NL]) ass_header_lines.

(** [(\d{2}):(\d{2}):(\d{2}),(\d{3})] at the head of [t]: groups h, m, s, ms. *)
Definition srt_time_at (t : jsstring)
  : option (jsstring * jsstring * jsstring * jsstring) :=
  match m_digits 2 t with
  | Some (h, r1) =>
      match (m_lit (str ":") >> m_digits 2) r1 with
      | Some (cm, r2) =>
          match (m_lit (str ":") >> m_digits 2) r2 with
          | Some (cs, r3) =>
              match (m_lit (str ",") >> m_digits 3) r3 with
              | Some (cms, _) => Some (h, drop 1 cm, drop 1 cs, drop 1 cms)
              | None => None
              end
          | None => None
          end
      | None => None
      end
  | None => None
  end.

(** The closure [formatTime] of [toASS]. *)
Definition toASS_formatTime (t : jsstring) : jsstring :=
  match search srt_time_at t with
  | None => str "0:00:00.00"
  | Some (h, m, s, ms) =>
      match parseInt h with
      | Some n => numToString n
      | None => str "NaN"
      end ++ str ":" ++ m ++ str ":" ++ s ++ str "." ++ take 2 ms
  end.

Definition dialogue (sub : Subtitle) : jsstring :=
  let start := toASS_formatTime (startTime sub) in
  let end_ := toASS_formatTime (endTime sub) in
  let txt := replace_nl_slashN (text sub) in
  str "Dialogue: 0," ++ start ++ str "," ++ end_ ++ str ",Default,,0,0,0,," ++ txt.

Definition toASS (subtitles : list Subtitle) : jsstring :=
  ass_header ++ join [NL] (map dialogue subtitles) ++ [NL].

Definition serialize (subtitles : list Subtitle) (format : SubtitleFormat) : jsstring :=
  match format with
  | vtt => toVTT subtitles
  | ass => toASS subtitles
  | srt => toSRT subtitles
  end.

(** A JavaScript array of captions holds references to objects.  Where the
    code compares captions by identity ([Array.prototype.indexOf] in the
    merge loop) an element is a [SubtitleRef]: the address of the object and
    its fields.  [parse] and [serialize] only read fields, so they are
    stated on [Subtitle]. *)
Record SubtitleRef := mkRef {
  loc : nat;
  obj : Subtitle;
}.

(** The array [parse] returns, as the merge loop sees it: every caption was
    pushed as a fresh object literal, so caption number [k] lives at an
    address of its own. *)
Definition alloc (captions : list Subtitle) : list SubtitleRef :=
  imap mkRef captions.

(** The loop of [batchSubtitles], on the state (batches, currentBatch,
    currentChars), followed by the final push. *)
Fixpoint batch_loop (batchSize maxChars : Z) (subtitles : list SubtitleRef)
    (batches : list (list SubtitleRef)) (currentBatch : list SubtitleRef)
    (currentChars : Z) : list (list SubtitleRef) :=
  match subtitles with
  | [] =>
      if (0 <? length currentBatch) then batches ++ [currentBatch] else batches
  | subtitle :: rest =>
      let textLength := jslength (text (obj subtitle)) in
      if (batchSize <=? Z.of_nat (length currentBatch))%Z
         || ((maxChars <? currentChars + textLength)%Z && (0 <? length currentBatch))
      then batch_loop batchSize maxChars rest
             (batches ++ [currentBatch]) ([] ++ [subtitle]) (0 + textLength)%Z
      else batch_loop batchSize maxChars rest
             batches (currentBatch ++ [subtitle]) (currentChars + textLength)%Z
  end.

Definition batchSubtitles (subtitles : list SubtitleRef) (batchSize maxChars : Z)
  : list (list SubtitleRef) :=
  batch_loop batchSize maxChars subtitles [] [] 0%Z.

(** Default arguments of [batchSubtitles]. *)
Definition default_batchSize : Z := 500.
Definition default_maxChars : Z := 50000.

(** ** translator.ts and providers/anthropic.ts (src/unnamed/part_002) *)

Inductive Result (A : Type) : Type :=
| Ok (value : A)
| Err (message : jsstring).
Arguments Ok {A} value.
Arguments Err {A} message.

(** What [fetchWithRetry] does to the outside, in order: a call of the
    operation, a call of [onRetry], a sleep. *)
Inductive Event :=
| Call
| OnRetry (attempt : Z) (error : jsstring)
| Sleep (ms : Z).

Definition isRetryable (message : jsstring) : bool :=
  includes message (str "429") || includes message (str "500")
  || includes message (str "502") || includes message (str "503").

Section FetchWithRetry.
Context {T : Type}.
(** The operation is effectful: [fn k] is the outcome of its call number
    [k] (counted from 0).  A thrown non-Error value is already converted
    to its message. *)
Variable fn : nat -> Result T.
Variables maxRetries baseDelay : Z.

(** The [for] loop, entered at the test [attempt <= maxRetries + 1];
    [calls] counts the calls made so far.  [None] is running out of fuel. *)
Fixpoint retry_loop (fuel : nat) (attempt : Z) (calls : nat)
    (lastError : jsstring) (trace : list Event)
  : option (Result T * list Event) :=
  if negb (attempt <=? maxRetries + 1)%Z then Some (Err lastError, trace)
  else
    match fuel with
    | 0 => None
    | S fuel' =>
        match fn calls with
        | Ok v => Some (Ok v, trace ++ [Call])
        | Err e =>
            if (attempt >? maxRetries)%Z then Some (Err e, trace ++ [Call])
            else if negb (isRetryable e) then Some (Err e, trace ++ [Call])
            else retry_loop fuel' (attempt + 1)%Z (S calls) e
                   (trace ++ [Call; OnRetry attempt e;
                              Sleep (baseDelay * 2 ^ (attempt - 1))%Z])
        end
    end.

Definition fetchWithRetry : option (Result T * list Event) :=
  retry_loop (Z.to_nat (maxRetries + 1)) 1%Z 0 (str "Unknown error") [].
End FetchWithRetry.

Definition attempts (trace : list Event) : nat :=
  length (List.filter (fun e => match e with Call => true | _ => false end) trace).

(** The sleeps of a trace, in order. *)
Definition sleeps (trace : list Event) : list Z :=
  omap (fun e => match e with Sleep ms => Some ms | _ => None end) trace.

(** [\s*(.+)$] on [r]: [\s*] first takes the longest run of white space and
    gives characters back one at a time; [(.+)$] has to match all that is
    left, at least one character and no line terminator. *)
Fixpoint ws_then_rest (k : nat) (r : jsstring) : option jsstring :=
  let body := drop k r in
  if truthy body && forallb (fun c => negb (isLineTerminator c)) body
  then Some body
  else match k with
       | 0 => None
       | S k' => ws_then_rest k' r
       end.

(** [line.match(/^\[(\d+)\]\s*(.+)$/)]: the groups 1 and 2. *)
Definition match_numbered (line : jsstring) : option (jsstring * jsstring) :=
  match (m_lit (str "[") >> m_digits1 >> m_lit (str "]")) line with
  | Some (bracketed, r) =>
      match ws_then_rest (length (takeWhile isSpace r)) r with
      | Some body => Some (take (length bracketed - 2) (drop 1 bracketed), body)
      | None => None
      end
  | None => None
  end.

(** One iteration of the loop over the response lines; [n] is
    [subtitles.length].  The keys of [lineMap] are JavaScript numbers. *)
Definition parse_line (n : nat) (lineMap : gmap Z jsstring) (line : jsstring)
  : gmap Z jsstring :=
  match match_numbered line with
  | Some (num, body) =>
      match parseInt num with
      | Some v => <[(v - 1)%Z := trim body]> lineMap
      | None => lineMap
      end
  | None =>
      let cleanLine := trim line in
      if truthy cleanLine && (size lineMap <? n)
      then <[Z.of_nat (size lineMap) := cleanLine]> lineMap
      else lineMap
  end.

Definition lineMap_of (response : jsstring) (n : nat) : gmap Z jsstring :=
  fold_left (parse_line n) (split_char NL response) ∅.

(** [lineMap.get(i) || subtitles[i].text] *)
Definition get_or (lineMap : gmap Z jsstring) (i : nat) (original : jsstring)
  : jsstring :=
  match lineMap !! Z.of_nat i with
  | Some t => if truthy t then t else original
  | None => original
  end.

(** [parseTranslations] of providers/anthropic.ts; the same statements are
    inlined at the end of [translateBatch] in translator.ts. *)
Definition parseTranslations (response : jsstring) (subtitles : list SubtitleRef)
  : list jsstring :=
  let lineMap := lineMap_of response (length subtitles) in
  imap (fun i s => get_or lineMap i (text (obj s))) subtitles.

(** ** providers/types.ts, providers/index.ts, providers/whisper.ts *)

Inductive ProviderName := openai | anthropic | gemini | kimi | whisper.

Definition detectProvider (apiKey : jsstring) : option ProviderName :=
  if startsWith apiKey (str "sk-kimi-") then Some kimi
  else if startsWith apiKey (str "sk-ant-") || startsWith apiKey (str "sk-") then
    if startsWith apiKey (str "sk-ant-") then Some anthropic
    else Some openai
  else if startsWith apiKey (str "AIza") then Some gemini
  else None.

Definition requiresApiKey (p : ProviderName) : bool :=
  match p with whisper => false | _ => true end.

Definition envVar (p : ProviderName) : jsstring :=
  match p with
  | openai => str "OPENAI_API_KEY"
  | anthropic => str "ANTHROPIC_API_KEY"
  | gemini => str "GEMINI_API_KEY"
  | kimi => str "KIMI_API_KEY"
  | whisper => []
  end.

(** [x] when it is a non-empty string, [undefined] otherwise: the operand
    of a JavaScript truthiness test on [string | undefined]. *)
Definition nonempty (x : option jsstring) : option jsstring :=
  match x with
  | Some (c :: s) => Some (c :: s)
  | _ => None
  end.

Section CreateProvider.
(** [process.env] *)
Variable env : jsstring -> option jsstring.

Definition getApiKey (provider : ProviderName) (explicitKey : option jsstring)
  : option jsstring :=
  match nonempty explicitKey with
  | Some k => Some k
  | None => if negb (requiresApiKey provider) then None else env (envVar provider)
  end.

Fixpoint detectFromEnv_loop (checkOrder : list ProviderName)
  : option (ProviderName * jsstring) :=
  match checkOrder with
  | [] => None
  | name :: rest =>
      match nonempty (env (envVar name)) with
      | Some key => Some (name, key)
      | None => detectFromEnv_loop rest
      end
  end.

Definition detectFromEnv : option (ProviderName * jsstring) :=
  detectFromEnv_loop [openai; anthropic; gemini; kimi].

(** The first half of [createProvider]: the provider name and the API key
    it settles on. *)
Definition selectProvider (explicitProvider : option ProviderName)
    (explicitKey : option jsstring) : ProviderName * option jsstring :=
  match explicitProvider with
  | Some p =>
      (p, match nonempty explicitKey with
          | Some k => Some k
          | None => getApiKey p None
          end)
  | None =>
      match nonempty explicitKey with
      | Some k =>
          match detectProvider k with
          | Some detected => (detected, Some k)
          | None => (openai, Some k)
          end
      | None =>
          match detectFromEnv with
          | Some (name, key) => (name, Some key)
          | None => (whisper, None)
          end
      end
  end.
End CreateProvider.

Record ProviderConfig := mkConfig {
  apiKey : option jsstring;
  model : option jsstring;
  baseUrl : option jsstring;
  sourceLang : jsstring;
  targetLang : jsstring;
}.

(** The two members of [TranslationProvider] the properties below are
    about; [translateBatch] returns a promise, rejected on [Err]. *)
Record TranslationProvider := mkProvider {
  name : ProviderName;
  translateBatch : list SubtitleRef -> Result (list jsstring);
}.

Definition whisper_target_error (targetLang : jsstring) : jsstring :=
  str "Whisper can only translate TO English, not to " ++ targetLang ++ str "."
  ++ [NL]
  ++ str "For translation to other languages, use: --provider openai|anthropic|gemini|kimi".

Definition whisper_text_error : jsstring :=
  str "Whisper provider does not support text translation." ++ [NL]
  ++ str "Use " ++ [34%N] ++ str "stt transcribe <audio/video>" ++ [34%N]
  ++ str " to transcribe audio files." ++ [NL]
  ++ str "For text translation, use: --provider openai|anthropic|gemini|kimi".

Definition createWhisperProvider (config : ProviderConfig)
  : Result TranslationProvider :=
  if negb (jsstring_eqb (toLowerCase (targetLang config)) (str "english"))
     && negb (jsstring_eqb (toLowerCase (targetLang config)) (str "en"))
  then Err (whisper_target_error (targetLang config))
  else Ok {| name := whisper;
             translateBatch := fun _ => Err whisper_text_error |}.

(** ** cli.ts: the merge loop of the translate command *)

(** An element of [translatedSubtitles]: a caption whose [text] is whatever
    [translations[j]] was ([None] is [undefined]); [Hole] is an array hole
    left by a write past the end. *)
Record Merged := mkMerged {
  m_index : Z;
  m_startTime : jsstring;
  m_endTime : jsstring;
  m_text : option jsstring;
}.

Inductive Slot := Hole | Elem (m : Merged).

Definition slot_of (r : SubtitleRef) : Slot :=
  Elem (mkMerged (index (obj r)) (startTime (obj r)) (endTime (obj r))
                 (Some (text (obj r)))).

(** [subtitles.indexOf(x)]: strict equality on objects is equality of
    addresses; [x] is [undefined] when the batch is empty. *)
Fixpoint indexOf_ref_from (i : Z) (subtitles : list SubtitleRef) (x : option SubtitleRef) : Z :=
  match subtitles with
  | [] => (-1)%Z
  | y :: rest =>
      match x with
      | Some r => if Nat.eqb (loc y) (loc r) then i else indexOf_ref_from (i + 1)%Z rest x
      | None => indexOf_ref_from (i + 1)%Z rest x
      end
  end.
Definition indexOf_ref (subtitles : list SubtitleRef) (x : option SubtitleRef) : Z :=
  indexOf_ref_from 0%Z subtitles x.

(** [arr[i] = v]: in range it overwrites, past the end it extends the array
    with holes, and a negative [i] sets a property that is no element. *)
Definition array_set (arr : list Slot) (i : Z) (v : Slot) : list Slot :=
  if (i <? 0)%Z then arr
  else if (i <? Z.of_nat (length arr))%Z then <[Z.to_nat i := v]> arr
  else arr ++ replicate (Z.to_nat i - length arr) Hole ++ [v].

(** The inner loop, entered at [j]; [todo] is [batch] from position [j] on. *)
Fixpoint write_batch (startIdx : Z) (translations : list jsstring)
    (j : nat) (todo : list SubtitleRef) (translatedSubtitles : list Slot)
  : list Slot :=
  match todo with
  | [] => translatedSubtitles
  | b :: rest =>
      write_batch startIdx translations (S j) rest
        (array_set translatedSubtitles (startIdx + Z.of_nat j)%Z
           (Elem (mkMerged (index (obj b)) (startTime (obj b)) (endTime (obj b))
                           (translations !! j))))
  end.

Section Merge.
(** [provider.translateBatch] as called by the loop: the outcome of the
    call made for batch number [i]. *)
Variable translate : nat -> list SubtitleRef -> Result (list jsstring).
Variable subtitles : list SubtitleRef.

(** The outer loop, entered at [i]; an [Err] leaves through the [catch]. *)
Fixpoint merge_loop (i : nat) (batches : list (list SubtitleRef))
    (translatedSubtitles : list Slot) : Result (list Slot) :=
  match batches with
  | [] => Ok translatedSubtitles
  | batch :: rest =>
      let startIdx := indexOf_ref subtitles (batch !! 0) in
      match translate i batch with
      | Err e => Err e
      | Ok translations =>
          merge_loop (S i) rest
            (write_batch startIdx translations 0 batch translatedSubtitles)
      end
  end.

Definition merge (batches : list (list SubtitleRef)) : Result (list Slot) :=
  merge_loop 0 batches (map slot_of subtitles).
End Merge.

(** ** subtitles.ts: format detection and time conversion *)

(** [detectFormat].  The lowered extension is only compared with [vtt],
    [ass], [ssa] and [srt], whose letters no code unit outside A-Z lowers
    to, so [toLowerCase] decides these comparisons as JavaScript does. *)
Definition detectFormat (content : jsstring) (filename : option jsstring)
  : SubtitleFormat :=
  let sniff :=
    if startsWith (trim content) (str "WEBVTT") then vtt
    else if includes content (str "[Script Info]")
            || includes content (str "Format: Layer") then ass
    else srt in
  match nonempty filename with
  | Some f =>
      let ext := toLowerCase <$> last (split_char 46 f) in
      if bool_decide (ext = Some (str "vtt")) then vtt
      else if bool_decide (ext = Some (str "ass"))
              || bool_decide (ext = Some (str "ssa")) then ass
      else if bool_decide (ext = Some (str "srt")) then srt
      else sniff
  | None => sniff
  end.

(** [\d{1,2}]: two digits when there are two, else one.  Giving the second
    digit back cannot help the [:] that follows. *)
Definition m_digits12 : matcher := fun s =>
  match m_digits 2 s with
  | Some x => Some x
  | None => m_digits 1 s
  end.

(** [(\d{1,2}):(\d{2}):(\d{2})[,.](\d{3})] at the head of [t]. *)
Definition time_at (t : jsstring)
  : option (jsstring * jsstring * jsstring * jsstring) :=
  match m_digits12 t with
  | Some (h, r1) =>
      match (m_lit (str ":") >> m_digits 2) r1 with
      | Some (cm, r2) =>
          match (m_lit (str ":") >> m_digits 2) r2 with
          | Some (cs, r3) =>
              match (m_class isCommaOrDot >> m_digits 3) r3 with
              | Some (cms, _) => Some (h, drop 1 cm, drop 1 cs, drop 1 cms)
              | None => None
              end
          | None => None
          end
      | None => None
      end
  | None => None
  end.

(** [timeToMs]; [None] is NaN. *)
Definition timeToMs (time : jsstring) : option Z :=
  match search time_at time with
  | None => Some 0%Z
  | Some (h, m, s, ms) =>
      match parseInt h, parseInt m, parseInt s, parseInt ms with
      | Some h', Some m', Some s', Some ms' =>
          Some (h' * 3600000 + m' * 60000 + s' * 1000 + ms')%Z
      | _, _, _, _ => None
      end
  end.

(** [msToSrtTime] on an integer: [Math.floor(a / b)] is [a / b] and [a % b]
    is [Z.rem a b]. *)
Definition msToSrtTime (ms : Z) : jsstring :=
  let h := (ms / 3600000)%Z in
  let m := (Z.rem ms 3600000 / 60000)%Z in
  let s := (Z.rem ms 60000 / 1000)%Z in
  let msRemainder := Z.rem ms 1000 in
  padStart 2 48 (numToString h) ++ str ":" ++ padStart 2 48 (numToString m)
  ++ str ":" ++ padStart 2 48 (numToString s) ++ str ","
  ++ padStart 3 48 (numToString msRemainder).

Definition msToVttTime (ms : Z) : jsstring :=
  replace_first 44 46 (msToSrtTime ms).

(** ** providers/anthropic.ts and translator.ts: [translateBatch] *)

Record TranslationStats := mkStats {
  totalTokens : Z;
  inputTokens : Z;
  outputTokens : Z;
  cachedTokens : Z;
  apiCalls : Z;
  retries : Z;
}.

(** The counters of a new provider, and what [resetStats] restores. *)
Definition zero_stats : TranslationStats := mkStats 0 0 0 0 0 0.

(** [usage] of a response; the Anthropic interface declares the first two
    fields only. *)
Record Usage := mkUsage {
  input_tokens : option Z;
  output_tokens : option Z;
  cached_tokens : option Z;
  total_tokens : option Z;
}.

(** The parsed response body: the [text] of the content blocks, and the
    usage. *)
Record ApiResponse := mkApiResponse {
  resp_content : list jsstring;
  resp_usage : option Usage;
}.

(** What one call of [fetch] does: it throws, or it answers with a status
    and a body of which [response.text()] and [response.json()] give the two
    readings. *)
Inductive Fetched :=
| Rejected (message : jsstring)
| Responded (status : Z) (bodyText : Result jsstring) (bodyJson : Result ApiResponse).

(** [response.ok]: a status from 200 to 299. *)
Definition response_ok (status : Z) : bool :=
  ((200 <=? status) && (status <=? 299))%Z.

(** The closure [doRequest]; [http k] is the outcome of the request number
    [k], and [errorPrefix] is ["Anthropic API error "] in anthropic.ts and
    ["API error "] in translator.ts. *)
Definition doRequest (errorPrefix : jsstring) (http : nat -> Fetched) (k : nat)
  : Result ApiResponse :=
  match http k with
  | Rejected e => Err e
  | Responded status bodyText bodyJson =>
      if negb (response_ok status) then
        match bodyText with
        | Ok error => Err (errorPrefix ++ numToString status ++ str ": " ++ error)
        | Err e => Err e
        end
      else bodyJson
  end.

(** [x || 0] on a number that may be missing. *)
Definition or0 (x : option Z) : Z :=
  match x with
  | Some v => v
  | None => 0%Z
  end.

(** The token accounting of anthropic.ts and of translator.ts. *)
Definition anthropic_account (stats : TranslationStats) (u : Usage)
  : TranslationStats :=
  mkStats (totalTokens stats + (or0 (input_tokens u) + or0 (output_tokens u)))
          (inputTokens stats + or0 (input_tokens u))
          (outputTokens stats + or0 (output_tokens u))
          (cachedTokens stats) (apiCalls stats) (retries stats).

Definition kimi_account (stats : TranslationStats) (u : Usage) : TranslationStats :=
  mkStats (totalTokens stats + or0 (total_tokens u))
          (inputTokens stats + or0 (input_tokens u))
          (outputTokens stats + or0 (output_tokens u))
          (cachedTokens stats + or0 (cached_tokens u))
          (apiCalls stats) (retries stats).

(** The number of [onRetry] callbacks of a run: each one is [stats.retries++]. *)
Definition on_retries (trace : list Event) : Z :=
  Z.of_nat (length (List.filter
                      (fun e => match e with OnRetry _ _ => true | _ => false end)
                      trace)).

(** [data.content[0]?.text || ''] *)
Definition translated_text (data : ApiResponse) : jsstring :=
  match resp_content data with
  | t :: _ => t
  | [] => []
  end.

(** [translateBatch]: the two sources differ in the error prefix and in the
    token accounting only.  The result is what the promise settles to, the
    counters after the call, and the trace of the retry executor. *)
Definition translateBatch_run (errorPrefix : jsstring)
    (account : TranslationStats -> Usage -> TranslationStats)
    (http : nat -> Fetched) (maxRetries retryDelay : Z)
    (stats : TranslationStats) (subtitles : list SubtitleRef)
  : option (Result (list jsstring) * TranslationStats * list Event) :=
  match fetchWithRetry (doRequest errorPrefix http) maxRetries retryDelay with
  | None => None
  | Some (res, trace) =>
      let stats1 :=
        mkStats (totalTokens stats) (inputTokens stats) (outputTokens stats)
                (cachedTokens stats) (apiCalls stats)
                (retries stats + on_retries trace) in
      match res with
      | Err e => Some (Err e, stats1, trace)
      | Ok data =>
          let stats2 :=
            mkStats (totalTokens stats1) (inputTokens stats1) (outputTokens stats1)
                    (cachedTokens stats1) (apiCalls stats1 + 1) (retries stats1) in
          let stats3 :=
            match resp_usage data with
            | Some u => account stats2 u
            | None => stats2
            end in
          Some (Ok (parseTranslations (translated_text data) subtitles), stats3, trace)
      end
  end.

Definition anthropic_translateBatch :=
  translateBatch_run (str "Anthropic API error ") anthropic_account.

Definition kimi_translateBatch :=
  translateBatch_run (str "API error ") kimi_account.

(** [`[${i + 1}] ${line}`], the shape of a line of the prompt and of the
    response that the system prompt asks for. *)
Definition numbered_line (i : nat) (line : jsstring) : jsstring :=
  str "[" ++ numToString (Z.of_nat i + 1) ++ str "] " ++ line.

(** [userPrompt] of [translateBatch]. *)
Definition userPrompt (sourceLang targetLang : jsstring)
    (subtitles : list SubtitleRef) : jsstring :=
  let inputLines := map (fun s => text (obj s)) subtitles in
  str "Translate these " ++ numToString (Z.of_nat (length subtitles))
  ++ str " subtitle lines from " ++ sourceLang ++ str " to " ++ targetLang
  ++ str ":" ++ [NL; NL]
  ++ join [NL] (imap numbered_line inputLines)
  ++ [NL; NL] ++ str "Output exactly "
  ++ numToString (Z.of_nat (length subtitles)) ++ str " translated lines:".

(** ** providers/index.ts: [createProvider] and [listProviders] *)

(** The other columns of [PROVIDERS] that [createProvider] reads. *)
Definition displayName (p : ProviderName) : jsstring :=
  match p with
  | openai => str "OpenAI"
  | anthropic => str "Anthropic"
  | gemini => str "Google Gemini"
  | kimi => str "Kimi"
  | whisper => str "Whisper (Local)"
  end.

Definition defaultModel (p : ProviderName) : jsstring :=
  match p with
  | openai => str "gpt-4o-mini"
  | anthropic => str "claude-3-5-sonnet-20241022"
  | gemini => str "gemini-1.5-flash"
  | kimi => str "kimi-for-coding"
  | whisper => str "base"
  end.

Definition defaultBaseUrl (p : ProviderName) : option jsstring :=
  match p with
  | openai => Some (str "https://api.openai.com")
  | anthropic => Some (str "https://api.anthropic.com")
  | gemini => Some (str "https://generativelanguage.googleapis.com")
  | kimi => Some (str "https://api.kimi.com/coding")
  | whisper => None
  end.

Record CreateProviderOptions := mkOptions {
  o_provider : option ProviderName;
  o_apiKey : option jsstring;
  o_model : option jsstring;
  o_baseUrl : option jsstring;
  o_sourceLang : jsstring;
  o_targetLang : jsstring;
  o_maxRetries : option Z;
  o_retryDelay : option Z;
}.

Definition missing_key_error (p : ProviderName) : jsstring :=
  displayName p ++ str " requires an API key." ++ [NL]
  ++ str "Set " ++ envVar p ++ str " environment variable or use --api-key flag.".

(** [createProvider] up to the call of [createProviderByName]: the provider
    name and the configuration, or the error of the validation.
    [maxRetries] and [retryDelay] are copied from the options unchanged;
    they travel beside the [ProviderConfig] record here. *)
Definition createProvider_config (env : jsstring -> option jsstring)
    (options : CreateProviderOptions) : Result (ProviderName * ProviderConfig) :=
  let '(providerName, key) :=
    selectProvider env (o_provider options) (o_apiKey options) in
  let config :=
    {| apiKey := key;
       model := match nonempty (o_model options) with
                | Some m => Some m
                | None => Some (defaultModel providerName)
                end;
       baseUrl := match nonempty (o_baseUrl options) with
                  | Some u => Some u
                  | None => defaultBaseUrl providerName
                  end;
       sourceLang := o_sourceLang options;
       targetLang := o_targetLang options |} in
  if requiresApiKey providerName
     && match nonempty key with Some _ => false | None => true end
  then Err (missing_key_error providerName)
  else Ok (providerName, config).


(** A destructuring default applies to [undefined] only. *)
Definition or_default {A} (d : A) (x : option A) : A :=
  match x with
  | Some v => v
  | None => d
  end.


(** [Object.values(PROVIDERS)], in the order of the table. *)
Definition all_providers : list ProviderName :=
  [openai; anthropic; gemini; kimi; whisper].

(** [configured] of an entry of [listProviders]. *)
Definition configured (env : jsstring -> option jsstring) (p : ProviderName) : bool :=
  if requiresApiKey p
  then match nonempty (env (envVar p)) with Some _ => true | None => false end
  else true.

(** [listProviders]: the name and the [configured] flag of each entry; the
    other fields are the constants of [PROVIDERS]. *)
Definition listProviders (env : jsstring -> option jsstring)
  : list (ProviderName * bool) :=
  map (fun p => (p, configured env p)) all_providers.

(** ** batch.ts (src/unnamed/part_003): the jobs of a batch configuration *)

(** A job as the YAML file gives it and as [loadBatchConfig] returns it
    (the TypeScript type [Job] for both); [None] is a missing field. *)
Record Job := mkJob {
  j_input : option jsstring;
  j_from : option jsstring;
  j_to : option jsstring;
  j_output : option jsstring;
  j_format : option SubtitleFormat;
  j_stream : option Z;
  j_batchSize : option Z;
}.

Record JobDefaults := mkJobDefaults {
  d_from : option jsstring;
  d_to : option jsstring;
  d_format : option SubtitleFormat;
  d_batchSize : option Z;
}.

(** [config.defaults || {}] *)
Definition defaults_of (defaults : option JobDefaults) : JobDefaults :=
  or_default (mkJobDefaults None None None None) defaults.

(** The operand of a truthiness test on a number that may be missing. *)
Definition nonzero (x : option Z) : option Z :=
  match x with
  | Some 0%Z => None
  | _ => x
  end.

Definition missing_input_error (i : nat) : jsstring :=
  str "Job " ++ numToString (Z.of_nat i + 1) ++ str ": missing " ++ [34%N]
  ++ str "input" ++ [34%N] ++ str " field".

Definition missing_to_error (i : nat) : jsstring :=
  str "Job " ++ numToString (Z.of_nat i + 1) ++ str ": missing " ++ [34%N]
  ++ str "to" ++ [34%N] ++ str " field (target language)".

(** The callback of [config.jobs.map] in [loadBatchConfig]. *)
Definition normalizeJob (defaults : JobDefaults) (i : nat) (job : Job) : Result Job :=
  match nonempty (j_input job) with
  | None => Err (missing_input_error i)
  | Some _ =>
      match nonempty (j_to job), nonempty (d_to defaults) with
      | None, None => Err (missing_to_error i)
      | to1, to2 =>
          Ok {| j_input := j_input job;
                j_from := Some (or_default
                                  (or_default (str "English") (nonempty (d_from defaults)))
                                  (nonempty (j_from job)));
                j_to := Some (or_default (or_default (str "Hindi") to2) to1);
                j_output := j_output job;
                j_format := match j_format job with
                            | Some f => Some f
                            | None => d_format defaults
                            end;
                j_stream := Some (or_default 0%Z (j_stream job));
                j_batchSize := Some (or_default
                                       (or_default 500%Z (nonzero (d_batchSize defaults)))
                                       (nonzero (j_batchSize job))) |}
      end
  end.

(** [config.jobs.map(...)], entered at job number [i]: the first callback
    that throws ends the map. *)
Fixpoint normalizeJobs_from (defaults : JobDefaults) (i : nat) (jobs : list Job)
  : Result (list Job) :=
  match jobs with
  | [] => Ok []
  | job :: rest =>
      match normalizeJob defaults i job with
      | Err e => Err e
      | Ok normalized =>
          match normalizeJobs_from defaults (S i) rest with
          | Err e => Err e
          | Ok others => Ok (normalized :: others)
          end
      end
  end.

(** The part of [loadBatchConfig] after the file was read and parsed and
    [jobs] was found to be an array. *)
Definition normalizeJobs (defaults : option JobDefaults) (jobs : list Job)
  : Result (list Job) :=
  normalizeJobs_from (defaults_of defaults) 0 jobs.

(** ** cli.ts: the batch size of the translate command *)

(** [Math.min(500, Math.max(10, parseInt(options.batchSize, 10)))]; [None]
    is NaN, which both [Math.max] and [Math.min] pass on. *)
Definition cli_batchSize (option_batchSize : jsstring) : option Z :=
  match parseInt option_batchSize with
  | Some n => Some (Z.min 500 (Z.max 10 n))
  | None => None
  end.

(** * Vocabulary of the properties

    Predicates, expected values and sample data that the lemmas and the
    theorems below are written with. *)

(** Total text length of a batch, as [currentChars] counts it. *)
Definition total_chars (b : list SubtitleRef) : Z :=
  foldr (fun s acc => (jslength (text (obj s)) + acc)%Z) 0%Z b.

(** A batch within the limits: at most [batchSize] captions, and at most
    [maxChars] characters unless it is one caption that is itself longer. *)
Definition within_limits (batchSize maxChars : Z) (b : list SubtitleRef) : Prop :=
  (Z.of_nat (length b) ≤ batchSize)%Z ∧
  ((total_chars b ≤ maxChars)%Z ∨
   ∃ s, b = [s] ∧ (maxChars < jslength (text (obj s)))%Z).

(** [{...batch[j], text: translations[j]}] for every [j] of a batch. *)
Definition merged_batch (translations : list jsstring) (batch : list SubtitleRef)
  : list Slot :=
  imap (fun j b => Elem (mkMerged (index (obj b)) (startTime (obj b))
                                  (endTime (obj b)) (translations !! j))) batch.

(** Where batch number [k] starts in the concatenation of the batches. *)
Definition batch_start (batches : list (list SubtitleRef)) (k : nat) : nat :=
  length (concat (take k batches)).

(** The message of a failed call. *)
Definition error_of {T} (r : Result T) : jsstring :=
  match r with
  | Err e => e
  | Ok _ => []
  end.

(** A call that fails with a message [isRetryable] accepts. *)
Definition fails_retryably {T} (r : Result T) : Prop :=
  ∃ e, r = Err e ∧ isRetryable e = true.

(** What the executor does around the failed call number [k] (from 0), that
    is attempt [k + 1]: the call, the [onRetry] callback, the sleep. *)
Definition retried {T} (fn : nat -> Result T) (baseDelay : Z) (k : nat) : list Event :=
  [Call; OnRetry (Z.of_nat k + 1) (error_of (fn k));
   Sleep (baseDelay * 2 ^ Z.of_nat k)].

(** Position [i] is filled from the response when the map built from the
    response lines holds a non-empty string for it. *)
Definition filled_with (lineMap : gmap Z jsstring) (i : nat) (t : jsstring) : Prop :=
  lineMap !! Z.of_nat i = Some t ∧ t ≠ [].

(** The lowest position below [n] that the map does not fill. *)
Fixpoint lowest_unfilled_from (lineMap : gmap Z jsstring) (i fuel : nat) : option nat :=
  match fuel with
  | 0 => None
  | S fuel' =>
      match lineMap !! Z.of_nat i with
      | None => Some i
      | Some _ => lowest_unfilled_from lineMap (S i) fuel'
      end
  end.
Definition lowest_unfilled (lineMap : gmap Z jsstring) (n : nat) : option nat :=
  lowest_unfilled_from lineMap 0 n.

(** The positions filled so far are exactly [0 .. size - 1]. *)
Definition filled_prefix (lineMap : gmap Z jsstring) : Prop :=
  ∀ k : Z, is_Some (lineMap !! k) ↔ (0 ≤ k < Z.of_nat (size lineMap))%Z.

(** [s] has exactly one character per predicate of [ps], each satisfying
    its predicate. *)
Fixpoint shape (ps : list (N -> bool)) (s : jsstring) : bool :=
  match ps, s with
  | [], [] => true
  | p :: ps', c :: s' => p c && shape ps' s'
  | _, _ => false
  end.

Definition is_char (a : N) : N -> bool := fun c => (c =? a)%N.

(** [HH:MM:SS,mmm] *)
Definition is_norm_time (t : jsstring) : bool :=
  shape [isDigit; isDigit; is_char 58; isDigit; isDigit; is_char 58;
         isDigit; isDigit; is_char 44; isDigit; isDigit; isDigit] t.



(** A caption of [parseSRT] comes from a block whose first non-blank line
    parses to its index, and its times are matched on the second line. *)
Definition from_srt_block (s : Subtitle) (block : jsstring) : Prop :=
  ∃ l0 l1 rest,
    lines_of block = l0 :: l1 :: rest ∧ parseInt l0 = Some (index s)
    ∧ text s = join [NL] rest ∧ rest ≠ [].




(** No carriage return; no line feed. *)
Definition nocr (s : jsstring) : bool := forallb (fun c => negb (c =? CR)%N) s.
Definition nonl (s : jsstring) : bool := forallb (fun c => negb (c =? NL)%N) s.

(** A text the three serializers carry through: no carriage return, and
    every line has a character that is not white space (so the text is not
    empty and has no blank line). *)
Definition text_ok (t : jsstring) : bool :=
  nocr t && forallb (fun line => truthy (trim line)) (split_char NL t).

(** A caption the round trip is stated for. *)
Definition caption_ok (s : Subtitle) : bool :=
  is_norm_time (startTime s) && is_norm_time (endTime s) && text_ok (text s).

(** A time at the precision of the format: SubRip and WebVTT keep the
    milliseconds, AdvancedSubStation keeps the centiseconds and writes 0 for
    the last digit. *)
Definition native (format : SubtitleFormat) (t : jsstring) : jsstring :=
  match format with
  | ass => take 11 t ++ [48%N]
  | _ => t
  end.

(** [s] is not empty, has no two line feeds in a row and does not end with
    a line feed: [split(/\n\n+/)] leaves it whole. *)
Fixpoint no_blank_line (s : jsstring) : bool :=
  match s with
  | c :: s' =>
      match s' with
      | d :: _ => negb ((c =? NL)%N && (d =? NL)%N) && no_blank_line s'
      | [] => negb (c =? NL)%N
      end
  | [] => false
  end.

(** The blocks of a serialized body: every cue, the last one with the final
    line feed. *)
Fixpoint add_nl_last (cues : list jsstring) : list jsstring :=
  match cues with
  | [] => []
  | [c] => [c ++ [NL]]
  | c :: cs => c :: add_nl_last cs
  end.

(** The first character is not white space. *)
Definition starts_nonblank (c : jsstring) : Prop :=
  match c with
  | x :: _ => isSpace x = false
  | [] => False
  end.

(** The characters of a time line: digits, separators, space and arrow. *)
Definition timechar (c : N) : bool :=
  isDigit c || (c =? 58)%N || (c =? 44)%N || (c =? 46)%N || (c =? 32)%N
  || (c =? 45)%N || (c =? 62)%N.

(** No comma. *)
Definition nocomma (s : jsstring) : bool := forallb (fun c => negb (c =? 44)%N) s.

(** A time as [toASS] writes it: hour digits, then [:MM:SS.cc]. *)
Definition ass_written (h : jsstring) (c d e f g i : N) : jsstring :=
  h ++ [58; c; d; 58; e; f; 46; g; i]%N.

(** The column names [parseASS] holds after the header of [toASS]. *)
Definition ass_fields : list jsstring :=
  [ str "layer"; str "start"; str "end"; str "style"; str "name";
    str "marginl"; str "marginr"; str "marginv"; str "effect"; str "text" ].

(** The text of a caption after [toASS] and [parseASS]. *)
Definition ass_text (t : jsstring) : jsstring :=
  strip_tags 123 125 false (replace_slashN (trim (replace_nl_slashN t))).

(** Five captions, and the array of their objects. *)
Definition five_values : list Subtitle :=
  [ mkSubtitle 1 (str "00:00:01,000") (str "00:00:02,000") (str "one");
    mkSubtitle 2 (str "00:00:03,000") (str "00:00:04,000") (str "two");
    mkSubtitle 3 (str "00:00:05,000") (str "00:00:06,000") (str "three");
    mkSubtitle 4 (str "00:00:07,000") (str "00:00:08,000") (str "four");
    mkSubtitle 5 (str "00:00:09,000") (str "00:00:10,000") (str "five") ].

Definition five_captions : list SubtitleRef := alloc five_values.

(** A provider that answers batch [k] with the strings [k.0], [k.1], ... *)
Definition numbering_provider (k : nat) (batch : list SubtitleRef)
  : Result (list jsstring) :=
  Ok (imap (fun j _ => numToString (Z.of_nat k) ++ str "." ++ numToString (Z.of_nat j))
           batch).

(** Their batches of at most two captions, and the merge of the answers. *)
Definition five_batches : list (list SubtitleRef) :=
  batchSubtitles five_captions 2 default_maxChars.

Definition five_merged : list Slot :=
  match merge numbering_provider five_captions five_batches with
  | Ok out => out
  | Err _ => []
  end.

(** An endpoint that is always overloaded. *)
Definition always_503 (k : nat) : Result unit := Err (str "API error 503: overloaded").

(** The SubRip text of the scenario of the specification. *)
Definition two_blocks_srt : jsstring :=
  str "1" ++ [NL] ++ str "00:00:01,000 --> 00:00:02,000" ++ [NL] ++ str "Hello"
  ++ [NL; NL]
  ++ str "2" ++ [NL] ++ str "00:00:03,000 --> 00:00:04,000" ++ [NL] ++ str "World"
  ++ [NL].


(** The format a file extension stands for. *)
Definition format_of_ext (ext : jsstring) : option SubtitleFormat :=
  if bool_decide (ext = str "vtt") then Some vtt
  else if bool_decide (ext = str "ass") || bool_decide (ext = str "ssa") then Some ass
  else if bool_decide (ext = str "srt") then Some srt
  else None.

(** The character [a] does not occur in [s]. *)
Definition lacks (a : N) (s : jsstring) : bool :=
  forallb (fun c => negb (c =? a)%N) s.

(** A time [HH:MM:SS,mmm] whose minutes and seconds are below 60. *)
Definition isTens (c : N) : bool := ((48 <=? c) && (c <=? 53))%N.
Definition is_clock_time (t : jsstring) : bool :=
  shape [isDigit; isDigit; is_char 58; isTens; isDigit; is_char 58;
         isTens; isDigit; is_char 44; isDigit; isDigit; isDigit] t.

(** [n] written with [k] padded digits reads back as [n]. *)
Definition pad_reads_back (k : nat) (n : nat) : bool :=
  let s := padStart k 48 (numToString (Z.of_nat n)) in
  (length s =? k) && forallb isDigit s && (digitsVal s =? Z.of_nat n)%Z.

(** First and last character are no white space. *)
Definition tight (s : jsstring) : bool :=
  match s with c :: _ => negb (isSpace c) | [] => false end
  && match last s with Some d => negb (isSpace d) | None => false end.

(** A text that a format carries through unchanged: any text for SubRip; a
    text without [<] for WebVTT; for AdvancedSubStation a text without [{]
    and backslash that neither starts nor ends with white space. *)
Definition plain_text (format : SubtitleFormat) (t : jsstring) : bool :=
  match format with
  | srt => true
  | vtt => lacks 60 t
  | ass => lacks 123 t && lacks 92 t && tight t
  end.

(** The captions numbered from 1. *)
Definition renumber (subtitles : list Subtitle) : list Subtitle :=
  imap (fun i s => mkSubtitle (Z.of_nat i + 1) (startTime s) (endTime s) (text s))
       subtitles.

(** The test that closes [currentBatch] before [subtitle] is added, for a
    batch that is not empty. *)
Definition closed_by (batchSize maxChars : Z) (b : list SubtitleRef)
    (subtitle : SubtitleRef) : Prop :=
  (batchSize ≤ Z.of_nat (length b))%Z
  ∨ (maxChars < total_chars b + jslength (text (obj subtitle)))%Z.

(** No batch is empty, and each batch was closed by the first caption of
    the next one. *)
Fixpoint greedy (batchSize maxChars : Z) (batches : list (list SubtitleRef)) : Prop :=
  match batches with
  | [] => True
  | b :: rest =>
      b ≠ []
      ∧ match rest with
        | [] => True
        | [] :: _ => False
        | (s :: _) :: _ => closed_by batchSize maxChars b s
        end
      ∧ greedy batchSize maxChars rest
  end.

(** The HTTP statuses whose error message the executor retries. *)
Definition retried_status (status : Z) : bool :=
  ((status =? 429) || (status =? 500) || (status =? 502) || (status =? 503))%Z.

(** The counters add up: every counted token is an input or an output
    token. *)
Definition tokens_add_up (stats : TranslationStats) : Prop :=
  totalTokens stats = (inputTokens stats + outputTokens stats)%Z.

(** A translation on one line: it neither starts nor ends with white space
    (so it is not empty) and has no line terminator. *)
Definition one_line (t : jsstring) : bool :=
  tight t && forallb (fun c => negb (isLineTerminator c)) t.

(** The lines of a response that are not blank, trimmed. *)
Definition clean_lines (response : jsstring) : list jsstring :=
  List.filter truthy (map trim (split_char NL response)).

(** A job that [loadBatchConfig] accepts: it has an input, and it or the
    defaults have a target language. *)
Definition valid_job (defaults : JobDefaults) (job : Job) : bool :=
  match nonempty (j_input job) with
  | None => false
  | Some _ =>
      match nonempty (j_to job), nonempty (d_to defaults) with
      | None, None => false
      | _, _ => true
      end
  end.

(** The message for a job that is not accepted: a missing input is
    reported before a missing target language. *)
Definition job_error (i : nat) (job : Job) : jsstring :=
  match nonempty (j_input job) with
  | None => missing_input_error i
  | Some _ => missing_to_error i
  end.

(** Sample data of the worked instances below. *)

(** An operation that fails twice with a retryable error, then succeeds. *)
Definition flaky (k : nat) : Result nat :=
  if k <? 2 then Err (str "API error 503: overloaded") else Ok k.

(** An endpoint that answers every request with status 503; one that
    answers with a translation and its usage; one that answers with an
    empty content. *)
Definition overloaded_http (k : nat) : Fetched :=
  Responded 503 (Ok (str "overloaded")) (Err (str "Unexpected token o in JSON")).

Definition hola_http (k : nat) : Fetched :=
  Responded 200 (Ok [])
    (Ok (mkApiResponse [str "[1] Hola"]
           (Some (mkUsage (Some 10%Z) (Some 5%Z) None None)))).

Definition silent_http (k : nat) : Fetched :=
  Responded 200 (Ok []) (Ok (mkApiResponse [] None)).

(** A provider whose second call is refused. *)
Definition refused_second (k : nat) (batch : list SubtitleRef)
  : Result (list jsstring) :=
  if k =? 1 then Err (str "API error 401: unauthorized")
  else numbering_provider k batch.

(** An environment without variables, and one with a Gemini key only. *)
Definition no_env (v : jsstring) : option jsstring := None.

Definition gemini_env (v : jsstring) : option jsstring :=
  if bool_decide (v = str "GEMINI_API_KEY") then Some (str "AIzaXYZ") else None.

(** The options of the translate command when only the languages are
    given. *)
Definition bare_options : CreateProviderOptions :=
  mkOptions None None None None (str "English") (str "Hindi") None None.

(** A caption whose text has a comma and two lines. *)
Definition comma_caption : Subtitle :=
  mkSubtitle 1 (str "00:00:01,000") (str "00:00:02,500")
    (str "Hello, world" ++ [NL] ++ str "again").



(** * Properties *)

(** ** Batcher *)

Lemma total_chars_app b1 b2 :
  total_chars (b1 ++ b2) = (total_chars b1 + total_chars b2)%Z.
Proof.
  induction b1 as [|s b1 IH]; simpl; [lia|]. rewrite IH. lia.
Qed.

Lemma batch_loop_concat batchSize maxChars subtitles :
  ∀ batches currentBatch currentChars,
    concat (batch_loop batchSize maxChars subtitles batches currentBatch currentChars)
    = concat batches ++ currentBatch ++ subtitles.
Proof.
  induction subtitles as [|s rest IH]; intros batches cur chars; simpl.
  - destruct cur as [|c cur]; simpl.
    + by rewrite app_nil_r.
    + rewrite concat_app. simpl. by rewrite !app_nil_r.
  - case_match; rewrite IH.
    + rewrite concat_app. simpl. by rewrite app_nil_r, <- !app_assoc.
    + by rewrite <- !app_assoc.
Qed.

Lemma batch_loop_limits batchSize maxChars subtitles :
  (1 ≤ batchSize)%Z →
  ∀ batches currentBatch currentChars,
    Forall (within_limits batchSize maxChars) batches →
    currentChars = total_chars currentBatch →
    (currentBatch = [] ∨ within_limits batchSize maxChars currentBatch) →
    Forall (within_limits batchSize maxChars)
           (batch_loop batchSize maxChars subtitles batches currentBatch currentChars).
Proof.
  intros Hsize.
  induction subtitles as [|s rest IH]; intros batches cur chars Hb Hc Hcur; simpl.
  - destruct cur as [|c cur]; simpl; [done|].
    apply Forall_app. split; [done|].
    destruct Hcur as [?|?]; [done|]. by apply Forall_singleton.
  - destruct (_ || _) eqn:Hclose.
    + apply IH.
      * apply Forall_app. split; [done|].
        destruct Hcur as [->|?].
        -- simpl in Hclose. rewrite andb_false_r, orb_false_r in Hclose.
           apply Z.leb_le in Hclose. lia.
        -- by apply Forall_singleton.
      * simpl. lia.
      * right. split; [simpl; lia|].
        destruct (Z.le_gt_cases (jslength (text (obj s))) maxChars).
        -- left. simpl. lia.
        -- right. exists s. split; [done|lia].
    + apply orb_false_iff in Hclose as [Hlen Hchars].
      apply Z.leb_gt in Hlen.
      apply IH; [done| |].
      * rewrite total_chars_app. simpl. lia.
      * right. split.
        -- rewrite length_app. simpl. lia.
        -- destruct cur as [|c cur].
           ++ simpl in *. subst chars.
              destruct (Z.le_gt_cases (jslength (text (obj s))) maxChars).
              ** left. lia.
              ** right. exists s. split; [done|lia].
           ++ left. rewrite total_chars_app. simpl in *.
              rewrite andb_true_r in Hchars. apply Z.ltb_ge in Hchars. lia.
Qed.

(** C2.  For every caption list, every [batchSize ≥ 1] and every [maxChars],
    the batches of [batchSubtitles] concatenate, in order, to the input
    list; no batch holds more than [batchSize] captions; and no batch holds
    more than [maxChars] characters of text unless it is a single caption
    whose own text is longer than [maxChars]. *)
Theorem batchSubtitles_partition subtitles batchSize maxChars :
  (1 ≤ batchSize)%Z →
  concat (batchSubtitles subtitles batchSize maxChars) = subtitles ∧
  Forall (fun b => (Z.of_nat (length b) ≤ batchSize)%Z)
         (batchSubtitles subtitles batchSize maxChars) ∧
  Forall (fun b => (total_chars b ≤ maxChars)%Z ∨
                   ∃ s, b = [s] ∧ (maxChars < jslength (text (obj s)))%Z)
         (batchSubtitles subtitles batchSize maxChars).
Proof.
  intros Hsize. unfold batchSubtitles. split.
  - by rewrite batch_loop_concat.
  - assert (Forall (within_limits batchSize maxChars)
              (batch_loop batchSize maxChars subtitles [] [] 0%Z)) as H.
    { apply batch_loop_limits; auto. }
    split; eapply Forall_impl; try exact H; by intros b [? ?].
Qed.

(** ** Merge loop *)

Lemma indexOf_ref_from_found i pre r post :
  NoDup (map loc (pre ++ r :: post)) →
  indexOf_ref_from i (pre ++ r :: post) (Some r) = (i + Z.of_nat (length pre))%Z.
Proof.
  revert i. induction pre as [|y pre IH]; intros i Hnd; simpl.
  - rewrite Nat.eqb_refl. lia.
  - simpl in Hnd. apply NoDup_cons in Hnd as [Hy Hnd].
    destruct (Nat.eqb_spec (loc y) (loc r)) as [Heq|_].
    + exfalso. apply Hy. rewrite Heq, map_app. simpl.
      apply elem_of_app. right. left.
    + rewrite IH by done. lia.
Qed.

Lemma array_set_middle (A : list Slot) x C (v : Slot) :
  array_set (A ++ x :: C) (Z.of_nat (length A)) v = A ++ v :: C.
Proof.
  unfold array_set.
  destruct (Z.ltb_spec (Z.of_nat (length A)) 0); [lia|].
  rewrite length_app. simpl.
  destruct (Z.ltb_spec (Z.of_nat (length A)) (Z.of_nat (length A + S (length C)))); [|lia].
  rewrite Nat2Z.id.
  rewrite insert_app_r_alt by lia. by rewrite Nat.sub_diag.
Qed.

Lemma write_batch_in_range p translations todo :
  ∀ j (A B C : list Slot),
    length A = p + j → length B = length todo →
    write_batch (Z.of_nat p) translations j todo (A ++ B ++ C)
    = A ++ imap (fun k b => Elem (mkMerged (index (obj b)) (startTime (obj b))
                                           (endTime (obj b)) (translations !! (j + k))))
                todo ++ C.
Proof.
  induction todo as [|b rest IH]; intros j A B C HA HB; simpl.
  - destruct B; [done|discriminate].
  - destruct B as [|x B]; [discriminate|]. simpl in HB.
    replace (Z.of_nat p + Z.of_nat j)%Z with (Z.of_nat (length A)) by lia.
    simpl. rewrite array_set_middle.
    replace (A ++ Elem
               {| m_index := index (obj b); m_startTime := startTime (obj b);
                  m_endTime := endTime (obj b); m_text := translations !! j |}
               :: B ++ C)
      with ((A ++ [Elem
               {| m_index := index (obj b); m_startTime := startTime (obj b);
                  m_endTime := endTime (obj b); m_text := translations !! j |}])
              ++ B ++ C) by (by rewrite <- app_assoc).
    rewrite IH; [|rewrite length_app; simpl; lia|lia].
    rewrite <- app_assoc. simpl. rewrite Nat.add_0_r.
    do 3 f_equal. apply imap_ext. intros k y _. simpl.
    do 3 f_equal. lia.
Qed.

Section MergeProofs.
Variable translate : nat -> list SubtitleRef -> Result (list jsstring).
Variable subtitles : list SubtitleRef.
Hypothesis distinct : NoDup (map loc subtitles).

Lemma merge_loop_spec batches :
  ∀ i pre (A : list Slot) out,
    subtitles = pre ++ concat batches →
    length A = length pre →
    merge_loop translate subtitles i batches (A ++ map slot_of (concat batches)) = Ok out →
    ∃ trs, length trs = length batches ∧
           (∀ k batch, batches !! k = Some batch →
              ∃ tr, trs !! k = Some tr ∧ translate (i + k) batch = Ok tr) ∧
           out = A ++ concat (zip_with merged_batch trs batches).
Proof.
  induction batches as [|batch rest IH]; intros i pre A out Hsub HA Hrun;
    simpl in *.
  - exists []. repeat split; [by intros k b Hk|]. by injection Hrun as <-.
  - destruct (translate i batch) as [tr|e] eqn:Htr; [|discriminate].
    assert (write_batch (indexOf_ref subtitles (batch !! 0)) tr 0 batch
              (A ++ map slot_of (batch ++ concat rest))
            = (A ++ merged_batch tr batch) ++ map slot_of (concat rest)) as Hw.
    { rewrite map_app. destruct batch as [|r batch']; [by rewrite app_nil_r|].
      assert (indexOf_ref subtitles ((r :: batch') !! 0) = Z.of_nat (length pre))
        as ->.
      { unfold indexOf_ref. change ((r :: batch') !! 0) with (Some r).
        pose proof distinct as Hd. rewrite Hsub in Hd. rewrite Hsub at 1.
        change (pre ++ (r :: batch') ++ concat rest)
          with (pre ++ r :: (batch' ++ concat rest)) in *.
        rewrite indexOf_ref_from_found; [lia|done]. }
      rewrite (write_batch_in_range (length pre) tr (r :: batch') 0 A
                 (map slot_of (r :: batch')) (map slot_of (concat rest)));
        [|lia|by rewrite length_map].
      by rewrite <- app_assoc. }
    rewrite Hw in Hrun.
    apply (IH (S i) (pre ++ batch)) in Hrun as (trs & Hlen & Hcalls & ->).
    + exists (tr :: trs). split; [simpl; lia|]. split.
      * intros [|k] b Hk; simpl in *.
        -- injection Hk as <-. exists tr. by rewrite Nat.add_0_r.
        -- destruct (Hcalls k b Hk) as (t & ? & ?). exists t.
           by replace (i + S k) with (S i + k) by lia.
      * by rewrite <- app_assoc.
    + by rewrite <- app_assoc.
    + rewrite !length_app. unfold merged_batch. rewrite length_imap. lia.
Qed.

Lemma merge_loop_total batches :
  ∀ i acc,
    (∀ k batch, batches !! k = Some batch → ∃ tr, translate (i + k) batch = Ok tr) →
    ∃ out, merge_loop translate subtitles i batches acc = Ok out.
Proof.
  induction batches as [|batch rest IH]; intros i acc Hcalls; simpl.
  - by eexists.
  - destruct (Hcalls 0 batch eq_refl) as (tr & Htr).
    rewrite Nat.add_0_r in Htr. rewrite Htr. apply IH.
    intros k b Hk. replace (S i + k) with (i + S k) by lia. by apply Hcalls.
Qed.
End MergeProofs.

Lemma lookup_merged_batches batches :
  ∀ trs k batch tr j,
    length trs = length batches →
    batches !! k = Some batch → trs !! k = Some tr → j < length batch →
    concat (zip_with merged_batch trs batches) !! (batch_start batches k + j)
    = merged_batch tr batch !! j.
Proof.
  unfold batch_start.
  induction batches as [|b rest IH]; intros trs k batch tr j Hlen Hk Ht Hj.
  - done.
  - destruct trs as [|t trs]; [discriminate|]. destruct k as [|k]; simpl in *.
    + injection Hk as ->. injection Ht as ->.
      rewrite lookup_app_l; [done|]. unfold merged_batch. by rewrite length_imap.
    + rewrite length_app, <- Nat.add_assoc.
      rewrite lookup_app_r; unfold merged_batch; rewrite length_imap; [|lia].
      replace (length b + (length (concat (take k rest)) + j) - length b)
        with (length (concat (take k rest)) + j) by lia.
      apply IH; auto.
Qed.

Lemma lookup_concat_batches (batches : list (list SubtitleRef)) :
  ∀ i r, concat batches !! i = Some r →
         ∃ k batch j, batches !! k = Some batch ∧ batch !! j = Some r ∧
                      i = batch_start batches k + j.
Proof.
  unfold batch_start.
  induction batches as [|b rest IH]; intros i r Hi; simpl in *; [done|].
  destruct (decide (i < length b)) as [Hlt|Hge].
  - rewrite lookup_app_l in Hi by done. exists 0, b, i. by simpl.
  - rewrite lookup_app_r in Hi by lia.
    destruct (IH _ _ Hi) as (k & batch & j & Hk & Hj & Heq).
    exists (S k), batch, j. simpl. rewrite length_app. repeat split; auto. lia.
Qed.

Lemma lookup_batch_in_concat (batches : list (list SubtitleRef)) :
  ∀ k batch j r, batches !! k = Some batch → batch !! j = Some r →
                 concat batches !! (batch_start batches k + j) = Some r.
Proof.
  unfold batch_start.
  induction batches as [|b rest IH]; intros k batch j r Hk Hj; [done|].
  destruct k as [|k]; simpl in *.
  - injection Hk as ->. rewrite lookup_app_l; [done|]. by eapply lookup_lt_Some.
  - rewrite length_app, <- Nat.add_assoc, lookup_app_r by lia.
    replace (length b + (length (concat (take k rest)) + j) - length b)
      with (length (concat (take k rest)) + j) by lia.
    by eapply IH.
Qed.

(** The merge loop on any array of pairwise distinct caption objects. *)
Lemma merge_distinct_objects
    (translate : nat -> list SubtitleRef -> Result (list jsstring))
    (subtitles : list SubtitleRef) (batches : list (list SubtitleRef))
    (out : list Slot) :
  NoDup (map loc subtitles) →
  concat batches = subtitles →
  merge translate subtitles batches = Ok out →
  length out = length subtitles ∧
  (∀ i r, subtitles !! i = Some r →
     ∃ m, out !! i = Some (Elem m) ∧ m_index m = index (obj r) ∧
          m_startTime m = startTime (obj r) ∧ m_endTime m = endTime (obj r)) ∧
  (∀ k batch j r, batches !! k = Some batch → batch !! j = Some r →
     subtitles !! (batch_start batches k + j) = Some r ∧
     ∃ translations,
       translate k batch = Ok translations ∧
       out !! (batch_start batches k + j)
       = Some (Elem (mkMerged (index (obj r)) (startTime (obj r))
                              (endTime (obj r)) (translations !! j)))).
Proof.
  intros Hnd Hcat Hrun. unfold merge in Hrun.
  rewrite <- Hcat in Hrun at 2.
  apply (merge_loop_spec translate subtitles Hnd batches 0 [] [] out) in Hrun
    as (trs & Hlen & Hcalls & Hout); [|by rewrite Hcat|done].
  simpl in Hout.
  assert (∀ k batch j r, batches !! k = Some batch → batch !! j = Some r →
     ∃ translations,
       translate k batch = Ok translations ∧
       out !! (batch_start batches k + j)
       = Some (Elem (mkMerged (index (obj r)) (startTime (obj r))
                              (endTime (obj r)) (translations !! j)))) as Hpos.
  { intros k batch j r Hk Hj.
    destruct (Hcalls k batch Hk) as (tr & Htr & Hcall).
    exists tr. split; [done|]. rewrite Hout.
    rewrite (lookup_merged_batches batches trs k batch tr j); auto.
    - unfold merged_batch. rewrite list_lookup_imap, Hj. done.
    - by eapply lookup_lt_Some. }
  split; [|split].
  - rewrite Hout, <- Hcat, !length_concat. f_equal.
    clear -Hlen. revert trs Hlen.
    induction batches as [|b rest IH]; intros [|t trs] Hlen; try done.
    simpl in *. unfold merged_batch at 1. rewrite length_imap. f_equal.
    apply IH. lia.
  - intros i r Hi. rewrite <- Hcat in Hi.
    destruct (lookup_concat_batches batches i r Hi) as (k & batch & j & Hk & Hj & ->).
    destruct (Hpos k batch j r Hk Hj) as (tr & _ & Ho).
    eexists. split; [exact Ho|]. done.
  - intros k batch j r Hk Hj. split; [|by apply Hpos].
    rewrite <- Hcat. by eapply lookup_batch_in_concat.
Qed.

Lemma alloc_distinct captions : NoDup (map loc (alloc captions)).
Proof.
  assert (map loc (alloc captions) = seq 0 (length captions)) as ->.
  { unfold alloc. apply list_eq. intros i.
    rewrite list_lookup_fmap, list_lookup_imap.
    destruct (captions !! i) as [c|] eqn:Hc; simpl.
    - rewrite lookup_seq_lt; [done|]. by eapply lookup_lt_Some.
    - rewrite lookup_seq_ge; [done|]. by apply lookup_ge_None. }
  apply NoDup_seq.
Qed.

(** C1.  Let [subtitles] be the array of caption objects of any caption
    sequence and [batches] a list of batches that concatenate to it (as
    [batchSubtitles] returns).  When the merge loop completes, the output
    has the length of the input; the caption at each position keeps the
    index, [startTime] and [endTime] of the input caption at that position;
    and for the caption at offset [j] of batch [k], the output at that
    caption's position in the full sequence carries [translations[j]] of
    the call made for batch [k]. *)
Theorem merge_preserves_positions
    (translate : nat -> list SubtitleRef -> Result (list jsstring))
    (captions : list Subtitle) (batches : list (list SubtitleRef))
    (out : list Slot) :
  concat batches = alloc captions →
  merge translate (alloc captions) batches = Ok out →
  length out = length captions ∧
  (∀ i c, captions !! i = Some c →
     ∃ m, out !! i = Some (Elem m) ∧ m_index m = index c ∧
          m_startTime m = startTime c ∧ m_endTime m = endTime c) ∧
  (∀ k batch j r, batches !! k = Some batch → batch !! j = Some r →
     alloc captions !! (batch_start batches k + j) = Some r ∧
     ∃ translations,
       translate k batch = Ok translations ∧
       out !! (batch_start batches k + j)
       = Some (Elem (mkMerged (index (obj r)) (startTime (obj r))
                              (endTime (obj r)) (translations !! j)))).
Proof.
  intros Hcat Hrun.
  destruct (merge_distinct_objects translate (alloc captions) batches out
              (alloc_distinct captions) Hcat Hrun) as (Hlen & Htimes & Hpos).
  split; [|split; [|exact Hpos]].
  - rewrite Hlen. unfold alloc. apply length_imap.
  - intros i c Hc.
    destruct (Htimes i (mkRef i c)) as (m & Hm & Hi & Hs & He).
    + unfold alloc. by rewrite list_lookup_imap, Hc.
    + by exists m.
Qed.

(** ** Retry executor *)

Lemma attempts_app t1 t2 : attempts (t1 ++ t2) = attempts t1 + attempts t2.
Proof. unfold attempts. by rewrite List.filter_app, length_app. Qed.

Lemma sleeps_app t1 t2 : sleeps (t1 ++ t2) = sleeps t1 ++ sleeps t2.
Proof. unfold sleeps. apply omap_app. Qed.

Lemma attempts_retried {T} (fn : nat -> Result T) baseDelay ks :
  attempts (flat_map (retried fn baseDelay) ks) = length ks.
Proof.
  induction ks as [|k ks IH]; [done|].
  simpl. unfold attempts in *. simpl. by rewrite IH.
Qed.

Lemma sleeps_retried {T} (fn : nat -> Result T) baseDelay ks :
  sleeps (flat_map (retried fn baseDelay) ks)
  = map (fun k => (baseDelay * 2 ^ Z.of_nat k)%Z) ks.
Proof.
  induction ks as [|k ks IH]; [done|].
  simpl. unfold sleeps in *. simpl. by rewrite IH.
Qed.

Section RetryProofs.
Context {T : Type}.
Variable fn : nat -> Result T.
Variables maxRetries baseDelay : Z.

(** The loop from call number [calls] on: it makes [n] failed, retried
    calls and stops at call [calls + n], whose outcome it returns. *)
Lemma retry_loop_run fuel :
  ∀ calls lastError trace,
    (Z.of_nat fuel = maxRetries + 1 - Z.of_nat calls)%Z →
    1 ≤ fuel →
    ∃ n, n < fuel ∧
         (∀ k, calls ≤ k < calls + n → fails_retryably (fn k)) ∧
         (S n = fuel ∨ ¬ fails_retryably (fn (calls + n))) ∧
         retry_loop fn maxRetries baseDelay fuel (Z.of_nat calls + 1) calls
                    lastError trace
         = Some (fn (calls + n),
                 trace ++ flat_map (retried fn baseDelay) (seq calls n) ++ [Call]).
Proof.
  induction fuel as [|fuel IH]; intros calls lastError trace Hfuel Hpos; [lia|].
  simpl.
  destruct (Z.leb_spec (Z.of_nat calls + 1) (maxRetries + 1)); [|lia]. simpl.
  destruct (fn calls) as [v|e] eqn:Hcall.
  - exists 0. rewrite Nat.add_0_r, Hcall. simpl.
    split; [lia|]. split; [intros; lia|]. split; [|done].
    right. intros (e & ? & _). congruence.
  - destruct (Z.gtb_spec (Z.of_nat calls + 1) maxRetries) as [Hlast|Hmore].
    + exists 0. rewrite Nat.add_0_r, Hcall. simpl.
    split; [lia|]. split; [intros; lia|]. split; [|done].
      left. lia.
    + destruct (isRetryable e) eqn:Hre; simpl.
      * destruct (IH (S calls) e
                    (trace ++ [Call; OnRetry (Z.of_nat calls + 1) e;
                               Sleep (baseDelay * 2 ^ (Z.of_nat calls + 1 - 1))]))
          as (n & Hn & Hfail & Hstop & Hrun); [lia|lia|].
        exists (S n). split; [lia|]. split; [|split].
        -- intros k Hk. destruct (decide (k = calls)) as [->|Hne].
           ++ exists e. done.
           ++ apply Hfail. lia.
        -- destruct Hstop as [?|Hstop]; [left; lia|right].
           by replace (calls + S n) with (S calls + n) by lia.
        -- replace (Z.of_nat calls + 1 + 1)%Z with (Z.of_nat (S calls) + 1)%Z by lia.
           rewrite Hrun. replace (calls + S n) with (S calls + n) by lia.
           f_equal. f_equal. rewrite <- app_assoc. f_equal. simpl.
           unfold retried at 2. rewrite Hcall. simpl.
           by replace (Z.of_nat calls + 1 - 1)%Z with (Z.of_nat calls) by lia.
      * exists 0. rewrite Nat.add_0_r, Hcall. simpl.
    split; [lia|]. split; [intros; lia|]. split; [|done].
        right. intros (e' & Heq & Hre'). congruence.
Qed.

(** Every run of the executor, for a retry budget [maxRetries ≥ 0]. *)
Lemma fetchWithRetry_run :
  (0 ≤ maxRetries)%Z →
  ∃ n, (Z.of_nat n ≤ maxRetries)%Z ∧
       (∀ k, k < n → fails_retryably (fn k)) ∧
       (Z.of_nat n = maxRetries ∨ ¬ fails_retryably (fn n)) ∧
       fetchWithRetry fn maxRetries baseDelay
       = Some (fn n, flat_map (retried fn baseDelay) (seq 0 n) ++ [Call]).
Proof.
  intros Hmax. unfold fetchWithRetry.
  destruct (retry_loop_run (Z.to_nat (maxRetries + 1)) 0 (str "Unknown error") [])
    as (n & Hn & Hfail & Hstop & Hrun); [lia|lia|].
  exists n. split; [lia|]. split; [|split].
  - intros k Hk. apply Hfail. lia.
  - destruct Hstop as [?|?]; [left; lia|by right].
  - exact Hrun.
Qed.
End RetryProofs.


(** ** Provider selection *)

(** C6.  With no explicit provider name and an explicit (non-empty) API
    key, [createProvider] settles on: kimi for a key starting with
    [sk-kimi-]; anthropic for one starting with [sk-ant-]; openai for any
    other key starting with [sk-]; gemini for one starting with [AIza]; and
    openai for every other key.  The key itself is passed on unchanged. *)
Theorem provider_from_key (env : jsstring -> option jsstring) (key : jsstring) :
  key ≠ [] →
  selectProvider env None (Some key)
  = (if startsWith key (str "sk-kimi-") then kimi
     else if startsWith key (str "sk-ant-") then anthropic
     else if startsWith key (str "sk-") then openai
     else if startsWith key (str "AIza") then gemini
     else openai,
     Some key).
Proof.
  intros Hkey. destruct key as [|c key]; [done|].
  unfold selectProvider, nonempty, detectProvider.
  destruct (startsWith (c :: key) (str "sk-kimi-")); [done|].
  destruct (startsWith (c :: key) (str "sk-ant-")); [done|].
  destruct (startsWith (c :: key) (str "sk-")); [done|].
  by destruct (startsWith (c :: key) (str "AIza")).
Qed.

(** ** Whisper provider *)

(** C9.  [createWhisperProvider] raises whenever the lower-cased target
    language is neither [english] nor [en]; and the [translateBatch] of
    every provider it does return raises for every batch. *)
Theorem whisper_english_only (config : ProviderConfig) :
  (toLowerCase (targetLang config) ≠ str "english" →
   toLowerCase (targetLang config) ≠ str "en" →
   createWhisperProvider config = Err (whisper_target_error (targetLang config)))
  ∧
  (∀ p, createWhisperProvider config = Ok p →
        name p = whisper ∧
        ∀ batch, translateBatch p batch = Err whisper_text_error).
Proof.
  unfold createWhisperProvider, jsstring_eqb. split.
  - intros H1 H2. by rewrite !bool_decide_eq_false_2.
  - intros p Hp. destruct (_ && _); [discriminate|].
    injection Hp as <-. done.
Qed.

(** ** Response parsing *)

Lemma get_or_cases lineMap i original :
  (∃ t, filled_with lineMap i t ∧ get_or lineMap i original = t) ∨
  ((∀ t, ¬ filled_with lineMap i t) ∧ get_or lineMap i original = original).
Proof.
  unfold get_or, filled_with.
  destruct (lineMap !! Z.of_nat i) as [[|c t]|] eqn:Hl; simpl.
  - right. split; [|done]. intros t [Ht Hne]. congruence.
  - left. eexists. done.
  - right. split; [|done]. intros t [Ht Hne]. congruence.
Qed.

(** C3.  For every batch and every response text, [parseTranslations]
    returns a list as long as the batch; each position holds the non-empty
    string the response lines put in the map for it, and every position
    without one holds that caption's original text.  The function is total:
    no input makes it raise. *)
Theorem parseTranslations_shape (response : jsstring) (subtitles : list SubtitleRef) :
  length (parseTranslations response subtitles) = length subtitles ∧
  ∀ i s, subtitles !! i = Some s →
    ∃ t, parseTranslations response subtitles !! i = Some t ∧
         ((∃ u, filled_with (lineMap_of response (length subtitles)) i u ∧ t = u)
          ∨ ((∀ u, ¬ filled_with (lineMap_of response (length subtitles)) i u)
             ∧ t = text (obj s))).
Proof.
  unfold parseTranslations. split; [apply length_imap|].
  intros i s Hs. rewrite list_lookup_imap, Hs. simpl. eexists. split; [done|].
  destruct (get_or_cases (lineMap_of response (length subtitles)) i (text (obj s)))
    as [(t & Hf & ->)|[Hno ->]]; [left|right]; eauto.
Qed.

Lemma lowest_unfilled_from_prefix (lineMap : gmap Z jsstring) fuel :
  ∀ i, filled_prefix lineMap → i ≤ size lineMap → size lineMap < i + fuel →
       lowest_unfilled_from lineMap i fuel = Some (size lineMap).
Proof.
  induction fuel as [|fuel IH]; intros i Hpre Hi Hfuel; [lia|]. simpl.
  destruct (lineMap !! Z.of_nat i) as [t|] eqn:Hl.
  - assert (is_Some (lineMap !! Z.of_nat i)) as Hs by eauto.
    apply Hpre in Hs. apply IH; [done|lia|lia].
  - destruct (decide (i = size lineMap)) as [->|Hne]; [done|].
    assert (is_Some (lineMap !! Z.of_nat i)) as [t Ht]; [|congruence].
    apply Hpre. lia.
Qed.

Lemma filled_prefix_insert (lineMap : gmap Z jsstring) t :
  filled_prefix lineMap →
  filled_prefix (<[Z.of_nat (size lineMap) := t]> lineMap).
Proof.
  intros Hpre.
  assert (lineMap !! Z.of_nat (size lineMap) = None) as Hnone.
  { destruct (lineMap !! Z.of_nat (size lineMap)) eqn:Hl; [|done].
    assert (is_Some (lineMap !! Z.of_nat (size lineMap))) as Hs by eauto.
    apply Hpre in Hs. lia. }
  intros k. rewrite map_size_insert_None by done.
  destruct (decide (k = Z.of_nat (size lineMap))) as [->|Hne].
  - rewrite lookup_insert_eq. split; [lia|eauto].
  - rewrite lookup_insert_ne by done. specialize (Hpre k). split.
    + intros Hs. apply Hpre in Hs. lia.
    + intros Hk. apply Hpre. lia.
Qed.

(** A response in which no line so far has the numbered shape leaves the
    filled positions a prefix. *)
Lemma unnumbered_lines_fill_prefix n (previous : list jsstring) :
  Forall (fun l => match_numbered l = None) previous →
  filled_prefix (fold_left (parse_line n) previous ∅).
Proof.
  induction previous as [|l previous IH] using rev_ind; intros Hall.
  - intros k. simpl. rewrite lookup_empty, map_size_empty.
    split; [by intros [? ?]|lia].
  - apply Forall_app in Hall as [Hprev Hl]. apply Forall_inv in Hl.
    simpl in Hl. rewrite fold_left_app. simpl. unfold parse_line at 1. rewrite Hl.
    destruct (_ && _); [|by apply IH].
    apply filled_prefix_insert. by apply IH.
Qed.

(** C7, as the code has it.  A line that does not have the numbered shape
    and is not blank is assigned to position [lineMap.size], the number of
    distinct keys recorded so far, when that is below the batch length, and
    is dropped otherwise.  That position is the lowest one not yet filled
    whenever the positions filled so far are exactly [0 .. size - 1], as
    they are while no earlier line was numbered. *)
Theorem unnumbered_line_position (n : nat) (lineMap : gmap Z jsstring) (line : jsstring) :
  match_numbered line = None → trim line ≠ [] →
  (size lineMap < n →
     parse_line n lineMap line = <[Z.of_nat (size lineMap) := trim line]> lineMap) ∧
  (n ≤ size lineMap → parse_line n lineMap line = lineMap) ∧
  (filled_prefix lineMap → size lineMap < n →
     lowest_unfilled lineMap n = Some (size lineMap)) ∧
  (∀ previous, Forall (fun l => match_numbered l = None) previous →
     lineMap = fold_left (parse_line n) previous ∅ → filled_prefix lineMap).
Proof.
  intros Hshape Hblank. unfold parse_line. rewrite Hshape.
  destruct (trim line) as [|c t] eqn:Htrim; [done|]. simpl.
  split; [|split; [|split]].
  - intros Hlt. apply Nat.ltb_lt in Hlt. by rewrite Hlt.
  - intros Hge. apply Nat.ltb_ge in Hge. by rewrite Hge.
  - intros Hpre Hlt. unfold lowest_unfilled.
    apply lowest_unfilled_from_prefix; [done|lia|lia].
  - intros previous Hall ->. by apply unnumbered_lines_fill_prefix.
Qed.

(** C7 as stated fails: in a batch of two, after the line [[2] B] the
    lowest unfilled position is 0, but the unnumbered line [foo] is
    written to position 1 (the size of the map), over [B]. *)
Lemma unnumbered_line_not_lowest :
  ¬ (∀ (n : nat) (previous : list jsstring) (line : jsstring) (p : nat),
       match_numbered line = None → trim line ≠ [] →
       lowest_unfilled (fold_left (parse_line n) previous ∅) n = Some p →
       parse_line n (fold_left (parse_line n) previous ∅) line !! Z.of_nat p
       = Some (trim line)).
Proof.
  intros H.
  assert (parse_line 2 (fold_left (parse_line 2) [str "[2] B"] ∅) (str "foo")
            !! Z.of_nat 0 = Some (trim (str "foo"))) as Hbad.
  { apply (H 2 [str "[2] B"] (str "foo") 0); by vm_compute. }
  vm_compute in Hbad. discriminate.
Qed.

(** The same input through [parseTranslations]: the first caption keeps its
    source text and the second gets [foo]. *)
Example unnumbered_line_overwrites :
  parseTranslations (str "[2] B" ++ [NL] ++ str "foo")
    [mkRef 0 (mkSubtitle 1 [] [] (str "a")); mkRef 1 (mkSubtitle 2 [] [] (str "b"))]
  = [str "a"; str "foo"].
Proof. by vm_compute. Qed.

(** ** Codec: what the parsers return *)


Lemma m_seq_inv (a b : matcher) s g r :
  (a >> b) s = Some (g, r) →
  ∃ x r1 y, a s = Some (x, r1) ∧ b r1 = Some (y, r) ∧ g = x ++ y.
Proof.
  unfold m_seq. destruct (a s) as [[x r1]|] eqn:Ha; [|done].
  destruct (b r1) as [[y r']|] eqn:Hb; [|done].
  intros [= <- <-]. by exists x, r1, y.
Qed.

Lemma startsWith_app s l : startsWith s l = true → s = l ++ drop (length l) s.
Proof.
  revert s. induction l as [|p l IH]; intros s H; [done|].
  destruct s as [|c s]; [done|]. simpl in *.
  apply andb_prop in H as [Hc Hl]. apply N.eqb_eq in Hc as ->.
  f_equal. by apply IH.
Qed.

Lemma m_lit_inv l s x r : m_lit l s = Some (x, r) → x = l ∧ s = l ++ r.
Proof.
  unfold m_lit. destruct (startsWith s l) eqn:H; [|done].
  intros [= <- <-]. split; [done|]. by apply startsWith_app.
Qed.

Lemma m_digits_inv n s d r :
  m_digits n s = Some (d, r) →
  length d = n ∧ forallb isDigit d = true ∧ s = d ++ r.
Proof.
  unfold m_digits. destruct (_ && _) eqn:H; [|done].
  intros [= <- <-]. apply andb_prop in H as [Hlen Hd].
  apply Nat.eqb_eq in Hlen. by rewrite take_drop.
Qed.

Lemma m_digits2_inv s d r :
  m_digits 2 s = Some (d, r) →
  ∃ a b, d = [a; b] ∧ isDigit a = true ∧ isDigit b = true ∧ s = a :: b :: r.
Proof.
  intros H. apply m_digits_inv in H as (Hlen & Hd & ->).
  destruct d as [|a [|b [|c d]]]; try done. simpl in Hd.
  apply andb_prop in Hd as [Ha Hd]. apply andb_prop in Hd as [Hb _].
  exists a, b. done.
Qed.

Lemma m_digits3_inv s d r :
  m_digits 3 s = Some (d, r) →
  ∃ a b c, d = [a; b; c] ∧ isDigit a = true ∧ isDigit b = true
           ∧ isDigit c = true ∧ s = a :: b :: c :: r.
Proof.
  intros H. apply m_digits_inv in H as (Hlen & Hd & ->).
  destruct d as [|a [|b [|c [|e d]]]]; try done. simpl in Hd.
  apply andb_prop in Hd as [Ha Hd]. apply andb_prop in Hd as [Hb Hd].
  apply andb_prop in Hd as [Hc _].
  exists a, b, c. done.
Qed.

Lemma m_class_inv p s x r :
  m_class p s = Some (x, r) → ∃ c, x = [c] ∧ p c = true ∧ s = c :: r.
Proof.
  unfold m_class. destruct s as [|c s]; [done|].
  destruct (p c) eqn:Hp; [|done]. intros [= <- <-]. eauto.
Qed.

Lemma search_inv {A} (m : jsstring -> option A) s x :
  search m s = Some x → ∃ pre s', s = pre ++ s' ∧ m s' = Some x.
Proof.
  induction s as [|c s IH]; simpl.
  - destruct (m []) eqn:Hm; [|done]. intros [= <-]. by exists [], [].
  - destruct (m (c :: s)) eqn:Hm.
    + intros [= <-]. by exists [], (c :: s).
    + intros H. destruct (IH H) as (pre & s' & -> & Hs').
      by exists (c :: pre), s'.
Qed.

Lemma arrow_at_inv ts s g1 g2 :
  arrow_at ts s = Some (g1, g2) →
  ∃ r1 r2 r3, ts s = Some (g1, r1) ∧ ts r2 = Some (g2, r3).
Proof.
  unfold arrow_at. destruct (ts s) as [[x r1]|] eqn:H1; [|done].
  destruct ((m_ws >> m_lit (str "-->") >> m_ws) r1) as [[y r2]|]; [|done].
  destruct (ts r2) as [[z r3]|] eqn:H2; [|done].
  intros [= <- <-]. eauto.
Qed.

(** Facts about a digit, for evaluating comparisons with the separators. *)
Lemma digit_not_sep c :
  isDigit c = true →
  (c =? 58)%N = false ∧ (c =? 46)%N = false ∧ (c =? 44)%N = false.
Proof.
  unfold isDigit. intros H. apply andb_prop in H as [H1 H2].
  apply N.leb_le in H1. apply N.leb_le in H2.
  repeat split; apply N.eqb_neq; lia.
Qed.

Ltac digit_facts :=
  repeat match goal with
  | H : isDigit ?c = true |- _ =>
      destruct (digit_not_sep c H) as (? & ? & ?); revert H
  end; intros.

Ltac eval_chars :=
  repeat (progress (simpl;
    repeat match goal with
    | H : (_ =? _)%N = false |- _ => rewrite H
    | H : isDigit _ = true |- _ => rewrite H
    end)).

Ltac digits := digit_facts; eval_chars.

Ltac inv_matchers :=
  repeat match goal with
  | H : (_ >> _) _ = Some _ |- _ =>
      apply m_seq_inv in H as (? & ? & ? & H & ? & ?)
  | H : m_digits 2 _ = Some _ |- _ =>
      apply m_digits2_inv in H as (? & ? & ? & ? & ? & ?)
  | H : m_digits 3 _ = Some _ |- _ =>
      apply m_digits3_inv in H as (? & ? & ? & ? & ? & ? & ? & ?)
  | H : m_lit _ _ = Some _ |- _ => apply m_lit_inv in H as [? ?]
  | H : m_class _ _ = Some _ |- _ => apply m_class_inv in H as (? & ? & ? & ?)
  end; subst.

Lemma srt_ts_norm s g r :
  srt_ts s = Some (g, r) → is_norm_time (replace_first 46 44 g) = true.
Proof.
  unfold srt_ts. intros H. inv_matchers.
  match goal with H : isCommaOrDot ?c = true |- _ =>
    unfold isCommaOrDot in H; apply orb_prop in H as [H|H];
    apply N.eqb_eq in H; subst c end;
  unfold is_norm_time; digits; done.
Qed.





Lemma takeWhile_app_stop p (h : jsstring) c r :
  forallb p h = true → p c = false → takeWhile p (h ++ c :: r) = h.
Proof.
  intros Hh Hc. induction h as [|d h IH]; simpl.
  - by rewrite Hc.
  - simpl in Hh. apply andb_prop in Hh as [Hd Hh]. rewrite Hd. by rewrite IH.
Qed.










Lemma parseSRT_block_new subtitles block s :
  s ∈ parseSRT_block subtitles block →
  s ∈ subtitles ∨
  (from_srt_block s block ∧ is_norm_time (startTime s) = true
   ∧ is_norm_time (endTime s) = true).
Proof.
  unfold parseSRT_block. destruct (_ <? 3) eqn:Hlen; [by left|].
  destruct (lines_of block) as [|l0 [|l1 rest]] eqn:Hlines; [by left|by left|].
  destruct (parseInt l0) as [idx|] eqn:Hidx; [|by left].
  destruct (search (arrow_at srt_ts) l1) as [[g1 g2]|] eqn:Hs; [|by left].
  intros Hin. apply elem_of_app in Hin as [Hin|Hin]; [by left|right].
  apply list_elem_of_singleton in Hin as ->. simpl.
  apply search_inv in Hs as (pre & t' & _ & Ha).
  apply arrow_at_inv in Ha as (r1 & r2 & r3 & H1 & H2).
  split; [|split; by eapply srt_ts_norm].
  exists l0, l1, rest. split; [done|]. split; [done|]. split; [done|].
  intros ->. by rewrite ?Hlines in Hlen.
Qed.

Lemma parseSRT_fold_new blocks :
  ∀ subtitles s,
    s ∈ fold_left parseSRT_block blocks subtitles →
    s ∈ subtitles ∨
    ∃ block, block ∈ blocks ∧ from_srt_block s block
             ∧ is_norm_time (startTime s) = true ∧ is_norm_time (endTime s) = true.
Proof.
  induction blocks as [|b blocks IH]; intros subtitles s Hin; simpl in *; [by left|].
  apply IH in Hin as [Hin|(block & Hb & Hrest)].
  - apply parseSRT_block_new in Hin as [Hin|Hnew]; [by left|right].
    exists b. split; [left|done].
  - right. exists block. split; [by right|done].
Qed.

Lemma parseSRT_new content s :
  s ∈ parseSRT content →
  ∃ block, block ∈ blocks_of content ∧ from_srt_block s block
           ∧ is_norm_time (startTime s) = true ∧ is_norm_time (endTime s) = true.
Proof.
  unfold parseSRT. intros Hin.
  apply parseSRT_fold_new in Hin as [Hin|?]; [|done].
  by apply elem_of_nil in Hin.
Qed.





(** ** Codec: serialize, then parse *)

Lemma replace_crlf_nocr s : nocr s = true → replace_crlf s = s.
Proof.
  induction s as [|c s IH]; [done|]. intros H. simpl in H.
  apply andb_prop in H as [Hc Hs]. simpl.
  destruct s as [|d s']; [done|].
  apply negb_true_iff in Hc. rewrite Hc. simpl. f_equal. by apply IH.
Qed.

Lemma replace_cr_nocr s : nocr s = true → replace_cr s = s.
Proof.
  induction s as [|c s IH]; [done|]. intros H. simpl in H.
  apply andb_prop in H as [Hc Hs]. simpl.
  apply negb_true_iff in Hc. rewrite Hc. f_equal. by apply IH.
Qed.

Lemma normalizeLineEndings_nocr s : nocr s = true → normalizeLineEndings s = s.
Proof.
  intros H. unfold normalizeLineEndings.
  by rewrite replace_crlf_nocr, replace_cr_nocr.
Qed.

Lemma nocr_app a b : nocr (a ++ b) = nocr a && nocr b.
Proof. apply forallb_app. Qed.

Lemma nonl_app a b : nonl (a ++ b) = nonl a && nonl b.
Proof. apply forallb_app. Qed.

Lemma nocr_join sep pieces :
  nocr sep = true → Forall (fun p => nocr p = true) pieces →
  nocr (join sep pieces) = true.
Proof.
  intros Hsep Hall. induction Hall as [|p ps Hp Hps IH]; [done|].
  destruct ps as [|q ps]; [done|].
  change (join sep (p :: q :: ps)) with (p ++ sep ++ join sep (q :: ps)).
  by rewrite !nocr_app, Hp, Hsep, IH.
Qed.

(** *** split and join *)

Lemma split_char_nonempty sep s : split_char sep s ≠ [].
Proof.
  destruct s as [|c s]; [done|]. simpl.
  destruct (c =? sep)%N; [done|]. by destruct (split_char sep s).
Qed.

Lemma split_char_app sep a r :
  split_char sep (a ++ sep :: r) = split_char sep a ++ split_char sep r.
Proof.
  induction a as [|c a IH]; simpl.
  - by rewrite N.eqb_refl.
  - destruct (c =? sep)%N; [by rewrite IH|].
    rewrite IH. destruct (split_char sep a) eqn:E; [|done].
    by apply split_char_nonempty in E.
Qed.

Lemma split_char_none sep a :
  forallb (fun c => negb (c =? sep)%N) a = true → split_char sep a = [a].
Proof.
  induction a as [|c a IH]; [done|]. intros H. simpl in H.
  apply andb_prop in H as [Hc Ha]. apply negb_true_iff in Hc.
  simpl. rewrite Hc, IH by done. done.
Qed.

Lemma join_cons sep p q ps :
  join sep (p :: q :: ps) = p ++ sep ++ join sep (q :: ps).
Proof. done. Qed.

Lemma join_split_char sep s : join [sep] (split_char sep s) = s.
Proof.
  induction s as [|c s IH]; [done|]. simpl.
  destruct (split_char sep s) as [|p ps] eqn:E;
    [by apply split_char_nonempty in E|].
  destruct (N.eqb_spec c sep) as [->|Hne]; destruct ps as [|q ps];
    simpl in *; by rewrite <- IH.
Qed.

(** *** trim *)

Lemma dropWhile_app_keep p (a : jsstring) c r :
  p c = false → ∃ r', dropWhile p (a ++ c :: r) = r' ++ c :: r.
Proof.
  intros Hc. induction a as [|d a IH]; simpl.
  - rewrite Hc. by exists [].
  - destruct (p d); [done|]. by exists (d :: a).
Qed.

Lemma trim_head c s :
  isSpace c = false → ∃ r, trim (c :: s) = c :: r.
Proof.
  intros Hc. unfold trim, trimStart, trimEnd. simpl. rewrite Hc. simpl.
  destruct (dropWhile_app_keep isSpace (rev s) c [] Hc) as (r' & ->).
  rewrite rev_app_distr. simpl. eauto.
Qed.

Lemma trim_inner c m d :
  isSpace c = false → isSpace d = false → trim (c :: m ++ [d]) = c :: m ++ [d].
Proof.
  intros Hc Hd. unfold trim, trimStart, trimEnd. simpl. rewrite Hc.
  change (c :: m ++ [d]) with ((c :: m) ++ [d]).
  rewrite rev_app_distr. simpl. rewrite Hd. simpl.
  by rewrite rev_app_distr, rev_involutive.
Qed.

Lemma truthy_trim_head c s : isSpace c = false → truthy (trim (c :: s)) = true.
Proof. intros Hc. by destruct (trim_head c s Hc) as (r & ->). Qed.

(** *** the blank-line split *)

Lemma split_blank_skip r :
  match r with c :: _ => (c =? NL)%N = false | [] => True end →
  split_blank true r = split_blank false r.
Proof. destruct r as [|c r]; [done|]. intros H. simpl. by rewrite H. Qed.

Lemma split_blank_block c r :
  no_blank_line c = true →
  split_blank false (c ++ NL :: NL :: r) = c :: split_blank true r.
Proof.
  induction c as [|x c IH]; [done|]. intros H. simpl in H.
  destruct c as [|y c'].
  - apply negb_true_iff in H. simpl. by rewrite H.
  - apply andb_prop in H as [Hxy Hc]. apply negb_true_iff in Hxy.
    change (split_blank false ((x :: y :: c') ++ NL :: NL :: r))
      with (if (x =? NL)%N && (y =? NL)%N
            then [] :: split_blank true (c' ++ NL :: NL :: r)
            else cons_head x (split_blank false ((y :: c') ++ NL :: NL :: r))).
    rewrite Hxy, IH by done. done.
Qed.

Lemma split_blank_last c :
  no_blank_line c = true → split_blank false (c ++ [NL]) = [c ++ [NL]].
Proof.
  induction c as [|x c IH]; [done|]. intros H. simpl in H.
  destruct c as [|y c'].
  - apply negb_true_iff in H. simpl. by rewrite H.
  - apply andb_prop in H as [Hxy Hc]. apply negb_true_iff in Hxy.
    change (split_blank false ((x :: y :: c') ++ [NL]))
      with (if (x =? NL)%N && (y =? NL)%N
            then [] :: split_blank true (c' ++ [NL])
            else cons_head x (split_blank false ((y :: c') ++ [NL]))).
    rewrite Hxy, IH by done. done.
Qed.

Lemma not_space_not_nl x : isSpace x = false → (x =? NL)%N = false.
Proof.
  unfold isSpace. intros H. repeat (apply orb_false_elim in H as [H ?]). done.
Qed.

Lemma split_blank_join cues :
  cues ≠ [] →
  Forall (fun c => no_blank_line c = true ∧ starts_nonblank c) cues →
  split_blank false (join [NL; NL] cues ++ [NL]) = add_nl_last cues.
Proof.
  intros Hne Hall. induction Hall as [|c cs [Hc Hs] Hcs IH]; [done|].
  destruct cs as [|d cs].
  - simpl. by apply split_blank_last.
  - rewrite join_cons.
    replace ((c ++ [NL; NL] ++ join [NL; NL] (d :: cs)) ++ [NL])
      with (c ++ NL :: NL :: (join [NL; NL] (d :: cs) ++ [NL]))
      by (by rewrite <- !app_assoc).
    rewrite split_blank_block by done.
    rewrite split_blank_skip.
    + rewrite IH by done. done.
    + apply Forall_inv in Hcs as [_ Hd]. destruct d as [|x d]; [done|].
      destruct cs; simpl; by apply not_space_not_nl.
Qed.

Lemma filter_blocks cues :
  Forall starts_nonblank cues →
  List.filter (fun block => truthy (trim block)) (add_nl_last cues)
  = add_nl_last cues.
Proof.
  intros Hall. induction Hall as [|c cs Hc Hcs IH]; [done|].
  destruct c as [|x c]; [done|]. simpl in Hc.
  destruct cs as [|d cs].
  - simpl add_nl_last. simpl List.filter.
    change ((x :: c) ++ [NL]) with (x :: (c ++ [NL])).
    by rewrite truthy_trim_head.
  - change (add_nl_last ((x :: c) :: d :: cs))
      with ((x :: c) :: add_nl_last (d :: cs)).
    simpl List.filter. rewrite truthy_trim_head by done.
    f_equal. exact IH.
Qed.

(** *** numbers *)

Lemma uint_chars_digits u : forallb isDigit (uint_chars u) = true.
Proof. induction u; simpl; auto. Qed.

Lemma uint_chars_acc u :
  ∀ acc, fold_left (fun a c => (a * 10 + digitVal c)%Z) (uint_chars u) (Z.pos acc)
         = Z.pos (Pos.of_uint_acc u acc).
Proof.
  induction u; intros acc; simpl; [done|..]; rewrite <- IHu; f_equal;
    unfold digitVal; simpl; lia.
Qed.

Lemma uint_chars_val u : digitsVal (uint_chars u) = Z.of_N (Pos.of_uint u).
Proof.
  unfold digitsVal. induction u; simpl; [done|exact IHu|..];
    match goal with |- fold_left ?f ?l ?a = _ =>
      let v := eval vm_compute in a in change a with v end;
    by rewrite uint_chars_acc.
Qed.

Lemma numToString_nat (n : Z) :
  (0 ≤ n)%Z →
  ∃ d ds, numToString n = d :: ds ∧ isDigit d = true
          ∧ forallb isDigit ds = true ∧ digitsVal (d :: ds) = n.
Proof.
  intros Hn. unfold numToString. destruct n as [|p|p]; [| |lia].
  - exists 48%N, []. done.
  - simpl. pose proof (uint_chars_digits (Pos.to_uint p)) as Hd.
    pose proof (uint_chars_val (Pos.to_uint p)) as Hv.
    rewrite DecimalPos.Unsigned.of_to in Hv.
    destruct (uint_chars (Pos.to_uint p)) as [|d ds] eqn:E.
    + simpl in Hv. discriminate.
    + simpl in Hd. apply andb_prop in Hd as [? ?]. exists d, ds. done.
Qed.

Lemma digit_cases c :
  isDigit c = true →
  c ∈ [48; 49; 50; 51; 52; 53; 54; 55; 56; 57]%N.
Proof.
  unfold isDigit. intros H. apply andb_prop in H as [H1 H2].
  apply N.leb_le in H1. apply N.leb_le in H2.
  assert (c = 48 ∨ c = 49 ∨ c = 50 ∨ c = 51 ∨ c = 52 ∨ c = 53 ∨ c = 54
          ∨ c = 55 ∨ c = 56 ∨ c = 57)%N as Hc by lia.
  repeat (destruct Hc as [->|Hc]; [set_solver|]). subst. set_solver.
Qed.

Lemma digit_not_space c :
  isDigit c = true →
  isSpace c = false ∧ (c =? 45)%N = false ∧ (c =? 43)%N = false
  ∧ (c =? NL)%N = false ∧ (c =? CR)%N = false.
Proof.
  intros H. apply digit_cases in H.
  repeat (apply elem_of_cons in H as [->|H]; [by vm_compute|]).
  by apply elem_of_nil in H.
Qed.

Lemma takeWhile_all p (s : jsstring) : forallb p s = true → takeWhile p s = s.
Proof.
  induction s as [|c s IH]; [done|]. simpl. intros H.
  apply andb_prop in H as [Hc Hs]. by rewrite Hc, IH.
Qed.

Lemma parseInt_digits d ds :
  isDigit d = true → forallb isDigit ds = true →
  parseInt (d :: ds) = Some (digitsVal (d :: ds)).
Proof.
  intros Hd Hds. destruct (digit_not_space d Hd) as (Hsp & Hm & Hp & _).
  unfold parseInt, trimStart. simpl dropWhile. rewrite Hsp, Hm, Hp.
  rewrite takeWhile_all; [done|]. simpl. by rewrite Hd.
Qed.

Lemma parseInt_numToString n : (0 ≤ n)%Z → parseInt (numToString n) = Some n.
Proof.
  intros Hn. destruct (numToString_nat n Hn) as (d & ds & -> & Hd & Hds & Hv).
  by rewrite parseInt_digits, Hv.
Qed.

(** The hour field through [toASS] and back: [parseInt] drops a leading
    zero and [padStart] restores it. *)
Lemma hours_roundtrip a b :
  isDigit a = true → isDigit b = true →
  ∃ h, match parseInt [a; b] with
       | Some n => numToString n
       | None => str "NaN"
       end = h
       ∧ h ≠ [] ∧ forallb isDigit h = true ∧ padStart 2 48 h = [a; b].
Proof.
  intros Ha Hb. eexists. split; [done|].
  apply digit_cases in Ha. apply digit_cases in Hb.
  repeat (apply elem_of_cons in Ha as [->|Ha];
          [repeat (apply elem_of_cons in Hb as [->|Hb]; [by vm_compute|]);
           by apply elem_of_nil in Hb|]).
  by apply elem_of_nil in Ha.
Qed.

(** *** evaluating the matchers on a normalized time *)

Ltac eval_str :=
  repeat match goal with
  | |- context [str ?s] =>
      let v := eval vm_compute in (str s) in change (str s) with v
  end.

(** Evaluate a goal on characters known by [isDigit], [isSpace] or
    comparison hypotheses. *)
Ltac eval_chars2 :=
  eval_str;
  repeat (progress (simpl;
    repeat match goal with
    | H : isDigit _ = true |- _ => rewrite H
    | H : isSpace _ = false |- _ => rewrite H
    | H : (_ =? _)%N = false |- _ => rewrite H
    end)).

Lemma timechar_plain s :
  forallb timechar s = true → nonl s = true ∧ nocr s = true.
Proof.
  induction s as [|c s IH]; [done|]. simpl. intros H.
  apply andb_prop in H as [Hc Hs]. destruct (IH Hs) as [-> ->].
  assert ((c =? NL)%N = false ∧ (c =? CR)%N = false) as [-> ->]; [|done].
  unfold timechar in Hc. repeat (apply orb_prop in Hc as [Hc|Hc]).
  - by destruct (digit_not_space c Hc) as (_ & _ & _ & ? & ?).
  - by apply N.eqb_eq in Hc as ->.
  - by apply N.eqb_eq in Hc as ->.
  - by apply N.eqb_eq in Hc as ->.
  - by apply N.eqb_eq in Hc as ->.
  - by apply N.eqb_eq in Hc as ->.
  - by apply N.eqb_eq in Hc as ->.
Qed.

Lemma shape_cons_inv p ps s :
  shape (p :: ps) s = true → ∃ c s', s = c :: s' ∧ p c = true ∧ shape ps s' = true.
Proof.
  destruct s as [|c s']; [done|]. simpl. intros H.
  apply andb_prop in H as [? ?]. eauto.
Qed.

Lemma shape_nil_inv s : shape [] s = true → s = [].
Proof. by destruct s. Qed.

Ltac shape_inv H :=
  repeat (apply shape_cons_inv in H as (? & ? & -> & ? & H));
  apply shape_nil_inv in H as ->;
  repeat match goal with
  | H : is_char _ _ = true |- _ => apply N.eqb_eq in H; subst
  end.

Lemma norm_time_inv t :
  is_norm_time t = true →
  ∃ a b c d e f g h i,
    t = [a; b; 58; c; d; 58; e; f; 44; g; h; i]%N
    ∧ isDigit a = true ∧ isDigit b = true ∧ isDigit c = true
    ∧ isDigit d = true ∧ isDigit e = true ∧ isDigit f = true
    ∧ isDigit g = true ∧ isDigit h = true ∧ isDigit i = true.
Proof.
  unfold is_norm_time. intros H. shape_inv H.
  by eexists _, _, _, _, _, _, _, _, _.
Qed.

Ltac norm_times :=
  repeat match goal with
  | H : is_norm_time _ = true |- _ =>
      apply norm_time_inv in H
        as (? & ? & ? & ? & ? & ? & ? & ? & ? & -> & ? & ? & ? & ? & ? & ? & ? & ? & ?)
  end.

Lemma search_here {A} (m : jsstring -> option A) s x :
  m s = Some x → search m s = Some x.
Proof. intros H. destruct s; simpl; by rewrite H. Qed.

Lemma arrow_srt st en :
  is_norm_time st = true → is_norm_time en = true →
  search (arrow_at srt_ts) (st ++ str " --> " ++ en) = Some (st, en).
Proof.
  intros Hs He. apply search_here. norm_times.
  match goal with
  | H : isDigit ?c = true |- context [_ ++ ?c :: _] =>
      destruct (digit_not_space c H) as (? & _)
  end.
  unfold arrow_at, srt_ts, m_seq, m_digits, m_lit, m_class, m_ws, isCommaOrDot.
  eval_chars2. done.
Qed.

Lemma norm_time_keep st :
  is_norm_time st = true → replace_first 46 44 st = st.
Proof.
  intros Hs. norm_times.
  repeat match goal with
  | H : isDigit ?c = true |- _ =>
      destruct (digit_not_sep c H) as (_ & ? & _); revert H
  end; intros.
  eval_chars2. done.
Qed.

(** *** lines of a cue *)

Lemma filter_all {A} (p : A -> bool) l : forallb p l = true → List.filter p l = l.
Proof.
  induction l as [|x l IH]; [done|]. simpl. intros H.
  apply andb_prop in H as [Hx Hl]. by rewrite Hx, IH.
Qed.

Lemma split_char_nosep sep s :
  Forall (fun p => forallb (fun c => negb (c =? sep)%N) p = true) (split_char sep s).
Proof.
  induction s as [|c s IH]; simpl; [by repeat constructor|].
  destruct (c =? sep)%N eqn:Hc; [by constructor|].
  destruct (split_char sep s) as [|p ps].
  - constructor; [simpl; by rewrite Hc|constructor].
  - apply Forall_cons in IH as [Hp Hps].
    constructor; [simpl; by rewrite Hc, Hp|done].
Qed.

Lemma no_blank_line_nonl l : l ≠ [] → nonl l = true → no_blank_line l = true.
Proof.
  induction l as [|x l IH]; [done|]. intros _ H. simpl in H.
  apply andb_prop in H as [Hx Hl]. simpl.
  destruct l as [|y l]; [done|].
  apply negb_true_iff in Hx. rewrite Hx. simpl. by apply IH.
Qed.

Lemma no_blank_line_app a b :
  no_blank_line a = true → no_blank_line b = true →
  match b with y :: _ => (y =? NL)%N = false | [] => True end →
  no_blank_line (a ++ NL :: b) = true.
Proof.
  intros Ha Hb Hy. induction a as [|x a IH]; [done|].
  simpl in Ha. destruct a as [|z a].
  - apply negb_true_iff in Ha. simpl. rewrite Ha. simpl.
    destruct b as [|y b]; [done|]. by rewrite Hy.
  - apply andb_prop in Ha as [Hxz Ha].
    change (no_blank_line ((x :: z :: a) ++ NL :: b))
      with (negb ((x =? NL)%N && (z =? NL)%N) && no_blank_line ((z :: a) ++ NL :: b)).
    by rewrite Hxz, IH.
Qed.

Lemma truthy_trim_nonempty l : truthy (trim l) = true → l ≠ [].
Proof. by destruct l. Qed.

Lemma no_blank_join lines :
  lines ≠ [] →
  Forall (fun l => l ≠ [] ∧ nonl l = true) lines →
  no_blank_line (join [NL] lines) = true
  ∧ match join [NL] lines with y :: _ => (y =? NL)%N = false | [] => True end.
Proof.
  intros Hne Hall. induction Hall as [|l ls [Hl Hnl] Hls IH]; [done|].
  assert (match l with y :: _ => (y =? NL)%N = false | [] => True end) as Hhead.
  { destruct l as [|y l]; [done|]. simpl in Hnl.
    apply andb_prop in Hnl as [Hy _]. by apply negb_true_iff in Hy. }
  destruct ls as [|m ls].
  - simpl. split; [by apply no_blank_line_nonl|done].
  - rewrite join_cons. destruct IH as [IH1 IH2]; [done|].
    split.
    + apply no_blank_line_app; [by apply no_blank_line_nonl|done|done].
    + destruct l as [|y l]; [done|]. done.
Qed.

Lemma text_ok_tight t :
  text_ok t = true →
  nocr t = true
  ∧ forallb (fun line => truthy (trim line)) (split_char NL t) = true
  ∧ no_blank_line t = true
  ∧ match t with y :: _ => (y =? NL)%N = false | [] => True end.
Proof.
  unfold text_ok. intros H. apply andb_prop in H as [Hcr Hlines].
  split; [done|]. split; [done|].
  pose proof (no_blank_join (split_char NL t)) as Hjoin.
  rewrite join_split_char in Hjoin.
  apply Hjoin; [apply split_char_nonempty|].
  pose proof (split_char_nosep NL t) as Hsep.
  apply Forall_forall. intros l Hin. split.
  - apply truthy_trim_nonempty.
    rewrite forallb_forall in Hlines. apply Hlines. by apply list_elem_of_In.
  - rewrite Forall_forall in Hsep. by apply Hsep.
Qed.

Lemma lines_of_cue num timeline txt tail :
  nonl num = true → nonl timeline = true →
  starts_nonblank num → starts_nonblank timeline →
  forallb (fun line => truthy (trim line)) (split_char NL txt) = true →
  tail = [] ∨ tail = [NL] →
  lines_of (num ++ NL :: timeline ++ NL :: (txt ++ tail))
  = num :: timeline :: split_char NL txt.
Proof.
  intros Hnum Htl Hn Ht Htxt Htail. unfold lines_of.
  rewrite !split_char_app, !split_char_none by done.
  destruct num as [|x num]; [done|]. destruct timeline as [|y timeline]; [done|].
  simpl in Hn, Ht. simpl List.filter.
  rewrite !truthy_trim_head by done. do 2 f_equal.
  destruct Htail as [->| ->].
  - rewrite app_nil_r. by apply filter_all.
  - rewrite split_char_app, List.filter_app. simpl.
    rewrite app_nil_r. by apply filter_all.
Qed.

Lemma cue_assoc i st en txt tail :
  cue i st en txt ++ tail
  = numToString (Z.of_nat i + 1) ++ NL :: (st ++ str " --> " ++ en) ++ NL :: (txt ++ tail).
Proof. unfold cue. by rewrite <- !app_assoc. Qed.

Lemma digits_nonl ds : forallb isDigit ds = true → nonl ds = true ∧ nocr ds = true.
Proof.
  induction ds as [|d ds IH]; [done|]. simpl. intros H.
  apply andb_prop in H as [Hd Hds].
  destruct (digit_not_space d Hd) as (_ & _ & _ & Hnl & Hcr).
  rewrite Hnl, Hcr. simpl. by apply IH.
Qed.

(** What the serializers write before the text of a cue. *)
Lemma cue_number i :
  ∃ d ds, numToString (Z.of_nat i + 1) = d :: ds
          ∧ isDigit d = true ∧ forallb isDigit ds = true
          ∧ nonl (d :: ds) = true ∧ nocr (d :: ds) = true
          ∧ parseInt (d :: ds) = Some (Z.of_nat i + 1)%Z.
Proof.
  destruct (numToString_nat (Z.of_nat i + 1)) as (d & ds & E & Hd & Hds & Hv); [lia|].
  exists d, ds. rewrite <- E at 4. rewrite parseInt_numToString by lia.
  destruct (digits_nonl (d :: ds)) as [? ?]; [simpl; by rewrite Hd|]. done.
Qed.

Lemma srt_timeline st en :
  is_norm_time st = true → is_norm_time en = true →
  nonl (st ++ str " --> " ++ en) = true
  ∧ nocr (st ++ str " --> " ++ en) = true
  ∧ starts_nonblank (st ++ str " --> " ++ en).
Proof.
  intros Hs He.
  apply norm_time_inv in Hs as (a & b & c & d & e & f & g & h & i & -> & Hs).
  apply norm_time_inv in He as (a0 & b0 & c0 & d0 & e0 & f0 & g0 & h0 & i0 & -> & He).
  destruct Hs as (Ha & Hb & Hc & Hd & He' & Hf & Hg & Hh & Hi).
  destruct He as (Ha0 & Hb0 & Hc0 & Hd0 & He0 & Hf0 & Hg0 & Hh0 & Hi0).
  assert (forallb timechar ([a; b; 58; c; d; 58; e; f; 44; g; h; i]%N ++ str " --> "
            ++ [a0; b0; 58; c0; d0; 58; e0; f0; 44; g0; h0; i0]%N) = true) as Ht.
  { unfold timechar. eval_chars2. done. }
  apply timechar_plain in Ht as [? ?]. split; [done|]. split; [done|].
  simpl. by destruct (digit_not_space a Ha) as (? & _).
Qed.

Lemma parseSRT_block_cue acc i s tail :
  caption_ok s = true → tail = [] ∨ tail = [NL] →
  parseSRT_block acc (cue i (startTime s) (endTime s) (text s) ++ tail)
  = acc ++ [mkSubtitle (Z.of_nat i + 1) (startTime s) (endTime s) (text s)].
Proof.
  intros Hok Htail. unfold caption_ok in Hok.
  apply andb_prop in Hok as [Hok Htxt]. apply andb_prop in Hok as [Hs He].
  apply text_ok_tight in Htxt as (_ & Hlines & _ & _).
  destruct (cue_number i) as (d & ds & Enum & Hd & Hds & Hnl & _ & Hint).
  destruct (srt_timeline _ _ Hs He) as (Htl & _ & Hst).
  unfold parseSRT_block. rewrite cue_assoc, Enum.
  rewrite lines_of_cue; try done.
  2:{ simpl. by destruct (digit_not_space d Hd) as (? & _). }
  destruct (split_char NL (text s)) as [|l ls] eqn:E;
    [by apply split_char_nonempty in E|].
  simpl length. simpl (_ <? 3).
  rewrite Hint, arrow_srt by done.
  rewrite !norm_time_keep by done.
  by rewrite <- E, join_split_char.
Qed.

(** *** SubRip *)

Lemma imap_shift {A B} (F : nat -> A -> B) k x l :
  imap (fun i s => F (k + i) s) (x :: l)
  = F k x :: imap (fun i s => F (S k + i) s) l.
Proof.
  simpl. rewrite Nat.add_0_r. f_equal. apply imap_ext. intros i y _. simpl.
  f_equal. lia.
Qed.

Lemma fold_left_step {A B} (f : A -> B -> A) x l a :
  fold_left f (x :: l) a = fold_left f l (f a x).
Proof. done. Qed.

Lemma add_nl_last_cons c l : l ≠ [] → add_nl_last (c :: l) = c :: add_nl_last l.
Proof. by destruct l. Qed.

Lemma cue_tight i st en txt :
  nonl (st ++ str " --> " ++ en) = true →
  nocr (st ++ str " --> " ++ en) = true →
  starts_nonblank (st ++ str " --> " ++ en) →
  text_ok txt = true →
  no_blank_line (cue i st en txt) = true
  ∧ starts_nonblank (cue i st en txt)
  ∧ nocr (cue i st en txt) = true.
Proof.
  intros Hnl Hcr Hst Htxt.
  apply text_ok_tight in Htxt as (Htcr & _ & Htb & Hth).
  destruct (cue_number i) as (d & ds & Enum & Hd & Hds & Hnnl & Hncr & _).
  rewrite <- (app_nil_r (cue i st en txt)), cue_assoc, app_nil_r, Enum.
  destruct (digit_not_space d Hd) as (Hsp & _).
  set (timeline := st ++ str " --> " ++ en) in *.
  split; [|split].
  - apply no_blank_line_app; [by apply no_blank_line_nonl| |].
    + apply no_blank_line_app; [apply no_blank_line_nonl; [|done]|done|done].
      intros E. rewrite E in Hst. done.
    + destruct timeline as [|y r]; [done|].
      simpl in *. by apply not_space_not_nl.
  - done.
  - change (NL :: timeline ++ NL :: txt) with ([NL] ++ timeline ++ [NL] ++ txt).
    by rewrite !nocr_app, Hncr, Hcr, Htcr.
Qed.

Lemma srt_cue_tight i s :
  caption_ok s = true →
  no_blank_line (cue i (startTime s) (endTime s) (text s)) = true
  ∧ starts_nonblank (cue i (startTime s) (endTime s) (text s))
  ∧ nocr (cue i (startTime s) (endTime s) (text s)) = true.
Proof.
  unfold caption_ok. intros Hok.
  apply andb_prop in Hok as [Hok Htxt]. apply andb_prop in Hok as [Hs He].
  destruct (srt_timeline _ _ Hs He) as (? & ? & ?). by apply cue_tight.
Qed.

Lemma Forall_imap {A B} (P : B -> Prop) (Q : A -> Prop) (F : nat -> A -> B) l :
  (∀ i x, Q x → P (F i x)) → Forall Q l → Forall P (imap F l).
Proof.
  intros HF Hall. revert F HF.
  induction Hall as [|x l Hx Hl IH]; intros F HF; simpl; constructor; auto.
  apply IH. intros i y. apply HF.
Qed.

Lemma parseSRT_fold_cues subtitles :
  ∀ k acc,
    Forall (fun s => caption_ok s = true) subtitles →
    fold_left parseSRT_block
      (add_nl_last (imap (fun i s => cue (k + i) (startTime s) (endTime s) (text s))
                         subtitles)) acc
    = acc ++ imap (fun i s => mkSubtitle (Z.of_nat (k + i) + 1) (startTime s)
                                         (endTime s) (text s)) subtitles.
Proof.
  induction subtitles as [|s rest IH]; intros k acc Hall.
  - simpl. by rewrite app_nil_r.
  - apply Forall_cons in Hall as [Hs Hrest].
    rewrite (imap_shift (fun i s => cue i (startTime s) (endTime s) (text s))).
    rewrite (imap_shift (fun i s => mkSubtitle (Z.of_nat i + 1) (startTime s)
                                               (endTime s) (text s))).
    destruct rest as [|s' rest'].
    + simpl. rewrite parseSRT_block_cue; auto.
    + rewrite add_nl_last_cons by done. rewrite fold_left_step.
      rewrite <- (app_nil_r (cue k _ _ _)).
      rewrite parseSRT_block_cue by auto.
      rewrite IH by done. by rewrite <- app_assoc.
Qed.

Lemma blocks_of_body cues :
  cues ≠ [] →
  Forall (fun c => no_blank_line c = true ∧ starts_nonblank c ∧ nocr c = true) cues →
  nocr (join [NL; NL] cues ++ [NL]) = true
  ∧ split_blank false (join [NL; NL] cues ++ [NL]) = add_nl_last cues
  ∧ List.filter (fun block => truthy (trim block)) (add_nl_last cues)
    = add_nl_last cues.
Proof.
  intros Hne Hall. split; [|split].
  - rewrite nocr_app, nocr_join; [done|done|].
    eapply Forall_impl; [exact Hall|]. by intros c (_ & _ & ?).
  - apply split_blank_join; [done|].
    eapply Forall_impl; [exact Hall|]. by intros c (? & ? & _).
  - apply filter_blocks.
    eapply Forall_impl; [exact Hall|]. by intros c (_ & ? & _).
Qed.

Lemma parseSRT_toSRT subtitles :
  Forall (fun s => caption_ok s = true) subtitles →
  parseSRT (toSRT subtitles)
  = imap (fun i s => mkSubtitle (Z.of_nat i + 1) (startTime s) (endTime s) (text s))
         subtitles.
Proof.
  intros Hall. destruct subtitles as [|s0 rest]; [by vm_compute|].
  unfold parseSRT, toSRT, blocks_of.
  set (cues := imap _ (s0 :: rest)).
  destruct (blocks_of_body cues) as (Hcr & Hsplit & Hfilter); [done| |].
  { apply (Forall_imap _ (fun s => caption_ok s = true)); [|done].
    intros i s Hs. by apply srt_cue_tight. }
  rewrite normalizeLineEndings_nocr, Hsplit, Hfilter by done.
  apply (parseSRT_fold_cues (s0 :: rest) 0 [] Hall).
Qed.

(** *** WebVTT *)

Lemma digit_range d : isDigit d = true → (48 ≤ d ≤ 57)%N.
Proof.
  unfold isDigit. intros H. apply andb_prop in H as [H1 H2].
  apply N.leb_le in H1. apply N.leb_le in H2. lia.
Qed.

Lemma digits_no_arrow ds :
  forallb isDigit ds = true → includes ds (str "-->") = false.
Proof.
  change (str "-->") with [45; 45; 62]%N.
  induction ds as [|d ds IH]; [done|]. simpl. intros H.
  apply andb_prop in H as [Hd Hds].
  destruct (digit_not_space d Hd) as (_ & Hm & _). rewrite Hm. simpl.
  by apply IH.
Qed.

Lemma vtt_time st :
  is_norm_time st = true →
  ∃ a b c d e f g h i,
    st = [a; b; 58; c; d; 58; e; f; 44; g; h; i]%N
    ∧ replace_first 44 46 st = [a; b; 58; c; d; 58; e; f; 46; g; h; i]%N
    ∧ isDigit a = true ∧ isDigit b = true ∧ isDigit c = true
    ∧ isDigit d = true ∧ isDigit e = true ∧ isDigit f = true
    ∧ isDigit g = true ∧ isDigit h = true ∧ isDigit i = true.
Proof.
  intros Hs. norm_times. eexists _, _, _, _, _, _, _, _, _.
  split; [done|]. split; [|done].
  repeat match goal with
  | H : isDigit ?c = true |- _ =>
      destruct (digit_not_sep c H) as (_ & _ & ?); revert H
  end; intros.
  eval_chars2. done.
Qed.

Lemma vtt_timeline st en :
  is_norm_time st = true → is_norm_time en = true →
  nonl (replace_first 44 46 st ++ str " --> " ++ replace_first 44 46 en) = true
  ∧ nocr (replace_first 44 46 st ++ str " --> " ++ replace_first 44 46 en) = true
  ∧ starts_nonblank (replace_first 44 46 st ++ str " --> " ++ replace_first 44 46 en)
  ∧ search (arrow_at vtt_ts)
      (replace_first 44 46 st ++ str " --> " ++ replace_first 44 46 en)
    = Some (replace_first 44 46 st, replace_first 44 46 en)
  ∧ replace_first 46 44 (vtt_add_hours (replace_first 44 46 st)) = st
  ∧ replace_first 46 44 (vtt_add_hours (replace_first 44 46 en)) = en.
Proof.
  intros Hs He.
  apply vtt_time in Hs as (a & b & c & d & e & f & g & h & i & -> & -> & Hs).
  apply vtt_time in He as (a0 & b0 & c0 & d0 & e0 & f0 & g0 & h0 & i0 & -> & -> & He).
  destruct Hs as (Ha & Hb & Hc & Hd & He' & Hf & Hg & Hh & Hi).
  destruct He as (Ha0 & Hb0 & Hc0 & Hd0 & He0 & Hf0 & Hg0 & Hh0 & Hi0).
  assert (forallb timechar ([a; b; 58; c; d; 58; e; f; 46; g; h; i]%N ++ str " --> "
            ++ [a0; b0; 58; c0; d0; 58; e0; f0; 46; g0; h0; i0]%N) = true) as Ht.
  { unfold timechar. eval_chars2. done. }
  apply timechar_plain in Ht as [? ?].
  destruct (digit_not_space a Ha) as (? & _).
  destruct (digit_not_space a0 Ha0) as (? & _).
  split; [done|]. split; [done|]. split; [done|].
  split; [|split].
  - apply search_here.
    unfold arrow_at, vtt_ts, m_alt, m_seq, m_digits, m_lit, m_ws.
    eval_chars2. done.
  - clear - Ha Hb Hc Hd He' Hf Hg Hh Hi.
    repeat match goal with
    | H : isDigit ?c = true |- _ =>
        destruct (digit_not_sep c H) as (? & ? & _); revert H
    end; intros.
    unfold vtt_add_hours. eval_chars2. done.
  - clear - Ha0 Hb0 Hc0 Hd0 He0 Hf0 Hg0 Hh0 Hi0.
    repeat match goal with
    | H : isDigit ?c = true |- _ =>
        destruct (digit_not_sep c H) as (? & ? & _); revert H
    end; intros.
    unfold vtt_add_hours. eval_chars2. done.
Qed.

Lemma vtt_cue_tight i s :
  caption_ok s = true →
  no_blank_line (cue i (replace_first 44 46 (startTime s))
                     (replace_first 44 46 (endTime s)) (text s)) = true
  ∧ starts_nonblank (cue i (replace_first 44 46 (startTime s))
                           (replace_first 44 46 (endTime s)) (text s))
  ∧ nocr (cue i (replace_first 44 46 (startTime s))
                (replace_first 44 46 (endTime s)) (text s)) = true.
Proof.
  unfold caption_ok. intros Hok.
  apply andb_prop in Hok as [Hok Htxt]. apply andb_prop in Hok as [Hs He].
  destruct (vtt_timeline _ _ Hs He) as (? & ? & ? & _). by apply cue_tight.
Qed.

Lemma parseVTT_block_cue idx acc i s tail :
  caption_ok s = true → tail = [] ∨ tail = [NL] →
  parseVTT_block (idx, acc)
    (cue i (replace_first 44 46 (startTime s)) (replace_first 44 46 (endTime s))
         (text s) ++ tail)
  = ((idx + 1)%Z,
     acc ++ [mkSubtitle (idx + 1) (startTime s) (endTime s)
                        (strip_tags 60 62 false (text s))]).
Proof.
  intros Hok Htail. unfold caption_ok in Hok.
  apply andb_prop in Hok as [Hok Htxt]. apply andb_prop in Hok as [Hs He].
  apply text_ok_tight in Htxt as (_ & Hlines & _ & _).
  destruct (cue_number i) as (d & ds & Enum & Hd & Hds & Hnl & _ & _).
  destruct (vtt_timeline _ _ Hs He) as (Htl & _ & Hst & Harrow & Hks & Hke).
  destruct (digit_not_space d Hd) as (Hsp & _).
  pose proof (digit_range d Hd) as Hrange.
  unfold parseVTT_block. rewrite cue_assoc, Enum.
  set (timeline := replace_first 44 46 (startTime s) ++ str " --> "
                   ++ replace_first 44 46 (endTime s)) in *.
  destruct (trim_head d (ds ++ NL :: timeline ++ NL :: (text s ++ tail)) Hsp)
    as (r & Htrim).
  change ((d :: ds) ++ NL :: ?x) with (d :: (ds ++ NL :: x)).
  rewrite Htrim.
  assert (jsstring_eqb (d :: r) (str "WEBVTT") = false) as ->.
  { apply bool_decide_eq_false_2. intros [= -> _]. lia. }
  assert (startsWith (d :: ds ++ NL :: timeline ++ NL :: (text s ++ tail))
            (str "NOTE") = false) as ->.
  { change (str "NOTE") with [78; 79; 84; 69]%N. simpl.
    destruct (N.eqb_spec d 78) as [->|_]; [lia|done]. }
  simpl orb. cbv iota.
  change (d :: (ds ++ NL :: ?x)) with ((d :: ds) ++ NL :: x).
  rewrite lines_of_cue; try done.
  assert (includes (d :: ds) (str "-->") = false) as ->.
  { apply digits_no_arrow. simpl. by rewrite Hd. }
  simpl. rewrite Harrow, Hks, Hke.
  by rewrite drop_0, join_split_char.
Qed.

Lemma parseVTT_fold_cues subtitles :
  ∀ k idx acc,
    Forall (fun s => caption_ok s = true) subtitles →
    fold_left parseVTT_block
      (add_nl_last
         (imap (fun i s => cue (k + i) (replace_first 44 46 (startTime s))
                               (replace_first 44 46 (endTime s)) (text s))
               subtitles)) (idx, acc)
    = ((idx + Z.of_nat (length subtitles))%Z,
       acc ++ imap (fun i s => mkSubtitle (idx + Z.of_nat i + 1) (startTime s)
                                 (endTime s) (strip_tags 60 62 false (text s)))
                   subtitles).
Proof.
  induction subtitles as [|s rest IH]; intros k idx acc Hall.
  - simpl. rewrite app_nil_r. f_equal. lia.
  - apply Forall_cons in Hall as [Hs Hrest].
    rewrite (imap_shift (fun i s => cue i (replace_first 44 46 (startTime s))
                                        (replace_first 44 46 (endTime s)) (text s))).
    destruct rest as [|s' rest'].
    + cbn [imap add_nl_last fold_left length].
      rewrite parseVTT_block_cue by auto.
      repeat (f_equal; try lia).
    + rewrite add_nl_last_cons by done. rewrite fold_left_step.
      rewrite <- (app_nil_r (cue k _ _ _)).
      rewrite parseVTT_block_cue by auto.
      rewrite IH by done. f_equal.
      * simpl length. lia.
      * rewrite <- app_assoc. f_equal. simpl. f_equal.
        -- f_equal. lia.
        -- f_equal.
           ++ f_equal. lia.
           ++ apply imap_ext. intros i y _. simpl. f_equal. lia.
Qed.

Lemma parseVTT_toVTT subtitles :
  Forall (fun s => caption_ok s = true) subtitles →
  parseVTT (toVTT subtitles)
  = imap (fun i s => mkSubtitle (Z.of_nat i + 1) (startTime s) (endTime s)
                                (strip_tags 60 62 false (text s))) subtitles.
Proof.
  intros Hall. destruct subtitles as [|s0 rest]; [by vm_compute|].
  unfold parseVTT, toVTT, blocks_of. cbv zeta.
  set (cues := imap _ (s0 :: rest)).
  destruct (blocks_of_body cues) as (Hcr & Hsplit & Hfilter); [done| |].
  { apply (Forall_imap _ (fun s => caption_ok s = true)); [|done].
    intros i s Hs. by apply vtt_cue_tight. }
  rewrite <- app_assoc.
  rewrite normalizeLineEndings_nocr
    by (by rewrite (nocr_app (str "WEBVTT")), (nocr_app [NL; NL]), Hcr).
  change (str "WEBVTT" ++ [NL; NL] ++ join [NL; NL] cues ++ [NL])
    with (str "WEBVTT" ++ NL :: NL :: (join [NL; NL] cues ++ [NL])).
  rewrite split_blank_block by done.
  rewrite split_blank_skip.
  2:{ subst cues. simpl imap.
      destruct (cue_number 0) as (d & ds & Enum & Hd & _).
      destruct (digit_not_space d Hd) as (_ & _ & _ & Hnl & _).
      unfold cue at 1. rewrite Enum. by destruct (imap _ rest). }
  rewrite Hsplit.
  change (List.filter ?p (str "WEBVTT" :: ?l)) with (str "WEBVTT" :: List.filter p l).
  rewrite Hfilter, fold_left_step.
  change (parseVTT_block (0%Z, []) (str "WEBVTT")) with (0%Z, @nil Subtitle).
  subst cues.
  match goal with |- snd ?F = _ =>
    assert (F = ((0 + Z.of_nat (length (s0 :: rest)))%Z,
                 [] ++ imap (fun i s => mkSubtitle (0 + Z.of_nat i + 1) (startTime s)
                                          (endTime s) (strip_tags 60 62 false (text s)))
                            (s0 :: rest))) as ->
      by apply (parseVTT_fold_cues (s0 :: rest) 0 0%Z [] Hall)
  end.
  done.
Qed.

(** *** AdvancedSubStation *)

Lemma toASS_time st :
  is_norm_time st = true →
  ∃ a b c d e f g i j h,
    st = [a; b; 58; c; d; 58; e; f; 44; g; i; j]%N
    ∧ toASS_formatTime st = ass_written h c d e f g i
    ∧ h ≠ [] ∧ forallb isDigit h = true ∧ padStart 2 48 h = [a; b]
    ∧ isDigit c = true ∧ isDigit d = true ∧ isDigit e = true
    ∧ isDigit f = true ∧ isDigit g = true ∧ isDigit i = true.
Proof.
  intros Hs.
  apply norm_time_inv in Hs as (a & b & c & d & e & f & g & i & j & -> & Hs).
  destruct Hs as (Ha & Hb & Hc & Hd & He & Hf & Hg & Hi & Hj).
  destruct (hours_roundtrip a b Ha Hb) as (h & Hh & Hne & Hhd & Hpad).
  exists a, b, c, d, e, f, g, i, j, h. split; [done|].
  split; [|done].
  unfold toASS_formatTime.
  rewrite (search_here srt_time_at _ ([a; b], [c; d], [e; f], [g; i; j])).
  - rewrite Hh. unfold ass_written. by eval_str.
  - unfold srt_time_at, m_seq, m_digits, m_lit. eval_chars2. done.
Qed.

Lemma dropWhile_app_stop p (h : jsstring) c r :
  forallb p h = true → p c = false → dropWhile p (h ++ c :: r) = c :: r.
Proof.
  intros Hh Hc. induction h as [|d h IH]; simpl.
  - by rewrite Hc.
  - simpl in Hh. apply andb_prop in Hh as [Hd Hh]. rewrite Hd. by apply IH.
Qed.

Lemma parseASS_time h c d e f g i :
  h ≠ [] → forallb isDigit h = true →
  isDigit c = true → isDigit d = true → isDigit e = true →
  isDigit f = true → isDigit g = true → isDigit i = true →
  parseASS_formatTime (ass_written h c d e f g i)
  = padStart 2 48 h ++ [58; c; d; 58; e; f; 44; g; i; 48]%N.
Proof.
  intros Hne Hh Hc Hd He Hf Hg Hi. unfold parseASS_formatTime, ass_written.
  rewrite (search_here ass_time_at _ (h, [c; d], [e; f], [g; i])).
  - by eval_str.
  - unfold ass_time_at, m_digits1.
    rewrite takeWhile_app_stop, dropWhile_app_stop by done.
    destruct h as [|x h]; [done|].
    unfold m_seq, m_digits, m_lit. eval_chars2. done.
Qed.

Lemma ass_written_plain h c d e f g i :
  h ≠ [] → forallb isDigit h = true →
  isDigit c = true → isDigit d = true → isDigit e = true →
  isDigit f = true → isDigit g = true → isDigit i = true →
  nocomma (ass_written h c d e f g i) = true
  ∧ nonl (ass_written h c d e f g i) = true
  ∧ nocr (ass_written h c d e f g i) = true
  ∧ trim (ass_written h c d e f g i) = ass_written h c d e f g i
  ∧ ∃ x r, ass_written h c d e f g i = x :: r.
Proof.
  intros Hne Hh Hc Hd He Hf Hg Hi. unfold ass_written.
  assert (forallb timechar (h ++ [58; c; d; 58; e; f; 46; g; i]%N) = true) as Ht.
  { rewrite forallb_app. apply andb_true_intro. split.
    - clear -Hh. induction h as [|x h IH]; [done|]. simpl in *.
      apply andb_prop in Hh as [Hx Hh]. unfold timechar at 1. rewrite Hx. simpl.
      by apply IH.
    - unfold timechar. eval_chars2. done. }
  destruct (timechar_plain _ Ht) as [Hnl Hcr].
  split; [|split; [done|split; [done|split]]].
  - unfold nocomma. rewrite forallb_app. apply andb_true_intro. split.
    + clear -Hh. induction h as [|x h IH]; [done|]. simpl in *.
      apply andb_prop in Hh as [Hx Hh].
      destruct (digit_not_sep x Hx) as (_ & _ & ->). simpl. by apply IH.
    + destruct (digit_not_sep c Hc) as (_ & _ & ?).
      destruct (digit_not_sep d Hd) as (_ & _ & ?).
      destruct (digit_not_sep e He) as (_ & _ & ?).
      destruct (digit_not_sep f Hf) as (_ & _ & ?).
      destruct (digit_not_sep g Hg) as (_ & _ & ?).
      destruct (digit_not_sep i Hi) as (_ & _ & ?).
      eval_chars2. done.
  - destruct h as [|x h]; [done|]. simpl in Hh.
    apply andb_prop in Hh as [Hx _].
    destruct (digit_not_space x Hx) as (Hsx & _).
    destruct (digit_not_space i Hi) as (Hsi & _).
    change ((x :: h) ++ [58; c; d; 58; e; f; 46; g; i]%N)
      with (x :: h ++ [58; c; d; 58; e; f; 46; g]%N ++ [i]).
    rewrite app_assoc. by apply trim_inner.
  - destruct h as [|x h]; [done|]. by eexists _, _.
Qed.

(** The fields of a line written by [toASS], as [parseASS] splits them. *)
Lemma dialogue_values start end_ txt :
  nocomma start = true → nocomma end_ = true →
  split_char 44
    (substring_from 9
       (str "Dialogue: 0," ++ start ++ str "," ++ end_
        ++ str ",Default,,0,0,0,," ++ txt))
  = [32; 48]%N :: start :: end_ :: str "Default" :: [] :: [48%N] :: [48%N]
    :: [48%N] :: [] :: split_char 44 txt.
Proof.
  intros Hs He. eval_str. unfold substring_from.
  change (drop 9 ([68; 105; 97; 108; 111; 103; 117; 101; 58; 32; 48; 44]%N ++ ?x))
    with ([32; 48]%N ++ 44%N :: x).
  rewrite (split_char_app 44 [32; 48]%N).
  change ([44%N] ++ ?x) with (44%N :: x).
  rewrite (split_char_app 44 start), (split_char_none 44 start) by done.
  change ([44; 68; 101; 102; 97; 117; 108; 116; 44; 44; 48; 44; 48; 44; 48; 44; 44]%N
          ++ txt)
    with (44%N :: ([68; 101; 102; 97; 117; 108; 116; 44; 44; 48; 44; 48; 44; 48; 44; 44]%N
          ++ txt)).
  rewrite (split_char_app 44 end_), (split_char_none 44 end_) by done.
  done.
Qed.

Lemma header_state :
  fold_left parseASS_line ass_header_lines (mkAssState false [] 0%Z [])
  = mkAssState true ass_fields 0%Z [].
Proof. by vm_compute. Qed.

Lemma dialogue_line_tests x :
  jsstring_eqb (trim (str "Dialogue: 0," ++ x)) (str "[Events]") = false
  ∧ startsWith (str "Dialogue: 0," ++ x) (str "[") = false
  ∧ startsWith (str "Dialogue: 0," ++ x) (str "Format:") = false
  ∧ startsWith (str "Dialogue: 0," ++ x) (str "Dialogue:") = true.
Proof.
  eval_str. split; [|done].
  change ([68; 105; 97; 108; 111; 103; 117; 101; 58; 32; 48; 44]%N ++ x)
    with (68%N :: ([105; 97; 108; 111; 103; 117; 101; 58; 32; 48; 44]%N ++ x)).
  destruct (trim_head 68 ([105; 97; 108; 111; 103; 117; 101; 58; 32; 48; 44]%N ++ x))
    as (r & ->); [done|].
  by apply bool_decide_eq_false_2.
Qed.

Lemma ass_field_positions :
  indexOf_str ass_fields (str "start") = 1%Z
  ∧ indexOf_str ass_fields (str "end") = 2%Z
  ∧ indexOf_str ass_fields (str "text") = 9%Z.
Proof. by vm_compute. Qed.

Lemma parseASS_line_dialogue idx acc s :
  is_norm_time (startTime s) = true → is_norm_time (endTime s) = true →
  parseASS_line (mkAssState true ass_fields idx acc) (dialogue s)
  = mkAssState true ass_fields (idx + 1)
      (acc ++ [mkSubtitle (idx + 1) (take 11 (startTime s) ++ [48%N])
                          (take 11 (endTime s) ++ [48%N]) (ass_text (text s))]).
Proof.
  intros Hs He.
  apply toASS_time in Hs
    as (a & b & c & d & e & f & g & i & j & h & Est & Hfs & Hne & Hh & Hpad & Hd).
  apply toASS_time in He
    as (a' & b' & c' & d' & e' & f' & g' & i' & j' & h' & Een & Hfe & Hne' & Hh' & Hpad' & Hd').
  destruct Hd as (Hc & Hd & He & Hf & Hg & Hi).
  destruct Hd' as (Hc' & Hd' & He' & Hf' & Hg' & Hi').
  destruct (ass_written_plain h c d e f g i) as (Hcs & _ & _ & Hts & xs & rs & Exs);
    try done.
  destruct (ass_written_plain h' c' d' e' f' g' i') as (Hce & _ & _ & Hte & xe & re & Exe);
    try done.
  destruct (dialogue_line_tests
              (ass_written h c d e f g i ++ str "," ++ ass_written h' c' d' e' f' g' i'
               ++ str ",Default,,0,0,0,," ++ replace_nl_slashN (text s)))
    as (T1 & T2 & T3 & T4).
  destruct ass_field_positions as (P1 & P2 & P3).
  unfold parseASS_line, dialogue. cbv zeta. rewrite Hfs, Hfe.
  rewrite T1, T2, T3, T4.
  cbn [inEvents formatFields assIndex assSubtitles andb negb].
  rewrite P1, P2, P3.
  rewrite dialogue_values by done.
  cbn [andb negb orb Z.eqb].
  unfold at_index. cbn [Z.ltb Z.compare].
  change (Z.to_nat 1) with 1. change (Z.to_nat 2) with 2.
  change (Z.to_nat 9) with 9.
  cbn [lookup list_lookup fmap option_fmap option_map skipn].
  rewrite Hts, Hte, Exs, Exe, <- Exs, <- Exe.
  rewrite !parseASS_time by done. rewrite Hpad, Hpad'.
  rewrite drop_0, join_split_char. rewrite Est, Een. done.
Qed.

Lemma replace_nl_slashN_plain t :
  nonl (replace_nl_slashN t) = true
  ∧ (nocr t = true → nocr (replace_nl_slashN t) = true).
Proof.
  unfold replace_nl_slashN. induction t as [|c t [IH1 IH2]]; [done|].
  simpl. rewrite nonl_app, nocr_app, IH1. split.
  - destruct (N.eqb_spec c NL) as [->|Hne]; [done|].
    simpl. apply N.eqb_neq in Hne. by rewrite Hne.
  - intros H. apply andb_prop in H as [Hc Ht]. rewrite (IH2 Ht).
    destruct (N.eqb_spec c NL) as [->|Hne]; [done|]. simpl. by rewrite Hc.
Qed.

Lemma dialogue_plain s :
  caption_ok s = true → nonl (dialogue s) = true ∧ nocr (dialogue s) = true.
Proof.
  unfold caption_ok. intros Hok.
  apply andb_prop in Hok as [Hok Htxt]. apply andb_prop in Hok as [Hs He].
  apply text_ok_tight in Htxt as (Hcr & _).
  apply toASS_time in Hs
    as (a & b & c & d & e & f & g & i & j & h & Est & Hfs & Hne & Hh & Hpad & Hd).
  apply toASS_time in He
    as (a' & b' & c' & d' & e' & f' & g' & i' & j' & h' & Een & Hfe & Hne' & Hh' & Hpad' & Hd').
  destruct Hd as (Hc & Hd & He & Hf & Hg & Hi).
  destruct Hd' as (Hc' & Hd' & He' & Hf' & Hg' & Hi').
  destruct (ass_written_plain h c d e f g i) as (_ & Hnl1 & Hcr1 & _); try done.
  destruct (ass_written_plain h' c' d' e' f' g' i') as (_ & Hnl2 & Hcr2 & _); try done.
  destruct (replace_nl_slashN_plain (text s)) as [Hnl3 Hcr3].
  unfold dialogue. cbv zeta. rewrite Hfs, Hfe.
  rewrite !nonl_app, !nocr_app, Hnl1, Hnl2, Hnl3, Hcr1, Hcr2, Hcr3 by done.
  by vm_compute.
Qed.

Lemma split_lines_header lines rest :
  Forall (fun l => nonl l = true) lines →
  split_char NL (flat_map (fun l => l ++ [NL]) lines ++ rest)
  = lines ++ split_char NL rest.
Proof.
  intros Hall. induction Hall as [|l ls Hl Hls IH]; [done|].
  simpl. rewrite <- !app_assoc. simpl.
  rewrite (split_char_app NL l), (split_char_none NL l) by done.
  by rewrite IH.
Qed.

Lemma split_lines_join ds :
  ds ≠ [] → Forall (fun l => nonl l = true) ds →
  split_char NL (join [NL] ds ++ [NL]) = ds ++ [[]].
Proof.
  intros Hne Hall. induction Hall as [|l ls Hl Hls IH]; [done|].
  destruct ls as [|m ls].
  - simpl. rewrite (split_char_app NL l), (split_char_none NL l) by done. done.
  - rewrite join_cons.
    replace ((l ++ [NL] ++ join [NL] (m :: ls)) ++ [NL])
      with (l ++ NL :: (join [NL] (m :: ls) ++ [NL]))
      by (by rewrite <- !app_assoc).
    rewrite (split_char_app NL l), (split_char_none NL l) by done.
    by rewrite IH.
Qed.

Lemma parseASS_line_empty idx acc :
  parseASS_line (mkAssState true ass_fields idx acc) []
  = mkAssState true ass_fields idx acc.
Proof. done. Qed.

Lemma parseASS_fold_dialogues subtitles :
  ∀ idx acc,
    Forall (fun s => caption_ok s = true) subtitles →
    fold_left parseASS_line (map dialogue subtitles)
              (mkAssState true ass_fields idx acc)
    = mkAssState true ass_fields (idx + Z.of_nat (length subtitles))
        (acc ++ imap (fun i s => mkSubtitle (idx + Z.of_nat i + 1)
                                   (take 11 (startTime s) ++ [48%N])
                                   (take 11 (endTime s) ++ [48%N])
                                   (ass_text (text s))) subtitles).
Proof.
  induction subtitles as [|s rest IH]; intros idx acc Hall.
  - simpl. rewrite app_nil_r. f_equal. lia.
  - apply Forall_cons in Hall as [Hs Hrest].
    unfold caption_ok in Hs.
    apply andb_prop in Hs as [Hs _]. apply andb_prop in Hs as [Hst Hen].
    cbn [map]. rewrite fold_left_step, parseASS_line_dialogue by done.
    rewrite IH by done. f_equal.
    + simpl length. lia.
    + rewrite <- app_assoc. f_equal. simpl. f_equal.
      * f_equal. lia.
      * apply imap_ext. intros i y _. simpl. f_equal. lia.
Qed.

Lemma header_lines_nonl : Forall (fun l => nonl l = true) ass_header_lines.
Proof.
  unfold ass_header_lines. repeat (constructor; [by vm_compute|]). constructor.
Qed.

Lemma parseASS_toASS subtitles :
  Forall (fun s => caption_ok s = true) subtitles →
  parseASS (toASS subtitles)
  = imap (fun i s => mkSubtitle (Z.of_nat i + 1) (take 11 (startTime s) ++ [48%N])
                                (take 11 (endTime s) ++ [48%N]) (ass_text (text s)))
         subtitles.
Proof.
  intros Hall. destruct subtitles as [|s0 rest]; [by vm_compute|].
  unfold parseASS, toASS.
  assert (Forall (fun l => nonl l = true ∧ nocr l = true)
                 (map dialogue (s0 :: rest))) as Hds.
  { apply Forall_fmap. eapply Forall_impl; [exact Hall|].
    intros s Hs. by apply dialogue_plain. }
  assert (nocr (join [NL] (map dialogue (s0 :: rest))) = true) as Hj.
  { apply nocr_join; [done|].
    eapply Forall_impl; [exact Hds|]. by intros l [_ ?]. }
  rewrite normalizeLineEndings_nocr
    by (rewrite !nocr_app, Hj; by vm_compute).
  unfold ass_header. rewrite split_lines_header by apply header_lines_nonl.
  rewrite split_lines_join; [|done|].
  2:{ eapply Forall_impl; [exact Hds|]. by intros l [? _]. }
  rewrite !fold_left_app, header_state.
  rewrite parseASS_fold_dialogues by done.
  cbn [fold_left]. rewrite parseASS_line_empty. done.
Qed.



(** *** what [parseSRT] returns can be serialized and parsed back *)

Lemma replace_cr_is_nocr s : nocr (replace_cr s) = true.
Proof.
  induction s as [|c s IH]; [done|]. simpl. rewrite IH.
  destruct (N.eqb_spec c CR) as [->|Hne]; [done|].
  apply N.eqb_neq in Hne. by rewrite Hne.
Qed.

Lemma cons_head_nocr c ps :
  (c =? CR)%N = false → Forall (fun p => nocr p = true) ps →
  Forall (fun p => nocr p = true) (cons_head c ps).
Proof.
  intros Hc Hps. destruct Hps as [|p ps Hp Hps]; simpl.
  - constructor; [simpl; by rewrite Hc|constructor].
  - constructor; [simpl; by rewrite Hc, Hp|done].
Qed.

Lemma split_blank_nocr_le n :
  ∀ s skipping, length s ≤ n → nocr s = true →
                Forall (fun p => nocr p = true) (split_blank skipping s).
Proof.
  induction n as [|n IH]; intros s skipping Hlen H.
  - destruct s; [by repeat constructor|simpl in Hlen; lia].
  - destruct s as [|c s]; [by repeat constructor|].
    simpl in H, Hlen. apply andb_prop in H as [Hc Hs]. apply negb_true_iff in Hc.
    simpl. destruct (skipping && (c =? NL)%N); [apply IH; [lia|done]|].
    destruct s as [|d s'].
    + constructor; [simpl; by rewrite Hc|constructor].
    + destruct ((c =? NL)%N && (d =? NL)%N).
      * constructor; [done|]. simpl in Hs, Hlen.
        apply andb_prop in Hs as [_ ?]. apply IH; [lia|done].
      * apply cons_head_nocr; [done|]. apply IH; [lia|done].
Qed.

Lemma split_blank_nocr s skipping :
  nocr s = true → Forall (fun p => nocr p = true) (split_blank skipping s).
Proof. by apply (split_blank_nocr_le (length s)). Qed.

Lemma split_char_nocr sep s :
  nocr s = true → Forall (fun p => nocr p = true) (split_char sep s).
Proof.
  induction s as [|c s IH]; intros H; [by repeat constructor|].
  simpl in H. apply andb_prop in H as [Hc Hs]. apply negb_true_iff in Hc.
  simpl. destruct (c =? sep)%N; [constructor; [done|by apply IH]|].
  specialize (IH Hs). destruct (split_char sep s) as [|p ps].
  - constructor; [simpl; by rewrite Hc|constructor].
  - apply Forall_cons in IH as [Hp Hps].
    constructor; [simpl; by rewrite Hc, Hp|done].
Qed.

Lemma Forall_filter_bool {A} (P : A -> Prop) (p : A -> bool) l :
  Forall P l → Forall (fun x => P x ∧ p x = true) (List.filter p l).
Proof.
  intros Hall. induction Hall as [|x l Hx Hl IH]; [constructor|].
  simpl. destruct (p x) eqn:Hp; [constructor|]; done.
Qed.

Lemma blocks_of_nocr content :
  Forall (fun block => nocr block = true) (blocks_of content).
Proof.
  unfold blocks_of.
  eapply Forall_impl;
    [apply Forall_filter_bool, split_blank_nocr, replace_cr_is_nocr|].
  by intros b [? _].
Qed.

(** The lines of a block: none has a line feed, none is blank, and none
    has a carriage return when the block has none. *)
Lemma lines_of_plain block :
  nocr block = true →
  Forall (fun l => nocr l = true ∧ nonl l = true ∧ truthy (trim l) = true)
         (lines_of block).
Proof.
  intros Hcr. unfold lines_of.
  assert (Forall (fun l => nocr l = true ∧ nonl l = true) (split_char NL block)) as H.
  { pose proof (split_char_nocr NL block Hcr) as H1.
    pose proof (split_char_nosep NL block) as H2.
    rewrite Forall_forall in H1, H2. apply Forall_forall. intros l Hl.
    split; [by apply H1|by apply H2]. }
  eapply Forall_impl; [apply Forall_filter_bool, H|].
  by intros l [[? ?] ?].
Qed.

Lemma split_char_join lines :
  lines ≠ [] → Forall (fun l => nonl l = true) lines →
  split_char NL (join [NL] lines) = lines.
Proof.
  intros Hne Hall. induction Hall as [|l ls Hl Hls IH]; [done|].
  destruct ls as [|m ls].
  - simpl. by apply split_char_none.
  - rewrite join_cons.
    change (l ++ [NL] ++ join [NL] (m :: ls)) with (l ++ NL :: join [NL] (m :: ls)).
    rewrite (split_char_app NL l), (split_char_none NL l) by done.
    by rewrite IH.
Qed.

Lemma joined_lines_ok lines :
  lines ≠ [] →
  Forall (fun l => nocr l = true ∧ nonl l = true ∧ truthy (trim l) = true) lines →
  text_ok (join [NL] lines) = true.
Proof.
  intros Hne Hall. unfold text_ok. apply andb_true_intro. split.
  - apply nocr_join; [done|]. eapply Forall_impl; [exact Hall|]. by intros l (? & _).
  - rewrite split_char_join; [|done|].
    + apply forallb_forall. intros l Hl. rewrite Forall_forall in Hall.
      apply list_elem_of_In in Hl. by destruct (Hall l Hl) as (_ & _ & ?).
    + eapply Forall_impl; [exact Hall|]. by intros l (_ & ? & _).
Qed.

(** Every caption that [parseSRT] returns satisfies the conditions of the
    round trip. *)
Lemma parseSRT_captions_ok content :
  Forall (fun s => caption_ok s = true) (parseSRT content).
Proof.
  apply Forall_forall. intros s Hin.
  apply parseSRT_new in Hin
    as (block & Hb & (l0 & l1 & rest & Hlines & _ & Htext & Hrest) & Hs & He).
  unfold caption_ok. rewrite Hs, He, Htext. simpl.
  pose proof (blocks_of_nocr content) as Hcr. rewrite Forall_forall in Hcr.
  pose proof (lines_of_plain block (Hcr block Hb)) as Hl.
  rewrite Hlines in Hl.
  apply Forall_cons in Hl as [_ Hl]. apply Forall_cons in Hl as [_ Hl].
  by apply joined_lines_ok.
Qed.

(** A SubRip file that is parsed, written and parsed again gives the same
    captions, renumbered from 1. *)
Lemma parseSRT_stable content :
  parseSRT (toSRT (parseSRT content))
  = imap (fun i s => mkSubtitle (Z.of_nat i + 1) (startTime s) (endTime s) (text s))
         (parseSRT content).
Proof. apply parseSRT_toSRT, parseSRT_captions_ok. Qed.

(** ** Format detection *)

Lemma last_split_ext base ext :
  lacks 46 ext = true → last (split_char 46 (base ++ 46%N :: ext)) = Some ext.
Proof.
  intros H. rewrite (split_char_app 46 base), (split_char_none 46 ext) by done.
  apply last_snoc.
Qed.

(** X1.  A file name whose extension is [vtt], [ass], [ssa] or [srt], in
    any letter case, decides the format whatever the content is; with any
    other extension, or no name, the format is the one sniffed from the
    content. *)
Theorem detectFormat_extension (content base ext : jsstring) :
  lacks 46 ext = true →
  detectFormat content (Some (base ++ 46%N :: ext))
  = match format_of_ext (toLowerCase ext) with
    | Some format => format
    | None => detectFormat content None
    end.
Proof.
  intros Hext. unfold detectFormat, format_of_ext.
  assert (nonempty (Some (base ++ 46%N :: ext)) = Some (base ++ 46%N :: ext)) as ->
    by (by destruct base).
  cbv zeta. rewrite last_split_ext by done. simpl fmap. simpl nonempty.
  repeat match goal with
  | |- context [bool_decide (Some ?a = Some ?b)] =>
      replace (bool_decide (Some a = Some b)) with (bool_decide (a = b))
        by (apply bool_decide_ext; split; [by intros ->|by intros [= ->]])
  end.
  by repeat case_bool_decide.
Qed.

Lemma trimEnd_keep a c b :
  isSpace c = false → ∃ r, trimEnd (a ++ c :: b) = a ++ c :: r.
Proof.
  intros Hc. unfold trimEnd. rewrite rev_app_distr. simpl rev.
  rewrite <- app_assoc. simpl.
  destruct (dropWhile_app_keep isSpace (rev b) c (rev a) Hc) as [r ->].
  exists (rev r). rewrite rev_app_distr. simpl. by rewrite rev_involutive, <- app_assoc.
Qed.

(** [trim] keeps a prefix that starts and ends with characters that are no
    white space. *)
Lemma trim_keep_prefix x a c b :
  isSpace x = false → isSpace c = false →
  ∃ r, trim ((x :: a) ++ c :: b) = (x :: a) ++ c :: r.
Proof.
  intros Hx Hc. unfold trim, trimStart. simpl dropWhile. rewrite Hx.
  apply (trimEnd_keep (x :: a) c b Hc).
Qed.

Lemma includes_prefix s sub : startsWith s sub = true → includes s sub = true.
Proof. intros H. destruct s; simpl in *; by rewrite H. Qed.

Lemma startsWith_prefix p s : startsWith (p ++ s) p = true.
Proof. induction p as [|c p IH]; simpl; [by destruct s|]. by rewrite N.eqb_refl. Qed.

(** X2.  Without a file name, what [toVTT] writes is detected as WebVTT and
    what [toASS] writes as AdvancedSubStation, for every caption sequence;
    what [toSRT] writes is never detected as WebVTT, and is detected as
    SubRip unless one of the two AdvancedSubStation markers occurs in it. *)
Theorem detectFormat_of_serialized (subtitles : list Subtitle) :
  detectFormat (toVTT subtitles) None = vtt
  ∧ detectFormat (toASS subtitles) None = ass
  ∧ detectFormat (toSRT subtitles) None
    = (if includes (toSRT subtitles) (str "[Script Info]")
          || includes (toSRT subtitles) (str "Format: Layer")
       then ass else srt).
Proof.
  unfold detectFormat. simpl nonempty. cbv zeta. split; [|split].
  - assert (∃ rest, toVTT subtitles = (87 :: [69;66;86;84])%N ++ 84%N :: rest)
      as [rest ->] by (by eexists).
    destruct (trim_keep_prefix 87 [69;66;86;84]%N 84 rest eq_refl eq_refl) as [r ->].
    change ((87 :: [69;66;86;84])%N ++ 84%N :: r) with (str "WEBVTT" ++ r).
    by rewrite startsWith_prefix.
  - assert (∃ rest, toASS subtitles = str "[Script Info]" ++ rest) as [rest Hrest].
    { unfold toASS.
      assert (∃ r, ass_header = str "[Script Info]" ++ r) as [r ->]
        by (eexists; vm_compute; reflexivity).
      rewrite <- app_assoc. by eexists. }
    rewrite Hrest, (includes_prefix _ _ (startsWith_prefix _ _)).
    destruct (trim_head 91 (str "Script Info]" ++ rest) eq_refl) as [r Hr].
    change (str "[Script Info]" ++ rest) with (91%N :: str "Script Info]" ++ rest).
    rewrite Hr. by vm_compute.
  - assert (startsWith (trim (toSRT subtitles)) (str "WEBVTT") = false) as ->; [|done].
    unfold toSRT. destruct subtitles as [|s rest]; [by vm_compute|].
    assert (∃ r, join [NL; NL]
      (imap (fun i sub => cue i (startTime sub) (endTime sub) (text sub)) (s :: rest))
      ++ [NL] = 49%N :: r) as [r ->].
    { simpl imap. unfold cue at 1. change (numToString (Z.of_nat 0 + 1)) with [49%N].
      destruct (imap _ rest); simpl; eauto. }
    destruct (trim_head 49 r eq_refl) as [r' ->]. by vm_compute.
Qed.

(** ** Time conversion *)

Lemma pad2_table : forallb (pad_reads_back 2) (seq 0 100) = true.
Proof. by vm_compute. Qed.

Lemma pad3_table : forallb (pad_reads_back 3) (seq 0 1000) = true.
Proof. by vm_compute. Qed.

Lemma pad2_spec n :
  (0 ≤ n < 100)%Z →
  ∃ a b, padStart 2 48 (numToString n) = [a; b]
         ∧ isDigit a = true ∧ isDigit b = true ∧ digitsVal [a; b] = n.
Proof.
  intros Hn. pose proof pad2_table as H. rewrite forallb_forall in H.
  specialize (H (Z.to_nat n)). rewrite in_seq in H.
  specialize (H ltac:(lia)). unfold pad_reads_back in H.
  rewrite Z2Nat.id in H by lia. cbv zeta in H.
  apply andb_prop in H as [H Hv]. apply andb_prop in H as [Hl Hd].
  apply Nat.eqb_eq in Hl. apply Z.eqb_eq in Hv.
  destruct (padStart 2 48 (numToString n)) as [|a [|b [|? ?]]]; try done.
  simpl in Hd. apply andb_prop in Hd as [Ha Hb]. apply andb_prop in Hb as [Hb _].
  by exists a, b.
Qed.

Lemma pad3_spec n :
  (0 ≤ n < 1000)%Z →
  ∃ a b c, padStart 3 48 (numToString n) = [a; b; c]
         ∧ isDigit a = true ∧ isDigit b = true ∧ isDigit c = true
         ∧ digitsVal [a; b; c] = n.
Proof.
  intros Hn. pose proof pad3_table as H. rewrite forallb_forall in H.
  specialize (H (Z.to_nat n)). rewrite in_seq in H.
  specialize (H ltac:(lia)). unfold pad_reads_back in H.
  rewrite Z2Nat.id in H by lia. cbv zeta in H.
  apply andb_prop in H as [H Hv]. apply andb_prop in H as [Hl Hd].
  apply Nat.eqb_eq in Hl. apply Z.eqb_eq in Hv.
  destruct (padStart 3 48 (numToString n)) as [|a [|b [|c [|? ?]]]]; try done.
  simpl in Hd. apply andb_prop in Hd as [Ha Hb]. apply andb_prop in Hb as [Hb Hc].
  apply andb_prop in Hc as [Hc _].
  by exists a, b, c.
Qed.

Lemma digitVal_range c : isDigit c = true → (0 ≤ digitVal c ≤ 9)%Z.
Proof.
  unfold isDigit, digitVal. intros H. apply andb_prop in H as [H1 H2].
  apply N.leb_le in H1. apply N.leb_le in H2. lia.
Qed.

Lemma digitVal_inj c d :
  isDigit c = true → isDigit d = true → digitVal c = digitVal d → c = d.
Proof.
  unfold isDigit, digitVal. intros H H'.
  apply andb_prop in H as [H1 H2]. apply andb_prop in H' as [H3 H4].
  apply N.leb_le in H1. apply N.leb_le in H2.
  apply N.leb_le in H3. apply N.leb_le in H4. lia.
Qed.

Lemma tens_range c : isTens c = true → isDigit c = true ∧ (0 ≤ digitVal c ≤ 5)%Z.
Proof.
  unfold isTens, isDigit, digitVal. intros H. apply andb_prop in H as [H1 H2].
  rewrite H1. apply N.leb_le in H1. apply N.leb_le in H2.
  split; [|lia]. apply N.leb_le. lia.
Qed.

(** [timeToMs] on a time in the normalized form, with comma or full stop. *)
Lemma timeToMs_norm a b c d e f sep g h i :
  isDigit a = true → isDigit b = true → isDigit c = true → isDigit d = true →
  isDigit e = true → isDigit f = true → isDigit g = true → isDigit h = true →
  isDigit i = true → isCommaOrDot sep = true →
  timeToMs [a; b; 58; c; d; 58; e; f; sep; g; h; i]%N
  = Some (digitsVal [a; b] * 3600000 + digitsVal [c; d] * 60000
          + digitsVal [e; f] * 1000 + digitsVal [g; h; i])%Z.
Proof.
  intros Ha Hb Hc Hd He Hf Hg Hh Hi Hsep. unfold timeToMs.
  rewrite (search_here _ _ ([a; b], [c; d], [e; f], [g; h; i])).
  - by rewrite !parseInt_digits by (simpl; rewrite ?Hb, ?Hd, ?Hf, ?Hh, ?Hi; done).
  - unfold time_at, m_digits12, m_seq, m_digits, m_lit, m_class.
    eval_str. simpl. rewrite Ha, Hb. simpl. rewrite Hc, Hd. simpl.
    rewrite He, Hf. simpl. rewrite Hsep. simpl. by rewrite Hg, Hh, Hi.
Qed.

Lemma msToSrtTime_fields ms :
  (0 ≤ ms < 360000000)%Z →
  ∃ a b c d e f g h i,
    msToSrtTime ms = [a; b; 58; c; d; 58; e; f; 44; g; h; i]%N
    ∧ isDigit a = true ∧ isDigit b = true ∧ isDigit c = true
    ∧ isDigit d = true ∧ isDigit e = true ∧ isDigit f = true
    ∧ isDigit g = true ∧ isDigit h = true ∧ isDigit i = true
    ∧ (digitsVal [a; b] * 3600000 + digitsVal [c; d] * 60000
       + digitsVal [e; f] * 1000 + digitsVal [g; h; i] = ms)%Z.
Proof.
  intros Hms. unfold msToSrtTime. cbv zeta.
  rewrite !Z.rem_mod_nonneg by lia.
  destruct (pad2_spec (ms / 3600000)) as (a & b & -> & Ha & Hb & Hab).
  { split; [apply Z.div_pos; lia|apply Z.div_lt_upper_bound; lia]. }
  destruct (pad2_spec (ms mod 3600000 / 60000)) as (c & d & -> & Hc & Hd & Hcd).
  { pose proof (Z.mod_pos_bound ms 3600000 ltac:(lia)).
    split; [apply Z.div_pos; lia|apply Z.div_lt_upper_bound; lia]. }
  destruct (pad2_spec (ms mod 60000 / 1000)) as (e & f & -> & He & Hf & Hef).
  { pose proof (Z.mod_pos_bound ms 60000 ltac:(lia)).
    split; [apply Z.div_pos; lia|apply Z.div_lt_upper_bound; lia]. }
  destruct (pad3_spec (ms mod 1000)) as (g & h & i & -> & Hg & Hh & Hi & Hghi).
  { apply Z.mod_pos_bound. lia. }
  exists a, b, c, d, e, f, g, h, i.
  repeat (split; [done|]).
  rewrite Hab, Hcd, Hef, Hghi. clear. Z.div_mod_to_equations. lia.
Qed.

(** X3.  For a whole number of milliseconds below one hundred hours,
    [msToSrtTime] writes a time of the form HH:MM:SS,mmm, and [timeToMs]
    reads the number back from it and from its WebVTT form. *)
Theorem timeToMs_msToSrtTime (ms : Z) :
  (0 ≤ ms < 360000000)%Z →
  is_norm_time (msToSrtTime ms) = true
  ∧ timeToMs (msToSrtTime ms) = Some ms
  ∧ timeToMs (msToVttTime ms) = Some ms.
Proof.
  intros Hms. unfold msToVttTime.
  destruct (msToSrtTime_fields ms Hms)
    as (a & b & c & d & e & f & g & h & i & -> & Ha & Hb & Hc & Hd & He & Hf
        & Hg & Hh & Hi & Hv).
  split; [|split].
  - unfold is_norm_time. simpl. by rewrite Ha, Hb, Hc, Hd, He, Hf, Hg, Hh, Hi.
  - by rewrite timeToMs_norm, Hv.
  - assert (replace_first 44 46 [a; b; 58; c; d; 58; e; f; 44; g; h; i]%N
            = [a; b; 58; c; d; 58; e; f; 46; g; h; i]%N) as ->.
    { destruct (digit_not_sep a Ha) as (_ & _ & Ha').
      destruct (digit_not_sep b Hb) as (_ & _ & Hb').
      destruct (digit_not_sep c Hc) as (_ & _ & Hc').
      destruct (digit_not_sep d Hd) as (_ & _ & Hd').
      destruct (digit_not_sep e He) as (_ & _ & He').
      destruct (digit_not_sep f Hf) as (_ & _ & Hf').
      simpl. by rewrite Ha', Hb', Hc', Hd', He', Hf'. }
    by rewrite timeToMs_norm, Hv.
Qed.

Lemma pad2_digits a b :
  isDigit a = true → isDigit b = true →
  padStart 2 48 (numToString (digitsVal [a; b])) = [a; b].
Proof.
  intros Ha Hb.
  pose proof (digitVal_range a Ha). pose proof (digitVal_range b Hb).
  destruct (pad2_spec (digitsVal [a; b])) as (a' & b' & -> & Ha' & Hb' & Hv).
  { unfold digitsVal. simpl. lia. }
  pose proof (digitVal_range a' Ha'). pose proof (digitVal_range b' Hb').
  unfold digitsVal in Hv. simpl in Hv.
  assert (digitVal a' = digitVal a ∧ digitVal b' = digitVal b) as [E1 E2] by lia.
  by rewrite (digitVal_inj a' a), (digitVal_inj b' b).
Qed.

Lemma pad3_digits a b c :
  isDigit a = true → isDigit b = true → isDigit c = true →
  padStart 3 48 (numToString (digitsVal [a; b; c])) = [a; b; c].
Proof.
  intros Ha Hb Hc.
  pose proof (digitVal_range a Ha). pose proof (digitVal_range b Hb).
  pose proof (digitVal_range c Hc).
  destruct (pad3_spec (digitsVal [a; b; c]))
    as (a' & b' & c' & -> & Ha' & Hb' & Hc' & Hv).
  { unfold digitsVal. simpl. lia. }
  pose proof (digitVal_range a' Ha'). pose proof (digitVal_range b' Hb').
  pose proof (digitVal_range c' Hc').
  unfold digitsVal in Hv. simpl in Hv.
  assert (digitVal a' = digitVal a ∧ digitVal b' = digitVal b
          ∧ digitVal c' = digitVal c) as (E1 & E2 & E3) by lia.
  by rewrite (digitVal_inj a' a), (digitVal_inj b' b), (digitVal_inj c' c).
Qed.

(** X4.  A time HH:MM:SS,mmm with minutes and seconds below 60 is read by
    [timeToMs] as a number of milliseconds below one hundred hours, from
    which [msToSrtTime] writes the same time again. *)
Theorem msToSrtTime_timeToMs (t : jsstring) :
  is_clock_time t = true →
  ∃ ms, timeToMs t = Some ms ∧ (0 ≤ ms < 360000000)%Z ∧ msToSrtTime ms = t.
Proof.
  unfold is_clock_time. intros H.
  apply shape_cons_inv in H as (a & ? & -> & Ha & H).
  apply shape_cons_inv in H as (b & ? & -> & Hb & H).
  apply shape_cons_inv in H as (? & ? & -> & E1 & H).
  apply shape_cons_inv in H as (c & ? & -> & Hc & H).
  apply shape_cons_inv in H as (d & ? & -> & Hd & H).
  apply shape_cons_inv in H as (? & ? & -> & E2 & H).
  apply shape_cons_inv in H as (e & ? & -> & He & H).
  apply shape_cons_inv in H as (f & ? & -> & Hf & H).
  apply shape_cons_inv in H as (? & ? & -> & E3 & H).
  apply shape_cons_inv in H as (g & ? & -> & Hg & H).
  apply shape_cons_inv in H as (h & ? & -> & Hh & H).
  apply shape_cons_inv in H as (i & ? & -> & Hi & H).
  apply shape_nil_inv in H as ->.
  apply N.eqb_eq in E1 as ->. apply N.eqb_eq in E2 as ->. apply N.eqb_eq in E3 as ->.
  apply tens_range in Hc as [Hc Hc']. apply tens_range in He as [He He'].
  pose proof (digitVal_range a Ha) as Ra. pose proof (digitVal_range b Hb) as Rb.
  pose proof (digitVal_range d Hd) as Rd. pose proof (digitVal_range f Hf) as Rf.
  pose proof (digitVal_range g Hg) as Rg. pose proof (digitVal_range h Hh) as Rh.
  pose proof (digitVal_range i Hi) as Ri.
  eexists. split; [by apply timeToMs_norm|].
  set (hv := digitsVal [a; b]). set (mv := digitsVal [c; d]).
  set (sv := digitsVal [e; f]). set (rv := digitsVal [g; h; i]).
  assert (0 ≤ hv < 100 ∧ 0 ≤ mv < 60 ∧ 0 ≤ sv < 60 ∧ 0 ≤ rv < 1000)%Z
    as (Rh' & Rm' & Rs' & Rr').
  { unfold hv, mv, sv, rv, digitsVal. simpl. lia. }
  split; [lia|].
  unfold msToSrtTime. cbv zeta. rewrite !Z.rem_mod_nonneg by lia.
  set (ms := (hv * 3600000 + mv * 60000 + sv * 1000 + rv)%Z).
  assert (ms / 3600000 = hv ∧ ms mod 3600000 / 60000 = mv
          ∧ ms mod 60000 / 1000 = sv ∧ ms mod 1000 = rv)%Z
    as (-> & -> & -> & ->).
  { unfold ms. clearbody hv mv sv rv. clear -Rh' Rm' Rs' Rr'.
    Z.div_mod_to_equations. lia. }
  unfold hv, mv, sv, rv.
  by rewrite !pad2_digits, pad3_digits.
Qed.

(** ** Codec: text through a round trip, and files that were parsed *)

Lemma strip_tags_lacks opn close t :
  lacks opn t = true → strip_tags opn close false t = t.
Proof.
  induction t as [|c t IH]; [done|]. simpl. intros H.
  apply andb_prop in H as [Hc Ht]. apply negb_true_iff in Hc.
  by rewrite Hc, IH.
Qed.

Lemma replace_slashN_inverse t :
  lacks 92 t = true → replace_slashN (replace_nl_slashN t) = t.
Proof.
  unfold replace_nl_slashN. induction t as [|c t IH]; [done|].
  intros H. simpl in H. apply andb_prop in H as [Hc Ht].
  apply negb_true_iff in Hc. specialize (IH Ht). simpl flat_map.
  destruct (c =? NL)%N eqn:Hnl.
  - apply N.eqb_eq in Hnl as ->. simpl. by rewrite IH.
  - simpl app. destruct (flat_map _ t) as [|d u] eqn:E.
    + simpl in IH. by rewrite <- IH.
    + change (replace_slashN (c :: d :: u))
        with (if (c =? 92)%N && (d =? 78)%N then NL :: replace_slashN u
              else c :: replace_slashN (d :: u)).
      rewrite Hc. simpl andb. cbv iota. by rewrite IH.
Qed.

Lemma trim_tight s : tight s = true → trim s = s.
Proof.
  unfold tight. intros H. apply andb_prop in H as [Hh Hl].
  destruct s as [|c s]; [done|]. apply negb_true_iff in Hh.
  destruct (last (c :: s)) as [d|] eqn:Hlast; [|done].
  apply negb_true_iff in Hl.
  unfold trim.
  assert (trimStart (c :: s) = c :: s) as -> by (unfold trimStart; simpl; by rewrite Hh).
  apply last_Some in Hlast as [m Hm]. rewrite Hm. unfold trimEnd.
  rewrite rev_app_distr. simpl. rewrite Hl. simpl.
  by rewrite rev_involutive.
Qed.

Lemma tight_replace_nl t :
  tight t = true → tight (replace_nl_slashN t) = true.
Proof.
  unfold tight. intros H. apply andb_prop in H as [Hh Hl].
  destruct t as [|c t]; [done|].
  destruct (last (c :: t)) as [d|] eqn:Hlast; [|done].
  apply negb_true_iff in Hh, Hl.
  apply last_Some in Hlast as [m Hm]. apply andb_true_intro. split.
  - unfold replace_nl_slashN. simpl.
    rewrite (not_space_not_nl c Hh). simpl. by rewrite Hh.
  - rewrite Hm. unfold replace_nl_slashN. rewrite flat_map_app. simpl.
    rewrite (not_space_not_nl d Hl). simpl. rewrite ?app_nil_r.
    rewrite last_snoc. by rewrite Hl.
Qed.

Lemma ass_text_plain t : plain_text ass t = true → ass_text t = t.
Proof.
  simpl. intros H. apply andb_prop in H as [H Ht]. apply andb_prop in H as [Hb Hs].
  unfold ass_text.
  by rewrite (trim_tight _ (tight_replace_nl t Ht)), replace_slashN_inverse,
    strip_tags_lacks.
Qed.

(** X5.  Serializing and parsing in one format returns every text
    unchanged: always for SubRip, for a text without [<] in WebVTT, and in
    AdvancedSubStation for a text without [{] and backslash that neither
    starts nor ends with white space; commas and line feeds are kept. *)
Theorem roundtrip_text (subtitles : list Subtitle) (format : SubtitleFormat) :
  Forall (fun s => caption_ok s = true) subtitles →
  Forall (fun s => plain_text format (text s) = true) subtitles →
  map text (parse (serialize subtitles format) format) = map text subtitles.
Proof.
  intros Hok Hplain. apply list_eq. intros i. rewrite !list_lookup_fmap.
  destruct format; simpl parse; simpl serialize.
  - rewrite parseSRT_toSRT by done. rewrite list_lookup_imap.
    by destruct (subtitles !! i).
  - rewrite parseVTT_toVTT by done. rewrite list_lookup_imap.
    destruct (subtitles !! i) as [s|] eqn:Hs; [|done]. simpl. f_equal.
    apply strip_tags_lacks. rewrite Forall_forall in Hplain.
    apply (Hplain s). by eapply list_elem_of_lookup_2.
  - rewrite parseASS_toASS by done. rewrite list_lookup_imap.
    destruct (subtitles !! i) as [s|] eqn:Hs; [|done]. simpl. f_equal.
    apply ass_text_plain. rewrite Forall_forall in Hplain.
    apply (Hplain s). by eapply list_elem_of_lookup_2.
Qed.

Lemma imap_imap {A B C} (f : nat -> B -> C) (g : nat -> A -> B) l :
  imap f (imap g l) = imap (fun i x => f i (g i x)) l.
Proof.
  revert f g. induction l as [|x l IH]; intros f g; [done|].
  simpl. f_equal. apply IH.
Qed.

Lemma toSRT_renumber subtitles : toSRT (renumber subtitles) = toSRT subtitles.
Proof. unfold toSRT, renumber. by rewrite imap_imap. Qed.

(** X6.  Whatever the input, every caption [parseSRT] returns has both
    times in the form HH:MM:SS,mmm and a text without carriage return in
    which every line has a character that is not white space (so the text
    is not empty). *)
Theorem parseSRT_wellformed (content : jsstring) :
  Forall (fun s =>
            is_norm_time (startTime s) = true ∧ is_norm_time (endTime s) = true
            ∧ text s ≠ [] ∧ nocr (text s) = true
            ∧ Forall (fun line => truthy (trim line) = true)
                     (split_char NL (text s)))
         (parseSRT content).
Proof.
  eapply Forall_impl; [apply parseSRT_captions_ok|].
  intros s Hall. unfold caption_ok, text_ok in Hall.
  apply andb_prop in Hall as [Ht Htxt]. apply andb_prop in Ht as [Hs He].
  apply andb_prop in Htxt as [Hcr Hlines].
  split; [done|]. split; [done|]. split; [|split; [done|]].
  - intros E. rewrite E in Hlines. done.
  - apply Forall_forall. intros l Hl. rewrite forallb_forall in Hlines.
    apply Hlines. by apply list_elem_of_In.
Qed.

(** X7.  Writing the captions parsed from any SubRip text and parsing what
    was written returns the same captions numbered from 1, and writing
    those gives the same file again. *)
Theorem parseSRT_rewrite_stable (content : jsstring) :
  parseSRT (toSRT (parseSRT content)) = renumber (parseSRT content)
  ∧ toSRT (parseSRT (toSRT (parseSRT content))) = toSRT (parseSRT content).
Proof.
  pose proof (parseSRT_toSRT _ (parseSRT_captions_ok content)) as H.
  split; [exact H|]. rewrite H. apply toSRT_renumber.
Qed.

(** X8.  The captions parsed from any SubRip text can be written in each of
    the three formats without loss: parsing what was written returns as
    many captions, with the same times at the precision of the format. *)
Theorem convert_parsed_srt (content : jsstring) (format : SubtitleFormat) :
  length (parse (serialize (parse content srt) format) format)
  = length (parse content srt)
  ∧ map startTime (parse (serialize (parse content srt) format) format)
    = map (fun s => native format (startTime s)) (parse content srt)
  ∧ map endTime (parse (serialize (parse content srt) format) format)
    = map (fun s => native format (endTime s)) (parse content srt).
Proof.
  simpl (parse content srt).
  pose proof (parseSRT_captions_ok content) as Hok.
  destruct format; simpl parse; simpl serialize.
  - rewrite parseSRT_toSRT by done. rewrite length_imap.
    split; [done|]. split; apply list_eq; intros i;
      rewrite !list_lookup_fmap, list_lookup_imap;
      by destruct (parseSRT content !! i).
  - rewrite parseVTT_toVTT by done. rewrite length_imap.
    split; [done|]. split; apply list_eq; intros i;
      rewrite !list_lookup_fmap, list_lookup_imap;
      by destruct (parseSRT content !! i).
  - rewrite parseASS_toASS by done. rewrite length_imap.
    split; [done|]. split; apply list_eq; intros i;
      rewrite !list_lookup_fmap, list_lookup_imap;
      by destruct (parseSRT content !! i).
Qed.

(** ** Batcher: batches are full *)

Lemma greedy_snoc_close batchSize maxChars batches cur s :
  greedy batchSize maxChars (batches ++ [cur]) →
  closed_by batchSize maxChars cur s →
  greedy batchSize maxChars ((batches ++ [cur]) ++ [[s]]).
Proof.
  induction batches as [|b rest IH]; simpl; intros H Hc.
  - destruct H as (Hne & _ & _). done.
  - destruct H as (Hne & Hnext & Hrest). split; [done|]. split; [|by apply IH].
    destruct rest as [|b' rest']; simpl in *; done.
Qed.

Lemma greedy_snoc_extend batchSize maxChars batches cur s :
  cur ≠ [] →
  greedy batchSize maxChars (batches ++ [cur]) →
  greedy batchSize maxChars (batches ++ [cur ++ [s]]).
Proof.
  intros Hcur. induction batches as [|b rest IH]; simpl; intros H.
  - split; [by destruct cur|done].
  - destruct H as (Hne & Hnext & Hrest). split; [done|]. split; [|by apply IH].
    destruct rest as [|b' rest']; simpl in *; [|done].
    by destruct cur.
Qed.

Lemma batch_loop_greedy batchSize maxChars subtitles :
  (1 ≤ batchSize)%Z →
  ∀ batches currentBatch currentChars,
    currentChars = total_chars currentBatch →
    (batches = [] ∧ currentBatch = []
     ∨ currentBatch ≠ [] ∧ greedy batchSize maxChars (batches ++ [currentBatch])) →
    greedy batchSize maxChars
      (batch_loop batchSize maxChars subtitles batches currentBatch currentChars).
Proof.
  intros Hsize.
  induction subtitles as [|s rest IH]; intros batches cur chars Hc Hinv; simpl.
  - destruct Hinv as [[-> ->]|[Hne Hg]]; [done|]. by destruct cur.
  - destruct (_ || _) eqn:Hclose.
    + assert (cur ≠ []) as Hne.
      { intros ->. simpl in Hclose.
        rewrite andb_false_r, orb_false_r in Hclose. apply Z.leb_le in Hclose. lia. }
      destruct Hinv as [[_ ->]|[_ Hg]]; [done|].
      apply IH; [simpl; lia|]. right. split; [done|].
      apply greedy_snoc_close; [done|].
      apply orb_prop in Hclose as [H|H].
      * left. by apply Z.leb_le in H.
      * right. apply andb_prop in H as [H _]. apply Z.ltb_lt in H. lia.
    + apply IH; [rewrite total_chars_app; simpl; lia|].
      right. split; [by destruct cur|].
      destruct Hinv as [[-> ->]|[Hne Hg]]; [done|].
      by apply greedy_snoc_extend.
Qed.

Lemma greedy_lookup batchSize maxChars batches :
  greedy batchSize maxChars batches →
  Forall (fun b => b ≠ []) batches
  ∧ ∀ k b s rest, batches !! k = Some b → batches !! S k = Some (s :: rest) →
                  closed_by batchSize maxChars b s.
Proof.
  induction batches as [|b0 bs IH]; simpl; [by split|].
  intros (Hne & Hnext & Hrest). destruct (IH Hrest) as [IH1 IH2].
  split; [by constructor|].
  intros [|k] b s rest Hb Hs; simpl in *.
  - injection Hb as <-. destruct bs as [|b1 bs']; [done|].
    simpl in Hs. injection Hs as ->. done.
  - by eapply IH2.
Qed.

(** X9.  For [batchSize ≥ 1] no batch of [batchSubtitles] is empty, and a
    batch is only closed when it is full: it holds [batchSize] captions, or
    the first caption of the next batch would have taken its text beyond
    [maxChars]. *)
Theorem batchSubtitles_full subtitles batchSize maxChars :
  (1 ≤ batchSize)%Z →
  Forall (fun b => b ≠ []) (batchSubtitles subtitles batchSize maxChars)
  ∧ ∀ k b s rest,
      batchSubtitles subtitles batchSize maxChars !! k = Some b →
      batchSubtitles subtitles batchSize maxChars !! S k = Some (s :: rest) →
      Z.of_nat (length b) = batchSize
      ∨ (maxChars < total_chars b + jslength (text (obj s)))%Z.
Proof.
  intros Hsize.
  assert (greedy batchSize maxChars (batchSubtitles subtitles batchSize maxChars)) as Hg.
  { apply batch_loop_greedy; auto. }
  apply greedy_lookup in Hg as [Hne Hclosed]. split; [done|].
  intros k b s rest Hb Hs.
  destruct (Hclosed k b s rest Hb Hs) as [Hfull|Hchars]; [left|by right].
  assert (Forall (within_limits batchSize maxChars)
            (batchSubtitles subtitles batchSize maxChars)) as Hlim.
  { apply batch_loop_limits; auto. }
  rewrite Forall_forall in Hlim.
  destruct (Hlim b) as [Hle _]; [by eapply list_elem_of_lookup_2|]. lia.
Qed.

(** ** The translate command: batching, then merging *)

(** X10.  The loop of the translate command run on the batches that
    [batchSubtitles] makes of the parsed captions, for any batch size and
    character limit, and with a provider that answers every batch with as
    many strings as it has captions: when the loop completes, the output
    has one caption per input caption, each with the index and times of the
    input caption at its position and with a text that is defined. *)
Theorem translate_pipeline
    (translate : nat -> list SubtitleRef -> Result (list jsstring))
    (captions : list Subtitle) (batchSize maxChars : Z) (out : list Slot) :
  (∀ k batch translations,
     translate k batch = Ok translations → length translations = length batch) →
  merge translate (alloc captions)
        (batchSubtitles (alloc captions) batchSize maxChars) = Ok out →
  length out = length captions
  ∧ ∀ i c, captions !! i = Some c →
      ∃ t, out !! i
           = Some (Elem (mkMerged (index c) (startTime c) (endTime c) (Some t))).
Proof.
  intros Hcontract Hrun.
  set (batches := batchSubtitles (alloc captions) batchSize maxChars) in *.
  assert (concat batches = alloc captions) as Hcat.
  { unfold batches, batchSubtitles. by rewrite batch_loop_concat. }
  destruct (merge_distinct_objects translate (alloc captions) batches out
              (alloc_distinct captions) Hcat Hrun) as (Hlen & _ & Hpos).
  split; [rewrite Hlen; unfold alloc; apply length_imap|].
  intros i c Hc.
  assert (alloc captions !! i = Some (mkRef i c)) as Hi
    by (unfold alloc; by rewrite list_lookup_imap, Hc).
  rewrite <- Hcat in Hi.
  destruct (lookup_concat_batches batches i _ Hi) as (k & batch & j & Hk & Hj & ->).
  destruct (Hpos k batch j _ Hk Hj) as (_ & translations & Htr & Hout).
  apply Hcontract in Htr.
  destruct (translations !! j) as [t|] eqn:Ht.
  - exists t. exact Hout.
  - apply lookup_ge_None in Ht. apply lookup_lt_Some in Hj. lia.
Qed.

(** X11.  The merge loop stops at the first batch whose [translateBatch]
    call fails and leaves with that error: there is no output. *)
Theorem merge_first_failure
    (translate : nat -> list SubtitleRef -> Result (list jsstring))
    (subtitles : list SubtitleRef) (batches : list (list SubtitleRef))
    (n : nat) (batch : list SubtitleRef) (e : jsstring) :
  batches !! n = Some batch →
  translate n batch = Err e →
  (∀ k b, k < n → batches !! k = Some b → ∃ tr, translate k b = Ok tr) →
  merge translate subtitles batches = Err e.
Proof.
  unfold merge. generalize (map slot_of subtitles) as acc.
  assert (∀ i acc,
    batches !! n = Some batch → translate (i + n) batch = Err e →
    (∀ k b, k < n → batches !! k = Some b → ∃ tr, translate (i + k) b = Ok tr) →
    merge_loop translate subtitles i batches acc = Err e) as H.
  { clear. revert n. induction batches as [|b0 rest IH]; intros n i acc Hn He Hok; [done|].
    simpl. destruct n as [|n]; simpl in Hn.
    - injection Hn as ->. rewrite Nat.add_0_r in He. by rewrite He.
    - destruct (Hok 0 b0) as (tr & Htr); [lia|done|].
      rewrite Nat.add_0_r in Htr. rewrite Htr.
      apply (IH n); [done| |].
      + by replace (S i + n) with (i + S n) by lia.
      + intros k b Hk Hb. replace (S i + k) with (i + S k) by lia.
        apply Hok; [lia|done]. }
  intros acc Hn He Hok. by apply (H 0).
Qed.

(** ** Retry executor: recovery, total delay, empty budget *)

(** X12.  When the first [n] calls fail with retryable errors, [n] is
    within the budget and call number [n] succeeds, the executor returns
    that call's value after exactly [n + 1] calls and [n] sleeps of
    [baseDelay], [2 baseDelay], [4 baseDelay], ... *)
Theorem fetchWithRetry_recovers {T} (fn : nat -> Result T)
    (maxRetries baseDelay : Z) (n : nat) (v : T) :
  (Z.of_nat n ≤ maxRetries)%Z →
  (∀ k, k < n → fails_retryably (fn k)) →
  fn n = Ok v →
  ∃ trace,
    fetchWithRetry fn maxRetries baseDelay = Some (Ok v, trace)
    ∧ attempts trace = S n
    ∧ sleeps trace = map (fun k => (baseDelay * 2 ^ Z.of_nat k)%Z) (seq 0 n).
Proof.
  intros Hn Hfail Hok.
  destruct (fetchWithRetry_run fn maxRetries baseDelay ltac:(lia))
    as (n' & Hn' & Hfail' & Hstop & Hrun).
  assert (n' = n) as ->.
  { destruct (Nat.lt_trichotomy n' n) as [Hlt|[->|Hgt]]; [|done|].
    - destruct Hstop as [?|Hno]; [lia|]. destruct Hno. by apply Hfail.
    - destruct (Hfail' n Hgt) as (e & He & _). congruence. }
  rewrite Hok in Hrun. eexists. split; [exact Hrun|]. split.
  - rewrite attempts_app, attempts_retried, length_seq. unfold attempts. simpl. lia.
  - rewrite sleeps_app, sleeps_retried. unfold sleeps at 1. simpl.
    by rewrite app_nil_r.
Qed.

Lemma sum_doubling baseDelay n :
  foldr Z.add 0%Z (map (fun k => (baseDelay * 2 ^ Z.of_nat k)%Z) (seq 0 n))
  = (baseDelay * (2 ^ Z.of_nat n - 1))%Z.
Proof.
  induction n as [|n IH]; [simpl; lia|].
  rewrite seq_S, map_app, foldr_app. simpl.
  assert (∀ l a, foldr Z.add a l = (foldr Z.add 0 l + a)%Z) as Hshift.
  { clear. induction l as [|x l IHl]; intros a; simpl; [lia|]. rewrite IHl. lia. }
  rewrite Hshift, IH. rewrite Nat2Z.inj_succ, Z.pow_succ_r by lia. lia.
Qed.

(** X13.  In every run with a budget [maxRetries ≥ 0] and a delay
    [baseDelay ≥ 0], the sleeps add up to [baseDelay * (2^n - 1)] for the
    number [n] of retried attempts, hence to at most
    [baseDelay * (2^maxRetries - 1)]. *)
Theorem fetchWithRetry_total_sleep {T} (fn : nat -> Result T)
    (maxRetries baseDelay : Z) :
  (0 ≤ maxRetries)%Z → (0 ≤ baseDelay)%Z →
  ∃ res trace,
    fetchWithRetry fn maxRetries baseDelay = Some (res, trace)
    ∧ foldr Z.add 0%Z (sleeps trace)
      = (baseDelay * (2 ^ (Z.of_nat (attempts trace) - 1) - 1))%Z
    ∧ (foldr Z.add 0%Z (sleeps trace) ≤ baseDelay * (2 ^ maxRetries - 1))%Z.
Proof.
  intros Hmax Hdelay.
  destruct (fetchWithRetry_run fn maxRetries baseDelay Hmax)
    as (n & Hn & _ & _ & Hrun).
  eexists _, _. split; [exact Hrun|].
  rewrite attempts_app, attempts_retried, length_seq.
  rewrite sleeps_app, sleeps_retried. unfold sleeps at 1, attempts at 1. simpl.
  rewrite app_nil_r, sum_doubling.
  replace (Z.of_nat (n + 1) - 1)%Z with (Z.of_nat n) by lia.
  split; [done|].
  apply Z.mul_le_mono_nonneg_l; [done|].
  assert (2 ^ Z.of_nat n ≤ 2 ^ maxRetries)%Z by (apply Z.pow_le_mono_r; lia). lia.
Qed.

(** X14.  With a negative retry budget the executor does not call the
    operation at all: it raises the initial error ("Unknown error"). *)
Theorem fetchWithRetry_negative_budget {T} (fn : nat -> Result T)
    (maxRetries baseDelay : Z) :
  (maxRetries < 0)%Z →
  fetchWithRetry fn maxRetries baseDelay = Some (Err (str "Unknown error"), []).
Proof.
  intros Hneg. unfold fetchWithRetry.
  assert (Z.to_nat (maxRetries + 1) = 0) as -> by lia.
  simpl. destruct (Z.leb_spec 1 (maxRetries + 1)); [lia|done].
Qed.

(** ** [translateBatch] *)

Lemma includes_app a b c : includes (a ++ b ++ c) b = true.
Proof.
  induction a as [|x a IH]; simpl.
  - apply includes_prefix, startsWith_prefix.
  - rewrite IH. apply orb_true_r.
Qed.

Lemma on_retries_retried {T} (fn : nat -> Result T) baseDelay ks :
  on_retries (flat_map (retried fn baseDelay) ks) = Z.of_nat (length ks).
Proof.
  unfold on_retries. f_equal.
  induction ks as [|k ks IH]; [done|]. simpl. by rewrite IH.
Qed.

Lemma on_retries_run {T} (fn : nat -> Result T) baseDelay n :
  on_retries (flat_map (retried fn baseDelay) (seq 0 n) ++ [Call]) = Z.of_nat n.
Proof.
  pose proof (on_retries_retried fn baseDelay (seq 0 n)) as H.
  rewrite length_seq in H. rewrite <- H.
  unfold on_retries. rewrite List.filter_app, length_app. simpl. f_equal. lia.
Qed.

Lemma retried_status_retryable prefix status error :
  retried_status status = true →
  isRetryable (prefix ++ numToString status ++ str ": " ++ error) = true.
Proof.
  unfold retried_status, isRetryable. intros H.
  repeat (apply orb_prop in H as [H|H]); apply Z.eqb_eq in H as ->.
  - change (numToString 429) with (str "429"). by rewrite includes_app.
  - change (numToString 500) with (str "500"). rewrite includes_app.
    by rewrite orb_true_r.
  - change (numToString 502) with (str "502"). rewrite includes_app.
    by rewrite !orb_true_r.
  - change (numToString 503) with (str "503"). rewrite includes_app.
    by rewrite !orb_true_r.
Qed.

(** X15.  When every request is answered with status 429, 500, 502 or 503
    (and a body that can be read), [translateBatch] sends exactly
    [maxRetries + 1] requests and raises; the retry counter grows by
    [maxRetries] and no other counter changes. *)
Theorem translateBatch_overloaded (errorPrefix : jsstring)
    (account : TranslationStats -> Usage -> TranslationStats)
    (http : nat -> Fetched) (maxRetries retryDelay : Z)
    (stats : TranslationStats) (subtitles : list SubtitleRef) :
  (0 ≤ maxRetries)%Z →
  (∀ k, ∃ status error json,
     http k = Responded status (Ok error) json ∧ retried_status status = true) →
  ∃ e trace,
    translateBatch_run errorPrefix account http maxRetries retryDelay stats subtitles
    = Some (Err e,
            mkStats (totalTokens stats) (inputTokens stats) (outputTokens stats)
                    (cachedTokens stats) (apiCalls stats)
                    (retries stats + maxRetries),
            trace)
    ∧ Z.of_nat (attempts trace) = (maxRetries + 1)%Z
    ∧ isRetryable e = true.
Proof.
  intros Hmax Hhttp.
  assert (∀ k, fails_retryably (doRequest errorPrefix http k)) as Hfail.
  { intros k. destruct (Hhttp k) as (status & error & json & Hk & Hst).
    unfold doRequest. rewrite Hk.
    assert (response_ok status = false) as ->.
    { unfold retried_status in Hst. unfold response_ok.
      repeat (apply orb_prop in Hst as [Hst|Hst]); by apply Z.eqb_eq in Hst as ->. }
    eexists. split; [done|]. by apply retried_status_retryable. }
  destruct (fetchWithRetry_run (doRequest errorPrefix http) maxRetries retryDelay Hmax)
    as (n & Hn & _ & Hstop & Hrun).
  destruct Hstop as [Hlast|Hno]; [|by destruct Hno].
  unfold translateBatch_run. rewrite Hrun.
  destruct (Hfail n) as (e & He & Hre). rewrite He. cbv zeta.
  exists e. eexists. rewrite on_retries_run, Hlast. split; [done|]. split; [|done].
  rewrite attempts_app, attempts_retried, length_seq. unfold attempts. simpl. lia.
Qed.

(** X16.  Every call of [translateBatch] of the Anthropic provider with a
    budget [maxRetries ≥ 0] settles, after at least one and at most
    [maxRetries + 1] requests.  It adds the number of requests after the
    first to [retries]; it adds 1 to [apiCalls] when it returns and nothing
    when it raises, and a call that raises leaves the token counters as
    they were.  [cachedTokens] never changes, and counters that add up
    ([totalTokens = inputTokens + outputTokens]) still do after the call. *)
Theorem anthropic_translateBatch_counters
    (http : nat -> Fetched) (maxRetries retryDelay : Z)
    (stats : TranslationStats) (subtitles : list SubtitleRef) :
  (0 ≤ maxRetries)%Z →
  ∃ res stats' trace,
    anthropic_translateBatch http maxRetries retryDelay stats subtitles
    = Some (res, stats', trace)
    ∧ (1 ≤ Z.of_nat (attempts trace) ≤ maxRetries + 1)%Z
    ∧ retries stats' = (retries stats + Z.of_nat (attempts trace) - 1)%Z
    ∧ apiCalls stats'
      = (apiCalls stats + match res with Ok _ => 1 | Err _ => 0 end)%Z
    ∧ cachedTokens stats' = cachedTokens stats
    ∧ (tokens_add_up stats → tokens_add_up stats')
    ∧ (∀ e, res = Err e →
         totalTokens stats' = totalTokens stats
         ∧ inputTokens stats' = inputTokens stats
         ∧ outputTokens stats' = outputTokens stats).
Proof.
  intros Hmax. unfold anthropic_translateBatch.
  set (fn := doRequest (str "Anthropic API error ") http).
  destruct (fetchWithRetry_run fn maxRetries retryDelay Hmax)
    as (n & Hn & _ & _ & Hrun).
  unfold translateBatch_run. fold fn. rewrite Hrun. cbv zeta.
  rewrite on_retries_run.
  assert (attempts (flat_map (retried fn retryDelay) (seq 0 n) ++ [Call]) = S n)
    as Hatt.
  { rewrite attempts_app, attempts_retried, length_seq. unfold attempts. simpl. lia. }
  unfold tokens_add_up.
  destruct (fn n) as [data|e] eqn:Hres.
  - eexists _, _, _. split; [done|]. rewrite Hatt. split; [lia|].
    destruct (resp_usage data); simpl;
      (split; [lia|]); (split; [lia|]); (split; [done|]); (split; [lia|]); done.
  - eexists _, _, _. split; [done|]. rewrite Hatt. split; [lia|].
    simpl. split; [lia|]. split; [lia|]. split; [done|]. split; [done|]. done.
Qed.

(** ** Response parsing: whole responses *)

Lemma tight_head t :
  tight t = true → ∃ c r, t = c :: r ∧ isSpace c = false.
Proof.
  unfold tight. destruct t as [|c r]; [done|]. intros H.
  apply andb_prop in H as [H _]. apply negb_true_iff in H. eauto.
Qed.

Lemma match_numbered_line i t :
  one_line t = true →
  match_numbered (numbered_line i t) = Some (numToString (Z.of_nat i + 1), t).
Proof.
  unfold one_line. intros H. apply andb_prop in H as [Htight Hterm].
  destruct (tight_head t Htight) as (c & r & -> & Hc).
  destruct (numToString_nat (Z.of_nat i + 1) ltac:(lia)) as (d & ds & Hds & Hd & Hdd & _).
  unfold numbered_line, match_numbered. rewrite Hds.
  change (str "[" ++ (d :: ds) ++ str "] " ++ c :: r)
    with (91%N :: (d :: ds) ++ 93%N :: 32%N :: c :: r).
  assert ((m_lit (str "[") >> m_digits1 >> m_lit (str "]"))
            (91%N :: (d :: ds) ++ 93%N :: 32%N :: c :: r)
          = Some (91%N :: (d :: ds) ++ [93%N], 32%N :: c :: r)) as ->.
  { unfold m_seq, m_lit, m_digits1.
    change (startsWith (91%N :: ?s) (str "[")) with true. cbv iota.
    change (drop (length (str "[")) (91%N :: ?s)) with s.
    rewrite (takeWhile_app_stop isDigit (d :: ds) 93 (32%N :: c :: r)),
      (dropWhile_app_stop isDigit (d :: ds) 93 (32%N :: c :: r))
      by (done || (simpl; by rewrite Hd)).
    change (startsWith (93%N :: ?s) (str "]")) with true. cbv iota.
    change (drop (length (str "]")) (93%N :: ?s)) with s.
    by rewrite <- app_assoc. }
  assert (takeWhile isSpace (32%N :: c :: r) = [32%N]) as ->
    by (simpl; by rewrite Hc).
  simpl ws_then_rest. simpl in Hterm. rewrite Hterm.
  f_equal. f_equal.
  replace (length (91%N :: (d :: ds) ++ [93%N]) - 2) with (length (d :: ds))
    by (simpl; rewrite length_app; simpl; lia).
  change (drop 1 (91%N :: (d :: ds) ++ [93%N])) with ((d :: ds) ++ [93%N]).
  apply take_app_length.
Qed.

Lemma parse_line_numbered n (lineMap : gmap Z jsstring) i t :
  one_line t = true →
  parse_line n lineMap (numbered_line i t) = <[Z.of_nat i := t]> lineMap.
Proof.
  intros Ht. unfold parse_line. rewrite match_numbered_line by done.
  rewrite parseInt_numToString by lia.
  unfold one_line in Ht. apply andb_prop in Ht as [Htight _].
  rewrite trim_tight by done. f_equal. lia.
Qed.

Lemma fold_numbered_lines n ts :
  Forall (fun t => one_line t = true) ts →
  ∀ k (lineMap : gmap Z jsstring) j,
    fold_left (parse_line n) (imap (fun i t => numbered_line (k + i) t) ts) lineMap
      !! Z.of_nat j
    = if decide (k ≤ j < k + length ts) then ts !! (j - k)
      else lineMap !! Z.of_nat j.
Proof.
  induction 1 as [|t ts Ht Hts IH]; intros k lineMap j.
  - simpl. case_decide; [lia|done].
  - rewrite imap_shift, fold_left_step, parse_line_numbered by done.
    rewrite IH. simpl length.
    destruct (decide (j = k)) as [->|Hne].
    + rewrite decide_False by lia. rewrite decide_True by lia.
      rewrite lookup_insert_eq. by rewrite Nat.sub_diag.
    + rewrite lookup_insert_ne by lia.
      case_decide; case_decide; try lia; [|done].
      replace (j - k) with (S (j - S k)) by lia. done.
Qed.

Lemma one_line_nonl t : one_line t = true → nonl t = true.
Proof.
  unfold one_line, nonl. intros H. apply andb_prop in H as [_ H].
  rewrite forallb_forall in H. apply forallb_forall. intros c Hc.
  specialize (H c Hc). unfold isLineTerminator in H.
  apply negb_true_iff in H. apply negb_true_iff.
  by destruct (c =? NL)%N eqn:E; [apply N.eqb_eq in E as ->|].
Qed.

Lemma numbered_line_nonl i t : one_line t = true → nonl (numbered_line i t) = true.
Proof.
  intros Ht. unfold numbered_line.
  destruct (numToString_nat (Z.of_nat i + 1) ltac:(lia)) as (d & ds & -> & Hd & Hds & _).
  destruct (digits_nonl (d :: ds)) as [Hnl _]; [simpl; by rewrite Hd|].
  by rewrite !nonl_app, Hnl, (one_line_nonl t Ht).
Qed.

(** X18.  A response that lists one translation per caption in the
    numbered format the prompt asks for ([[1] ...], [[2] ...], one per
    line) is returned as exactly these translations, whenever each of them
    is on one line and neither starts nor ends with white space. *)
Theorem parseTranslations_numbered_response
    (translations : list jsstring) (subtitles : list SubtitleRef) :
  length translations = length subtitles →
  Forall (fun t => one_line t = true) translations →
  parseTranslations (join [NL] (imap numbered_line translations)) subtitles
  = translations.
Proof.
  intros Hlen Hall. unfold parseTranslations, lineMap_of.
  destruct translations as [|t0 ts].
  { destruct subtitles; [done|discriminate]. }
  rewrite split_char_join.
  2:{ done. }
  2:{ apply (Forall_imap _ (fun t => one_line t = true)); [|done].
      intros i t Ht. by apply numbered_line_nonl. }
  apply list_eq. intros i. rewrite list_lookup_imap.
  change (imap numbered_line (t0 :: ts))
    with (imap (fun i t => numbered_line (0 + i) t) (t0 :: ts)).
  pose proof (fold_numbered_lines (length subtitles) (t0 :: ts) Hall 0 ∅ i) as Hl.
  set (lineMap := fold_left _ _ _) in *.
  destruct (subtitles !! i) as [s|] eqn:Hs; simpl.
  - apply lookup_lt_Some in Hs as Hi. unfold get_or. rewrite Hl.
    rewrite decide_True by lia.
    rewrite Nat.sub_0_r.
    destruct ((t0 :: ts) !! i) as [t|] eqn:Ht.
    + rewrite Forall_forall in Hall.
      assert (one_line t = true) as Hone
        by (apply Hall; by eapply list_elem_of_lookup_2).
      unfold one_line in Hone. apply andb_prop in Hone as [Htight _].
      destruct (tight_head t Htight) as (c & r & -> & _). done.
    + apply lookup_ge_None in Ht. lia.
  - symmetry. apply lookup_ge_None. apply lookup_ge_None in Hs. lia.
Qed.

Lemma fold_unnumbered_lines n lines :
  Forall (fun l => match_numbered l = None) lines →
  let lineMap := fold_left (parse_line n) lines ∅ in
  let kept := take n (List.filter truthy (map trim lines)) in
  size lineMap = length kept ∧ ∀ i, lineMap !! Z.of_nat i = kept !! i.
Proof.
  induction lines as [|l lines IH] using rev_ind; intros Hall; cbv zeta.
  - simpl. rewrite take_nil. split; [apply map_size_empty|].
    intros i. by rewrite lookup_empty.
  - apply Forall_app in Hall as [Hprev Hl]. apply Forall_inv in Hl.
    destruct (IH Hprev) as [Hsize Hlook]. clear IH.
    rewrite fold_left_app, map_app, List.filter_app. simpl fold_left.
    set (lineMap := fold_left (parse_line n) lines ∅) in *.
    set (clean := List.filter truthy (map trim lines)) in *.
    unfold parse_line. rewrite Hl. simpl map. simpl List.filter.
    destruct (truthy (trim l)) eqn:Htr; simpl andb.
    2:{ by rewrite app_nil_r. }
    destruct (size lineMap <? n) eqn:Hlt.
    + apply Nat.ltb_lt in Hlt.
      assert (length clean < n) as Hclean.
      { rewrite Hsize, length_take in Hlt. lia. }
      rewrite take_ge in Hsize, Hlook by lia.
      rewrite take_ge by (rewrite length_app; simpl; lia).
      assert (lineMap !! Z.of_nat (size lineMap) = None) as Hnone.
      { rewrite Hlook. apply lookup_ge_None. lia. }
      split.
      * rewrite map_size_insert_None by done. rewrite length_app. simpl. lia.
      * intros i. destruct (decide (i = size lineMap)) as [->|Hne].
        -- rewrite lookup_insert_eq, Hsize.
           by rewrite lookup_app_r, Nat.sub_diag by lia.
        -- rewrite lookup_insert_ne by lia. rewrite Hlook.
           destruct (decide (i < length clean)).
           ++ by rewrite lookup_app_l by lia.
           ++ rewrite lookup_ge_None_2 by lia. symmetry.
              apply lookup_ge_None. rewrite length_app. simpl. lia.
    + apply Nat.ltb_ge in Hlt.
      assert (n ≤ length clean) as Hclean.
      { rewrite Hsize, length_take in Hlt. lia. }
      rewrite take_app_le by lia. done.
Qed.

(** X19.  When no line of the response has the numbered shape, the lines
    that are not blank are taken in order, trimmed: the i-th of them is the
    translation of the i-th caption, lines beyond the batch length are
    dropped, and captions beyond the last line keep their source text. *)
Theorem parseTranslations_unnumbered_response
    (response : jsstring) (subtitles : list SubtitleRef) :
  Forall (fun l => match_numbered l = None) (split_char NL response) →
  parseTranslations response subtitles
  = imap (fun i s => match clean_lines response !! i with
                     | Some t => t
                     | None => text (obj s)
                     end) subtitles.
Proof.
  intros Hall. unfold parseTranslations, lineMap_of, clean_lines.
  destruct (fold_unnumbered_lines (length subtitles) _ Hall) as [_ Hlook].
  set (lineMap := fold_left _ _ _) in *.
  set (clean := List.filter truthy _) in *.
  apply list_eq. intros i. rewrite !list_lookup_imap.
  destruct (subtitles !! i) as [s|] eqn:Hs; [|done]. simpl. f_equal.
  apply lookup_lt_Some in Hs. unfold get_or. rewrite Hlook.
  rewrite lookup_take_lt by done.
  destruct (clean !! i) as [t|] eqn:Ht; [|done].
  assert (truthy t = true) as ->; [|done].
  apply list_elem_of_lookup_2 in Ht. unfold clean in Ht.
  apply list_elem_of_In, filter_In in Ht. by destruct Ht.
Qed.

Lemma parseTranslations_empty subtitles :
  parseTranslations [] subtitles = map (fun s => text (obj s)) subtitles.
Proof.
  unfold parseTranslations. apply list_eq. intros i.
  rewrite list_lookup_imap, list_lookup_fmap.
  by destruct (subtitles !! i).
Qed.

(** X17.  When the first request is answered with a success status and a
    body without content block (or with an empty text), [translateBatch]
    does not raise: it returns the source texts of the batch unchanged,
    after one request. *)
Theorem translateBatch_empty_answer (errorPrefix : jsstring)
    (account : TranslationStats -> Usage -> TranslationStats)
    (http : nat -> Fetched) (maxRetries retryDelay : Z)
    (stats : TranslationStats) (subtitles : list SubtitleRef)
    (status : Z) (bodyText : Result jsstring) (data : ApiResponse) :
  (0 ≤ maxRetries)%Z →
  http 0 = Responded status bodyText (Ok data) →
  response_ok status = true →
  translated_text data = [] →
  ∃ stats',
    translateBatch_run errorPrefix account http maxRetries retryDelay stats subtitles
    = Some (Ok (map (fun s => text (obj s)) subtitles), stats', [Call]).
Proof.
  intros Hmax Hhttp Hok Htext.
  assert (doRequest errorPrefix http 0 = Ok data) as Hreq
    by (unfold doRequest; by rewrite Hhttp, Hok).
  destruct (fetchWithRetry_run (doRequest errorPrefix http) maxRetries retryDelay Hmax)
    as (n & _ & Hfail & _ & Hrun).
  destruct n as [|n].
  - unfold translateBatch_run. rewrite Hrun, Hreq. cbv zeta.
    rewrite Htext, parseTranslations_empty. by eexists.
  - destruct (Hfail 0) as (e & He & _); [lia|]. congruence.
Qed.

(** ** [createProvider] *)

(** X20.  [createProvider] raises its configuration error exactly when a
    provider that needs a key is named explicitly, no key is given, and the
    provider's environment variable is unset or empty; the message names
    the provider and that variable.  Without an explicit provider the
    validation never fails. *)
Theorem createProvider_missing_key (env : jsstring -> option jsstring)
    (options : CreateProviderOptions) (message : jsstring) :
  createProvider_config env options = Err message
  ↔ ∃ p, o_provider options = Some p
         ∧ requiresApiKey p = true
         ∧ nonempty (o_apiKey options) = None
         ∧ nonempty (env (envVar p)) = None
         ∧ message = missing_key_error p.
Proof.
  unfold createProvider_config, selectProvider, getApiKey, detectFromEnv.
  destruct options as [prov key mdl url src tgt mr rd]. simpl.
  split.
  - destruct prov as [p|].
    + destruct (nonempty key) as [k|] eqn:Hk.
      * destruct k; [by destruct key as [[|]|]|].
        rewrite andb_false_r. discriminate.
      * destruct (requiresApiKey p) eqn:Hreq; simpl; [|discriminate].
        destruct (nonempty (env (envVar p))) eqn:He; [discriminate|].
        intros [= <-]. by exists p.
    + destruct (nonempty key) as [k|] eqn:Hk.
      * assert (nonempty (Some k) = Some k) as Hkk.
        { destruct key as [[|c s]|]; try discriminate. by injection Hk as <-. }
        destruct (detectProvider k); rewrite Hkk, andb_false_r; discriminate.
      * simpl.
        repeat match goal with
        | |- context [nonempty (env ?v)] =>
            let E := fresh "E" in
            destruct (nonempty (env v)) as [[|? ?]|] eqn:E;
              [by destruct (env v) as [[|? ?]|]| |]
        end; simpl; discriminate.
  - intros (p & -> & Hreq & -> & He & ->). rewrite Hreq. simpl.
    by rewrite He.
Qed.

Lemma nonempty_Some x k : nonempty x = Some k → x = Some k ∧ k ≠ [].
Proof. destruct x as [[|c s]|]; try discriminate. by intros [= <-]. Qed.

Lemma nonempty_fixed x k : nonempty x = Some k → nonempty (Some k) = Some k.
Proof. intros H. apply nonempty_Some in H as [_ H]. by destruct k. Qed.


(** X22.  With neither a provider nor a key given, [createProvider] uses
    the first entry of [listProviders] that is flagged as configured
    (OpenAI, Anthropic, Gemini, Kimi in this order, then Whisper, which
    always is), with the key of its environment variable. *)
Theorem createProvider_first_configured (env : jsstring -> option jsstring)
    (options : CreateProviderOptions) :
  o_provider options = None →
  nonempty (o_apiKey options) = None →
  ∃ p config,
    createProvider_config env options = Ok (p, config)
    ∧ head (List.filter snd (listProviders env)) = Some (p, true)
    ∧ apiKey config
      = (if requiresApiKey p then nonempty (env (envVar p)) else None).
Proof.
  intros Hp Hk. unfold createProvider_config, selectProvider. rewrite Hp, Hk.
  unfold detectFromEnv, listProviders, all_providers, configured.
  simpl detectFromEnv_loop. simpl map.
  destruct (nonempty (env (envVar openai))) as [k1|] eqn:E1.
  { destruct (nonempty_Some _ _ E1) as [_ F]. destruct k1 as [|c k]; [done|].
    simpl in *. rewrite ?E1. simpl. by eexists _, _. }
  destruct (nonempty (env (envVar anthropic))) as [k2|] eqn:E2.
  { destruct (nonempty_Some _ _ E2) as [_ F]. destruct k2 as [|c k]; [done|].
    simpl in *. rewrite ?E1, ?E2. simpl. by eexists _, _. }
  destruct (nonempty (env (envVar gemini))) as [k3|] eqn:E3.
  { destruct (nonempty_Some _ _ E3) as [_ F]. destruct k3 as [|c k]; [done|].
    simpl in *. rewrite ?E1, ?E2, ?E3. simpl. by eexists _, _. }
  destruct (nonempty (env (envVar kimi))) as [k4|] eqn:E4.
  { destruct (nonempty_Some _ _ E4) as [_ F]. destruct k4 as [|c k]; [done|].
    simpl in *. rewrite ?E1, ?E2, ?E3, ?E4. simpl. by eexists _, _. }
  simpl in *. rewrite E1, E2, E3, E4. simpl. by eexists _, _.
Qed.

(** X23.  With neither a provider nor a key given and none of the four
    environment variables set, the provider is Whisper, and the translate
    command cannot translate any file with it: the constructor raises for a
    target other than English, and otherwise the merge loop raises the
    provider's rejection at the first batch of any captions. *)
Theorem no_credentials_no_translation (env : jsstring -> option jsstring)
    (options : CreateProviderOptions) :
  o_provider options = None →
  nonempty (o_apiKey options) = None →
  (∀ p, requiresApiKey p = true → nonempty (env (envVar p)) = None) →
  ∃ config,
    createProvider_config env options = Ok (whisper, config)
    ∧ match createWhisperProvider config with
      | Err e => e = whisper_target_error (o_targetLang options)
      | Ok provider =>
          ∀ captions batchSize maxChars,
            captions ≠ [] →
            merge (fun _ batch => translateBatch provider batch) (alloc captions)
                  (batchSubtitles (alloc captions) batchSize maxChars)
            = Err whisper_text_error
      end.
Proof.
  intros Hp Hk Henv. unfold createProvider_config, selectProvider. rewrite Hp, Hk.
  unfold detectFromEnv.
  pose proof (Henv openai eq_refl) as E1. pose proof (Henv anthropic eq_refl) as E2.
  pose proof (Henv gemini eq_refl) as E3. pose proof (Henv kimi eq_refl) as E4.
  simpl in *. rewrite E1, E2, E3, E4. simpl. eexists. split; [done|].
  unfold createWhisperProvider. simpl.
  destruct (_ && _); [done|].
  intros captions batchSize maxChars Hne.
  pose proof (batch_loop_concat batchSize maxChars (alloc captions) [] [] 0%Z) as Hcat.
  fold (batchSubtitles (alloc captions) batchSize maxChars) in Hcat.
  destruct (batchSubtitles (alloc captions) batchSize maxChars) as [|b rest].
  - simpl in Hcat. destruct captions; [done|discriminate].
  - done.
Qed.

(** ** Batch configuration *)

Lemma normalizeJob_valid defaults i job :
  valid_job defaults job = true → ∃ n, normalizeJob defaults i job = Ok n.
Proof.
  unfold valid_job, normalizeJob.
  destruct (nonempty (j_input job)); [|done].
  destruct (nonempty (j_to job)), (nonempty (d_to defaults)); try done; by eexists.
Qed.

Lemma normalizeJob_invalid defaults i job :
  valid_job defaults job = false → normalizeJob defaults i job = Err (job_error i job).
Proof.
  unfold valid_job, normalizeJob, job_error.
  destruct (nonempty (j_input job)); [|done].
  by destruct (nonempty (j_to job)), (nonempty (d_to defaults)).
Qed.





(** X25.  [loadBatchConfig] rejects the jobs exactly when one of them has
    no input, or has no target language while the defaults have none
    either; the error names the first such job, counted from 1, and a
    missing input is reported before a missing target language. *)
Theorem normalizeJobs_rejected (defaults : option JobDefaults)
    (jobs : list Job) (message : jsstring) :
  normalizeJobs defaults jobs = Err message
  ↔ ∃ i job,
      jobs !! i = Some job
      ∧ valid_job (defaults_of defaults) job = false
      ∧ (∀ k earlier, k < i → jobs !! k = Some earlier →
           valid_job (defaults_of defaults) earlier = true)
      ∧ message = job_error i job.
Proof.
  unfold normalizeJobs. generalize (defaults_of defaults) as d. intros d.
  assert (∀ i0,
    normalizeJobs_from d i0 jobs = Err message
    ↔ ∃ i job, jobs !! i = Some job ∧ valid_job d job = false
        ∧ (∀ k earlier, k < i → jobs !! k = Some earlier → valid_job d earlier = true)
        ∧ message = job_error (i0 + i) job) as H.
  { induction jobs as [|job rest IH]; intros i0; simpl.
    - split; [discriminate|]. by intros (i & job & Hi & _).
    - destruct (valid_job d job) eqn:Hv.
      + destruct (normalizeJob_valid d i0 job Hv) as (n & ->).
        split.
        * destruct (normalizeJobs_from d (S i0) rest) as [others|e] eqn:Hrest;
            [discriminate|].
          intros [= ->]. apply IH in Hrest as (i & j & Hi & Hj & Hearlier & ->).
          exists (S i), j. split; [done|]. split; [done|]. split.
          -- intros [|k] earlier Hk Hek; simpl in Hek; [by injection Hek as <-|].
             apply (Hearlier k); [lia|done].
          -- f_equal. lia.
        * intros (i & j & Hi & Hj & Hearlier & ->).
          destruct i as [|i]; simpl in Hi; [injection Hi as <-; congruence|].
          assert (normalizeJobs_from d (S i0) rest = Err (job_error (i0 + S i) j)) as ->;
            [|done].
          apply IH. exists i, j. split; [done|]. split; [done|]. split.
          -- intros k earlier Hk Hek. apply (Hearlier (S k)); [lia|done].
          -- f_equal. lia.
      + rewrite (normalizeJob_invalid d i0 job Hv). split.
        * intros [= <-]. exists 0, job. split; [done|]. split; [done|].
          split; [intros; lia|]. by rewrite Nat.add_0_r.
        * intros (i & j & Hi & Hj & Hearlier & ->).
          destruct i as [|i]; simpl in Hi.
          -- injection Hi as <-. by rewrite Nat.add_0_r.
          -- specialize (Hearlier 0 job ltac:(lia) eq_refl). congruence. }
  apply (H 0).
Qed.

(** ** The batch size of the translate command *)

(** X26.  Whatever number the [--batch-size] option holds, the translate
    command batches with a size from 10 to 500: its batches hold all the
    captions in order, none is empty, and none has more than 500
    captions. *)
Theorem cli_batches_bounded (option_batchSize : jsstring) (batchSize : Z)
    (captions : list Subtitle) :
  cli_batchSize option_batchSize = Some batchSize →
  (10 ≤ batchSize ≤ 500)%Z
  ∧ concat (batchSubtitles (alloc captions) batchSize default_maxChars)
    = alloc captions
  ∧ Forall (fun batch => 1 ≤ length batch ≤ 500)
           (batchSubtitles (alloc captions) batchSize default_maxChars).
Proof.
  unfold cli_batchSize. destruct (parseInt option_batchSize) as [n|]; [|done].
  intros [= <-].
  assert (10 ≤ Z.min 500 (Z.max 10 n) ≤ 500)%Z as Hb by lia.
  split; [done|]. set (b := Z.min 500 (Z.max 10 n)) in *.
  split; [unfold batchSubtitles; by rewrite batch_loop_concat|].
  assert (Forall (within_limits b default_maxChars)
            (batchSubtitles (alloc captions) b default_maxChars)) as Hlim
    by (apply batch_loop_limits; auto; lia).
  assert (greedy b default_maxChars
            (batchSubtitles (alloc captions) b default_maxChars)) as Hg
    by (apply batch_loop_greedy; auto; lia).
  apply greedy_lookup in Hg as [Hne _].
  rewrite Forall_forall in Hlim, Hne. apply Forall_forall. intros batch Hin.
  destruct (Hlim batch Hin) as [Hle _]. specialize (Hne batch Hin).
  destruct batch; [done|]. simpl in *. lia.
Qed.

(** * Worked instances *)

(** The batches have sizes 2, 2 and 1. *)
Example five_batches_sizes : map length five_batches = [2; 2; 1].
Proof. by vm_compute. Qed.

(** The caption at (0-based) position 3 carries the second translation of
    the second batch. *)
Example five_merged_position_3 :
  five_merged !! 3
  = Some (Elem (mkMerged 4 (str "00:00:07,000") (str "00:00:08,000")
                         (Some (str "1.1")))).
Proof. by vm_compute. Qed.

Lemma batchSubtitles_partition_witness :
  (1 ≤ 2)%Z ∧
  concat (batchSubtitles five_captions 2 default_maxChars) = five_captions ∧
  Forall (fun b => (Z.of_nat (length b) ≤ 2)%Z)
         (batchSubtitles five_captions 2 default_maxChars) ∧
  Forall (fun b => (total_chars b ≤ default_maxChars)%Z ∨
                   ∃ s, b = [s] ∧ (default_maxChars < jslength (text (obj s)))%Z)
         (batchSubtitles five_captions 2 default_maxChars).
Proof.
  split; [lia|]. apply (batchSubtitles_partition five_captions 2 default_maxChars). lia.
Defined.

Lemma merge_preserves_positions_witness :
  concat five_batches = alloc five_values ∧
  merge numbering_provider (alloc five_values) five_batches = Ok five_merged ∧
  length five_merged = length five_values ∧
  (∀ k batch j r, five_batches !! k = Some batch → batch !! j = Some r →
     alloc five_values !! (batch_start five_batches k + j) = Some r ∧
     ∃ translations,
       numbering_provider k batch = Ok translations ∧
       five_merged !! (batch_start five_batches k + j)
       = Some (Elem (mkMerged (index (obj r)) (startTime (obj r))
                              (endTime (obj r)) (translations !! j)))).
Proof.
  assert (concat five_batches = alloc five_values) as H2 by (vm_compute; reflexivity).
  assert (merge numbering_provider (alloc five_values) five_batches = Ok five_merged)
    as H3 by (vm_compute; reflexivity).
  destruct (merge_preserves_positions numbering_provider five_values five_batches
              five_merged H2 H3) as (Hlen & _ & Hpos).
  split; [exact H2|]. split; [exact H3|].
  split; [exact Hlen|exact Hpos].
Defined.

(** The same object stored twice is found by [indexOf] at its first
    position only: the hypothesis of distinct objects is needed. *)
Example merge_aliased_object :
  let a := mkRef 0 (mkSubtitle 1 (str "00:00:01,000") (str "00:00:02,000") (str "one")) in
  merge numbering_provider [a; a] [[a]; [a]]
  = Ok [ Elem (mkMerged 1 (str "00:00:01,000") (str "00:00:02,000") (Some (str "1.0")));
         Elem (mkMerged 1 (str "00:00:01,000") (str "00:00:02,000") (Some (str "one"))) ].
Proof. by vm_compute. Qed.


(** A response that lacks the entry [[2]] of a batch of two: position 1
    gets the translation, position 2 keeps its source text. *)
Example missing_entry_falls_back :
  parseTranslations (str "[1] Hola")
    [mkRef 0 (mkSubtitle 1 [] [] (str "Hello")); mkRef 1 (mkSubtitle 2 [] [] (str "World"))]
  = [str "Hola"; str "World"].
Proof. by vm_compute. Qed.

(** An error that is not retryable: one call, no sleep. *)
Example unauthorized_is_not_retried :
  fetchWithRetry (fun _ : nat => @Err unit (str "API error 401: unauthorized")) 3 1000
  = Some (Err (str "API error 401: unauthorized"), [Call]).
Proof. by vm_compute. Qed.

(** The detection table of the specification. *)
Example detection_table :
  map (fun key => fst (selectProvider (fun _ => None) None (Some (str key))))
      ["sk-kimi-x"; "sk-ant-x"; "sk-x"; "AIzaXXX"; "other"]%string
  = [kimi; anthropic; openai; gemini; openai].
Proof. by vm_compute. Qed.

Lemma provider_from_key_witness :
  str "sk-ant-x" ≠ [] ∧
  selectProvider (fun _ => None) None (Some (str "sk-ant-x"))
  = (anthropic, Some (str "sk-ant-x")).
Proof.
  assert (str "sk-ant-x" ≠ []) as H by (vm_compute; discriminate).
  split; [exact H|]. exact (provider_from_key (fun _ => None) (str "sk-ant-x") H).
Defined.

Lemma unnumbered_line_position_witness :
  match_numbered (str "hola") = None ∧ trim (str "hola") ≠ [] ∧
  parse_line 3 ∅ (str "hola") = <[0%Z := str "hola"]> ∅.
Proof.
  assert (match_numbered (str "hola") = None) as H1 by (vm_compute; reflexivity).
  assert (trim (str "hola") ≠ []) as H2 by (vm_compute; discriminate).
  split; [exact H1|]. split; [exact H2|].
  destruct (unnumbered_line_position 3 ∅ (str "hola") H1 H2) as (Hput & _).
  apply Hput. vm_compute. lia.
Defined.

(** The scenario of the specification: two blocks, two captions. *)
Example two_blocks_parsed :
  parse two_blocks_srt srt
  = [ mkSubtitle 1 (str "00:00:01,000") (str "00:00:02,000") (str "Hello");
      mkSubtitle 2 (str "00:00:03,000") (str "00:00:04,000") (str "World") ].
Proof. by vm_compute. Qed.

Example two_blocks_roundtrip : toSRT (parse two_blocks_srt srt) = two_blocks_srt.
Proof. by vm_compute. Qed.



(** ** Instances of the further properties *)

Lemma detectFormat_extension_witness :
  lacks 46 (str "VTT") = true
  ∧ detectFormat two_blocks_srt (Some (str "movie.en" ++ 46%N :: str "VTT")) = vtt.
Proof.
  assert (lacks 46 (str "VTT") = true) as H by (vm_compute; reflexivity).
  split; [exact H|].
  exact (detectFormat_extension two_blocks_srt (str "movie.en") (str "VTT") H).
Defined.

Lemma timeToMs_msToSrtTime_witness :
  (0 ≤ 3723004 < 360000000)%Z
  ∧ is_norm_time (msToSrtTime 3723004) = true
  ∧ timeToMs (msToSrtTime 3723004) = Some 3723004%Z
  ∧ timeToMs (msToVttTime 3723004) = Some 3723004%Z.
Proof. split; [lia|]. apply (timeToMs_msToSrtTime 3723004). lia. Defined.

Lemma msToSrtTime_timeToMs_witness :
  is_clock_time (str "01:02:03,004") = true
  ∧ ∃ ms, timeToMs (str "01:02:03,004") = Some ms ∧ (0 ≤ ms < 360000000)%Z
          ∧ msToSrtTime ms = str "01:02:03,004".
Proof.
  assert (is_clock_time (str "01:02:03,004") = true) as H by (vm_compute; reflexivity).
  split; [exact H|]. exact (msToSrtTime_timeToMs (str "01:02:03,004") H).
Defined.

Lemma roundtrip_text_witness :
  Forall (fun s => caption_ok s = true) [comma_caption]
  ∧ Forall (fun s => plain_text ass (text s) = true) [comma_caption]
  ∧ map text (parse (serialize [comma_caption] ass) ass)
    = [str "Hello, world" ++ [NL] ++ str "again"].
Proof.
  assert (Forall (fun s => caption_ok s = true) [comma_caption]) as H1
    by (repeat (constructor; [vm_compute; reflexivity|]); constructor).
  assert (Forall (fun s => plain_text ass (text s) = true) [comma_caption]) as H2
    by (repeat (constructor; [vm_compute; reflexivity|]); constructor).
  split; [exact H1|]. split; [exact H2|].
  exact (roundtrip_text [comma_caption] ass H1 H2).
Defined.

Lemma batchSubtitles_full_witness :
  (1 ≤ 2)%Z
  ∧ Forall (fun b => b ≠ []) (batchSubtitles five_captions 2 default_maxChars)
  ∧ ∀ k b s rest,
      batchSubtitles five_captions 2 default_maxChars !! k = Some b →
      batchSubtitles five_captions 2 default_maxChars !! S k = Some (s :: rest) →
      Z.of_nat (length b) = 2%Z
      ∨ (default_maxChars < total_chars b + jslength (text (obj s)))%Z.
Proof.
  split; [lia|]. apply (batchSubtitles_full five_captions 2 default_maxChars). lia.
Defined.

Lemma translate_pipeline_witness :
  merge numbering_provider (alloc five_values)
        (batchSubtitles (alloc five_values) 2 default_maxChars) = Ok five_merged
  ∧ length five_merged = length five_values
  ∧ ∀ i c, five_values !! i = Some c →
      ∃ t, five_merged !! i
           = Some (Elem (mkMerged (index c) (startTime c) (endTime c) (Some t))).
Proof.
  assert (merge numbering_provider (alloc five_values)
            (batchSubtitles (alloc five_values) 2 default_maxChars) = Ok five_merged)
    as H by (vm_compute; reflexivity).
  split; [exact H|].
  apply (translate_pipeline numbering_provider five_values 2 default_maxChars
           five_merged); [|exact H].
  intros k batch translations [= <-]. apply length_imap.
Defined.

Lemma merge_first_failure_witness :
  five_batches !! 1 = Some (take 2 (drop 2 five_captions))
  ∧ merge refused_second five_captions five_batches
    = Err (str "API error 401: unauthorized").
Proof.
  assert (five_batches !! 1 = Some (take 2 (drop 2 five_captions))) as H
    by (vm_compute; reflexivity).
  split; [exact H|].
  apply (merge_first_failure refused_second five_captions five_batches 1
           (take 2 (drop 2 five_captions))); [exact H|reflexivity|].
  intros k b Hk _. assert (k = 0) as -> by lia. eexists. reflexivity.
Defined.

Lemma fetchWithRetry_recovers_witness :
  (Z.of_nat 2 ≤ 3)%Z ∧ flaky 2 = Ok 2
  ∧ ∃ trace,
      fetchWithRetry flaky 3 1000 = Some (Ok 2, trace)
      ∧ attempts trace = 3
      ∧ sleeps trace = [1000; 2000]%Z.
Proof.
  split; [lia|]. split; [reflexivity|].
  apply (fetchWithRetry_recovers flaky 3 1000 2 2); [lia| |reflexivity].
  intros k Hk. exists (str "API error 503: overloaded").
  destruct k as [|[|k]]; [split; reflexivity|split; reflexivity|lia].
Defined.

Lemma fetchWithRetry_total_sleep_witness :
  (0 ≤ 3)%Z ∧ (0 ≤ 1000)%Z
  ∧ ∃ res trace,
      fetchWithRetry always_503 3 1000 = Some (res, trace)
      ∧ foldr Z.add 0%Z (sleeps trace)
        = (1000 * (2 ^ (Z.of_nat (attempts trace) - 1) - 1))%Z
      ∧ (foldr Z.add 0%Z (sleeps trace) ≤ 1000 * (2 ^ 3 - 1))%Z.
Proof.
  split; [lia|]. split; [lia|].
  apply (fetchWithRetry_total_sleep always_503 3 1000); lia.
Defined.

Lemma fetchWithRetry_negative_budget_witness :
  (-1 < 0)%Z
  ∧ fetchWithRetry always_503 (-1) 1000 = Some (Err (str "Unknown error"), []).
Proof.
  split; [lia|]. apply (fetchWithRetry_negative_budget always_503 (-1) 1000). lia.
Defined.

Lemma translateBatch_overloaded_witness :
  (0 ≤ 3)%Z
  ∧ ∃ e trace,
      kimi_translateBatch overloaded_http 3 1000 zero_stats five_captions
      = Some (Err e, mkStats 0 0 0 0 0 (0 + 3), trace)
      ∧ Z.of_nat (attempts trace) = (3 + 1)%Z
      ∧ isRetryable e = true.
Proof.
  split; [lia|].
  apply (translateBatch_overloaded (str "API error ") kimi_account overloaded_http
           3 1000 zero_stats five_captions); [lia|].
  intros k. exists 503%Z, (str "overloaded"), (Err (str "Unexpected token o in JSON")).
  split; reflexivity.
Defined.

Lemma anthropic_translateBatch_counters_witness :
  (0 ≤ 3)%Z
  ∧ ∃ res stats' trace,
      anthropic_translateBatch hola_http 3 1000 zero_stats five_captions
      = Some (res, stats', trace)
      ∧ (1 ≤ Z.of_nat (attempts trace) ≤ 3 + 1)%Z
      ∧ retries stats' = (retries zero_stats + Z.of_nat (attempts trace) - 1)%Z
      ∧ apiCalls stats'
        = (apiCalls zero_stats + match res with Ok _ => 1 | Err _ => 0 end)%Z
      ∧ cachedTokens stats' = cachedTokens zero_stats
      ∧ (tokens_add_up zero_stats → tokens_add_up stats')
      ∧ (∀ e, res = Err e →
           totalTokens stats' = totalTokens zero_stats
           ∧ inputTokens stats' = inputTokens zero_stats
           ∧ outputTokens stats' = outputTokens zero_stats).
Proof.
  split; [lia|].
  apply (anthropic_translateBatch_counters hola_http 3 1000 zero_stats five_captions).
  lia.
Defined.

Lemma translateBatch_empty_answer_witness :
  (0 ≤ 3)%Z
  ∧ silent_http 0 = Responded 200 (Ok []) (Ok (mkApiResponse [] None))
  ∧ response_ok 200 = true
  ∧ translated_text (mkApiResponse [] None) = []
  ∧ ∃ stats',
      anthropic_translateBatch silent_http 3 1000 zero_stats five_captions
      = Some (Ok (map (fun s => text (obj s)) five_captions), stats', [Call]).
Proof.
  split; [lia|]. split; [reflexivity|]. split; [reflexivity|]. split; [reflexivity|].
  apply (translateBatch_empty_answer (str "Anthropic API error ") anthropic_account
           silent_http 3 1000 zero_stats five_captions 200 (Ok [])
           (mkApiResponse [] None)); [lia|reflexivity|reflexivity|reflexivity].
Defined.

Lemma parseTranslations_numbered_response_witness :
  length [str "uno"; str "dos"] = length (take 2 five_captions)
  ∧ Forall (fun t => one_line t = true) [str "uno"; str "dos"]
  ∧ parseTranslations (join [NL] (imap numbered_line [str "uno"; str "dos"]))
                      (take 2 five_captions)
    = [str "uno"; str "dos"].
Proof.
  assert (Forall (fun t => one_line t = true) [str "uno"; str "dos"]) as H
    by (repeat (constructor; [vm_compute; reflexivity|]); constructor).
  split; [reflexivity|]. split; [exact H|].
  exact (parseTranslations_numbered_response [str "uno"; str "dos"]
           (take 2 five_captions) eq_refl H).
Defined.

Lemma parseTranslations_unnumbered_response_witness :
  Forall (fun l => match_numbered l = None)
         (split_char NL (str " uno " ++ [NL; NL] ++ str "dos"))
  ∧ parseTranslations (str " uno " ++ [NL; NL] ++ str "dos") (take 3 five_captions)
    = [str "uno"; str "dos"; str "three"].
Proof.
  assert (Forall (fun l => match_numbered l = None)
            (split_char NL (str " uno " ++ [NL; NL] ++ str "dos"))) as H
    by (vm_compute; repeat (constructor; [reflexivity|]); constructor).
  split; [exact H|].
  exact (parseTranslations_unnumbered_response
           (str " uno " ++ [NL; NL] ++ str "dos") (take 3 five_captions) H).
Defined.


Lemma createProvider_first_configured_witness :
  o_provider bare_options = None ∧ nonempty (o_apiKey bare_options) = None
  ∧ ∃ p config,
      createProvider_config gemini_env bare_options = Ok (p, config)
      ∧ head (List.filter snd (listProviders gemini_env)) = Some (p, true)
      ∧ apiKey config
        = (if requiresApiKey p then nonempty (gemini_env (envVar p)) else None).
Proof.
  split; [reflexivity|]. split; [reflexivity|].
  exact (createProvider_first_configured gemini_env bare_options eq_refl eq_refl).
Defined.

Lemma no_credentials_no_translation_witness :
  o_provider bare_options = None ∧ nonempty (o_apiKey bare_options) = None
  ∧ ∃ config,
      createProvider_config no_env bare_options = Ok (whisper, config)
      ∧ match createWhisperProvider config with
        | Err e => e = whisper_target_error (o_targetLang bare_options)
        | Ok provider =>
            ∀ captions batchSize maxChars,
              captions ≠ [] →
              merge (fun _ batch => translateBatch provider batch) (alloc captions)
                    (batchSubtitles (alloc captions) batchSize maxChars)
              = Err whisper_text_error
        end.
Proof.
  split; [reflexivity|]. split; [reflexivity|].
  apply (no_credentials_no_translation no_env bare_options eq_refl eq_refl).
  intros p _. reflexivity.
Defined.


Lemma cli_batches_bounded_witness :
  cli_batchSize (str "1000") = Some 500%Z
  ∧ (10 ≤ 500 ≤ 500)%Z
  ∧ concat (batchSubtitles (alloc five_values) 500 default_maxChars)
    = alloc five_values
  ∧ Forall (fun batch => 1 ≤ length batch ≤ 500)
           (batchSubtitles (alloc five_values) 500 default_maxChars).
Proof.
  assert (cli_batchSize (str "1000") = Some 500%Z) as H by (vm_compute; reflexivity).
  split; [exact H|]. exact (cli_batches_bounded (str "1000") 500 five_values H).
Defined.
